(** * hp-adaptivity drivers of hermes-examples: a shallow embedding

    The repository is a collection of [main.cpp] drivers.  Each driver owns
    the control flow of an adaptivity loop (and, for transient problems, of a
    time-stepping loop around it) and delegates meshes, spaces, solvers,
    projections, error calculation and refinement to the Hermes library.

    The library is not part of the repository.  It is modelled by the
    interface [Hermes] below, one field per library call the drivers make;
    every driver is a function over an arbitrary implementation of that
    interface, so a theorem about a driver holds whatever the library does.

    Conventions.
    - [double] values are modelled by the rationals they denote ([Q]); NaN
      and the infinities are not modelled, and products are exact.  The
      closed forms that call [atan] or [sqrt] (moving-front, the
      advection-diffusion form) are modelled over the reals ([R]) in the
      same way.
    - [int] values are modelled by [Z].  The counters and DOF counts of the
      drivers stay far below [2^31]; signed overflow (undefined in C++) is
      not modelled.
    - A [do { ... } while (done == false)] loop may run forever; it is run
      with a step budget and reports [Unfinished] when the budget is spent.
    - Views, logging, convergence graphs and time measurement do not take
      part in the control flow and are left out. *)

From Stdlib Require Import ZArith QArith Qround List String Bool Lia.
From Stdlib Require Import Reals Lra Lqa.
Import ListNotations.

Local Open Scope string_scope.
Local Open Scope Z_scope.

(** ** Numbers *)

(** [a < b] on doubles. *)
Definition Qltb (a b : Q) : bool := negb (Qle_bool b a).

(** [a >= b] on ints. *)
Definition Zgeb (a b : Z) : bool := b <=? a.

(** [(int) a]: the conversion truncates toward zero. *)
Definition int_of_double (a : Q) : Z :=
  if Qle_bool 0 a then Qfloor a else Qceiling a.

(** ** Control flow of the drivers *)

(** What one pass through a loop body does. *)
Inductive Flow (S : Type) : Type :=
| Normal (s : S)                    (* the body ran to its end *)
| LoopBreak (s : S)                 (* [break] *)
| Exception (msg : string) (s : S)  (* an exception left the body *)
| Return (code : Z) (s : S)         (* [return code] from [main] *)
| Spinning (s : S).                 (* a loop inside the body has used up
                                       its budget without ending *)

Arguments Normal {S} s.
Arguments LoopBreak {S} s.
Arguments Exception {S} msg s.
Arguments Return {S} code s.
Arguments Spinning {S} s.

(** How a loop ends.  [Thrown] and [Exited] carry the state the body had
    reached when it gave up. *)
Inductive Outcome (S : Type) : Type :=
| Finished (s : S)
| Thrown (msg : string) (s : S)
| Exited (code : Z) (s : S)
| Unfinished (s : S).

Arguments Finished {S} s.
Arguments Thrown {S} msg s.
Arguments Exited {S} code s.
Arguments Unfinished {S} s.

(** [do body while (again)], with a budget of [fuel] passes. *)
Fixpoint do_while {S : Type} (body : S -> Flow S) (again : S -> bool)
    (fuel : nat) (s : S) : Outcome S :=
  match fuel with
  | O => Unfinished s
  | Datatypes.S n =>
      match body s with
      | Normal s' => if again s' then do_while body again n s' else Finished s'
      | LoopBreak s' => Finished s'
      | Exception msg s' => Thrown msg s'
      | Return code s' => Exited code s'
      | Spinning s' => Unfinished s'
      end
  end.

(** [while (test) body], with a budget of [fuel] passes. *)
Fixpoint while_do {S : Type} (test : S -> bool) (body : S -> Flow S)
    (fuel : nat) (s : S) : Outcome S :=
  match fuel with
  | O => Unfinished s
  | Datatypes.S n =>
      if test s then
        match body s with
        | Normal s' => while_do test body n s'
        | LoopBreak s' => Finished s'
        | Exception msg s' => Thrown msg s'
        | Return code s' => Exited code s'
        | Spinning s' => Unfinished s'
        end
      else Finished s
  end.

(** A finished inner loop lets the enclosing body go on with [k]; anything
    else ends the enclosing body too. *)
Definition after_loop {S : Type} (o : Outcome S) (k : S -> Flow S) : Flow S :=
  match o with
  | Finished s => k s
  | Thrown msg s => Exception msg s
  | Exited code s => Return code s
  | Unfinished s => Spinning s
  end.

(** The loop has stopped, one way or another. *)
Definition stopped {S : Type} (o : Outcome S) : bool :=
  match o with
  | Unfinished _ => false
  | _ => true
  end.

(** [passes body again k s s']: [k] passes of the body, each followed by a
    successful [while] test, lead from [s] to [s']. *)
Inductive passes {S : Type} (body : S -> Flow S) (again : S -> bool)
  : nat -> S -> S -> Prop :=
| passes_O s : passes body again O s s
| passes_S k s s1 s' :
    body s = Normal s1 -> again s1 = true ->
    passes body again k s1 s' ->
    passes body again (Datatypes.S k) s s'.

(** ** The library interface *)

(** Predefined lists of refinement candidates. *)
Inductive CandList : Type :=
| H2D_P_ISO | H2D_P_ANISO | H2D_H_ISO | H2D_H_ANISO
| H2D_HP_ISO | H2D_HP_ANISO_H | H2D_HP_ANISO_P | H2D_HP_ANISO.

Class Hermes : Type := {
  Mesh : Type;
  Space : Type;
  MeshFunction : Type;
  Vector : Type;
  ErrorCalculator : Type;
  WeakForm : Type;

  (* Mesh::ReferenceMeshCreator(mesh).create_ref_mesh() *)
  create_ref_mesh : Mesh -> Mesh;
  (* mesh->copy(other), as a value *)
  mesh_copy : Mesh -> Mesh;
  (* mesh->refine_all_elements() *)
  refine_all_elements : Mesh -> Mesh;
  (* space->get_mesh() *)
  get_mesh : Space -> Mesh;
  (* Space<double>::ReferenceSpaceCreator(space, ref_mesh).create_ref_space() *)
  create_ref_space : Space -> Mesh -> Space;
  (* space->get_num_dofs() *)
  get_num_dofs : Space -> Z;
  (* mesh->copy(basemesh), where mesh is the mesh the space is built on:
     the space after its mesh has been overwritten *)
  copy_mesh_of : Space -> Mesh -> Space;
  (* space->unrefine_all_mesh_elements() *)
  unrefine_all_mesh_elements : Space -> Space;
  (* mesh->unrefine_all_elements(), where mesh is the mesh of the space *)
  unrefine_all_elements_of : Space -> Space;
  (* space->set_uniform_order(p) *)
  set_uniform_order : Space -> Z -> Space;
  (* space->adjust_element_order(horizontal and vertical change, horizontal
     and vertical minimum) *)
  adjust_element_order : Space -> Z -> Z -> Z -> Z -> Space;
  (* space->assign_dofs() *)
  assign_dofs : Space -> Space;

  (* DiscreteProblem dp(wf, spaces); NewtonSolver newton(&dp);
     newton.solve(initial guess); newton.get_sln_vector().
     The scalars and mesh functions are the ones the weak form reads through
     pointers when it is assembled.  [None]: the solver threw. *)
  newton_solve : WeakForm -> list Q -> list MeshFunction ->
                 list Space -> list MeshFunction -> option Vector;
  (* RungeKutta<double>(wf, space, &bt).rk_time_step_newton(sln_time_prev,
       sln_time_new, error_fn) at the given time and time step; the flag
     says whether an error function is asked for (else NULL is passed).
     Returns [sln_time_new] and [error_fn]; [None]: it threw. *)
  rk_time_step_newton : WeakForm -> Space -> Q -> Q -> MeshFunction -> bool ->
                        option (MeshFunction * MeshFunction);
  (* new Solution<double>() *)
  new_Solution : MeshFunction;
  (* new Solution<double>(mesh) *)
  new_Solution_on : Mesh -> MeshFunction;
  (* Solution<double>::vector_to_solution(vec, space, sln) *)
  vector_to_solution : Vector -> Space -> MeshFunction;
  (* Solution<double>::vector_to_solutions(vec, spaces, slns) *)
  vector_to_solutions : Vector -> list Space -> list MeshFunction;
  (* OGProjection<double>::project_global(space, source, target);
     [None]: the projection threw. *)
  project_global : Space -> MeshFunction -> option MeshFunction;
  (* OGProjection<double>::project_global(spaces, sources, targets) *)
  project_global_multi : list Space -> list MeshFunction ->
                         option (list MeshFunction);

  (* errorCalculator.calculate_errors(coarse, fine, sort_and_store): the
     calculator after the call *)
  calculate_errors : ErrorCalculator -> list MeshFunction ->
                     list MeshFunction -> bool -> ErrorCalculator;
  (* errorCalculator.get_total_error_squared() *)
  get_total_error_squared : ErrorCalculator -> Q;
  (* errorCalculator.get_error_squared(component) *)
  get_error_squared : ErrorCalculator -> nat -> Q;
  (* DefaultNormCalculator<double, HERMES_H1_NORM>(1).calculate_norm(f) *)
  calculate_norm : MeshFunction -> Q;

  (* Adapt<double>(space, &errorCalculator, &stoppingCriterion)
       .adapt(&selector), with the stopping criterion built from THRESHOLD
     and the selector from CAND_LIST.  Returns the [done] flag and the
     coarse space after the call (the library refines the space and its
     mesh in place). *)
  adapt : Q -> CandList -> ErrorCalculator -> Space -> bool * Space;
  (* the same on several spaces: adapt(selectors) *)
  adapt_multi : Q -> CandList -> ErrorCalculator -> list Space ->
                bool * list Space;
}.

(** The message of an exception of the library that no driver catches. *)
Definition uncaught : string := "uncaught library exception".

(** ** 1d/layer-boundary/main.cpp *)

Module LayerBoundary1D.

Definition THRESHOLD : Q := 1 # 2.
Definition CAND_LIST : CandList := H2D_HP_ANISO.
Definition ERR_STOP : Q := 1 # 1000.
Definition NDOF_STOP : Z := 1000.

Section Driver.
Context `{Hermes}.
(* the weak form and the exact solution built before the loop *)
Variables (wf : WeakForm) (exact_sln : MeshFunction).

(** The variables that live across adaptivity steps.  [err_exact_rel]
    and [err_est_rel] are locals of the body; they are kept because they
    are what a step reports (log line and convergence graphs). *)
Record State : Type := mkState {
  space : Space;
  sln : MeshFunction;
  errorCalculator : ErrorCalculator;
  err_exact_rel : Q;
  err_est_rel : Q;
  as_ : Z;
  done : bool
}.

(** Lines 112-205: the body of the [do] loop. *)
Definition adaptivity_step (s : State) : Flow State :=
  let ref_mesh := create_ref_mesh (get_mesh (space s)) in
  let ref_space := create_ref_space (space s) ref_mesh in
  match newton_solve wf [] [] [ref_space] [] with
  | None => Exception "Newton's iteration failed." s
  | Some vec =>
      let ref_sln := vector_to_solution vec ref_space in
      match project_global (space s) ref_sln with
      | None => Exception uncaught s
      | Some sln' =>
          let ec1 :=
            calculate_errors (errorCalculator s) [sln'] [exact_sln] false in
          let err_exact_rel' := (get_total_error_squared ec1 * 100)%Q in
          let ec2 := calculate_errors ec1 [sln'] [ref_sln] true in
          let err_est_rel' := (get_total_error_squared ec2 * 100)%Q in
          let r :=
            if Qltb err_exact_rel' ERR_STOP
               || Zgeb (get_num_dofs (space s)) NDOF_STOP
            then (true, space s)
            else adapt THRESHOLD CAND_LIST ec2 (space s) in
          Normal {| space := snd r;
                    sln := sln';
                    errorCalculator := ec2;
                    err_exact_rel := err_exact_rel';
                    err_est_rel := err_est_rel';
                    as_ := if fst r then as_ s else as_ s + 1;
                    done := fst r |}
      end
  end.

(** Lines 109-206: [int as = 1; bool done = false; do ... while (done == false)]. *)
Definition adaptivity_loop (fuel : nat) (s : State) : Outcome State :=
  do_while adaptivity_step (fun s' => negb (done s')) fuel s.

Definition initial (space0 : Space) (sln0 : MeshFunction)
    (ec0 : ErrorCalculator) : State :=
  {| space := space0; sln := sln0; errorCalculator := ec0;
     err_exact_rel := 0; err_est_rel := 0; as_ := 1; done := false |}.
End Driver.

End LayerBoundary1D.

(** ** 2d-benchmarks-general/lshape/main.cpp *)

Module Lshape.

Definition THRESHOLD : Q := 3 # 10.
Definition CAND_LIST : CandList := H2D_HP_ANISO.
Definition ERR_STOP : Q := 1 # 10000.

Section Driver.
Context `{Hermes}.
Variables (wf : WeakForm) (exact_sln : MeshFunction).

Record State : Type := mkState {
  space : Space;
  sln : MeshFunction;
  errorCalculator : ErrorCalculator;
  err_exact_rel : Q;
  err_est_rel : Q;
  as_ : Z;
  done : bool
}.

(** Lines 87-175: the body of the [do] loop.  The comment above the stop
    check announces an NDOF test; the check has none. *)
Definition adaptivity_step (s : State) : Flow State :=
  let ref_mesh := create_ref_mesh (get_mesh (space s)) in
  let ref_space := create_ref_space (space s) ref_mesh in
  match newton_solve wf [] [] [ref_space] [] with
  | None => Exception "Newton's iteration failed." s
  | Some vec =>
      let ref_sln := vector_to_solution vec ref_space in
      match project_global (space s) ref_sln with
      | None => Exception uncaught s
      | Some sln' =>
          let ec1 :=
            calculate_errors (errorCalculator s) [sln'] [exact_sln] false in
          let err_exact_rel' := (get_total_error_squared ec1 * 100)%Q in
          let ec2 := calculate_errors ec1 [sln'] [ref_sln] true in
          let err_est_rel' := (get_total_error_squared ec2 * 100)%Q in
          let r :=
            if Qltb err_exact_rel' ERR_STOP
            then (true, space s)
            else adapt THRESHOLD CAND_LIST ec2 (space s) in
          Normal {| space := snd r;
                    sln := sln';
                    errorCalculator := ec2;
                    err_exact_rel := err_exact_rel';
                    err_est_rel := err_est_rel';
                    as_ := if fst r then as_ s else as_ s + 1;
                    done := fst r |}
      end
  end.

Definition adaptivity_loop (fuel : nat) (s : State) : Outcome State :=
  do_while adaptivity_step (fun s' => negb (done s')) fuel s.

Definition initial (space0 : Space) (sln0 : MeshFunction)
    (ec0 : ErrorCalculator) : State :=
  {| space := space0; sln := sln0; errorCalculator := ec0;
     err_exact_rel := 0; err_est_rel := 0; as_ := 1; done := false |}.
End Driver.

End Lshape.


(** ** 2d-advanced/neutronics/4-group-adapt/main.cpp *)

Module Neutronics.

Definition THRESHOLD : Q := 3 # 10.
Definition CAND_LIST : CandList := H2D_HP_ANISO.
Definition ERR_STOP : Q := 1 # 2.
Definition MAX_ADAPT_NUM : Z := 30.
Definition NDOF_STOP : Z := 100000.
Definition TOL_PIT_RM : Q := 5 # 1000000.

Section Driver.
Context `{Hermes}.
Variable wf : WeakForm.
(* [power_iteration(matprop, spaces, wf, power_iterates, core, tol, solver)]
   is defined in the example's definitions.cpp, not in main.cpp; it is a
   parameter here.  It overwrites [power_iterates]; [None]: it threw. *)
Variable power_iteration :
  WeakForm -> list Space -> list MeshFunction -> Q -> option (list MeshFunction).
(* the calculators of one step, after the [add_error_form] calls *)
Variables (H1errorCalculator L2errorCalculator : ErrorCalculator).

(** [coarse_solutions], [fine_solutions] and [power_iterates] hold one mesh
    function per energy group, [spaces] one space per group.  The error
    figures are locals of the body, kept because a step reports them. *)
Record State : Type := mkState {
  spaces : list Space;
  coarse_solutions : list MeshFunction;
  fine_solutions : list MeshFunction;
  power_iterates : list MeshFunction;
  h1_group_errors : list Q;
  l2_group_errors : list Q;
  h1_err_est : Q;
  l2_err_est : Q;
  as_ : Z;
  done : bool
}.

(** [spaces[0]->get_num_dofs() + ... + spaces[3]->get_num_dofs()];
    [spaces] has one entry per group. *)
Definition ndof_coarse (sp : list Space) : Z :=
  fold_right (fun s acc => get_num_dofs s + acc) 0 sp.

(** Lines 241-253: one reference space per group. *)
Definition make_ref_spaces (sp : list Space) : list Space :=
  map (fun s =>
         let ref_mesh := refine_all_elements (mesh_copy (get_mesh s)) in
         create_ref_space s ref_mesh) sp.

(** The error of every group in percent, lines 322-323. *)
Definition group_errors (ec : ErrorCalculator) : list Q :=
  map (fun g => (get_error_squared ec g * 100)%Q) [0%nat; 1%nat; 2%nat; 3%nat].

(** Lines 238-376: the body of the [do] loop.  The projection of the fine
    solutions on the coarse meshes is commented out in the source, so
    [coarse_solutions] is never written. *)
Definition adaptivity_step (s : State) : Flow State :=
  let ref_spaces := make_ref_spaces (spaces s) in
  match power_iteration wf ref_spaces (power_iterates s) TOL_PIT_RM with
  | None => Exception uncaught s
  | Some power_iterates' =>
      let fine_solutions' := power_iterates' in
      let h1 := calculate_errors H1errorCalculator
                  (coarse_solutions s) fine_solutions' true in
      let l2 := calculate_errors L2errorCalculator
                  (coarse_solutions s) fine_solutions' true in
      let h1_err_est' := (get_total_error_squared h1 * 100)%Q in
      let l2_err_est' := (get_total_error_squared l2 * 100)%Q in
      let r :=
        if Qltb l2_err_est' ERR_STOP
        then (true, spaces s)
        else
          let a := adapt_multi THRESHOLD CAND_LIST h1 (spaces s) in
          if Zgeb (ndof_coarse (snd a)) NDOF_STOP
          then (true, snd a)
          else a in
      let as' := as_ s + 1 in
      Normal {| spaces := snd r;
                coarse_solutions := coarse_solutions s;
                fine_solutions := fine_solutions';
                power_iterates := power_iterates';
                h1_group_errors := group_errors h1;
                l2_group_errors := group_errors l2;
                h1_err_est := h1_err_est';
                l2_err_est := l2_err_est';
                as_ := as';
                done := if Zgeb as' MAX_ADAPT_NUM then true else fst r |}
  end.

(** Lines 235-377: [int as = 1; bool done = false; do ... while (done == false)]. *)
Definition adaptivity_loop (fuel : nat) (s : State) : Outcome State :=
  do_while adaptivity_step (fun s' => negb (done s')) fuel s.

Definition initial (spaces0 : list Space)
    (coarse0 fine0 iterates0 : list MeshFunction) : State :=
  {| spaces := spaces0; coarse_solutions := coarse0; fine_solutions := fine0;
     power_iterates := iterates0; h1_group_errors := []; l2_group_errors := [];
     h1_err_est := 0; l2_err_est := 0; as_ := 1; done := false |}.
End Driver.

End Neutronics.

(** ** 1d/system/main.cpp *)

Module System1D.

Definition THRESHOLD : Q := 3 # 10.
Definition CAND_LIST : CandList := H2D_HP_ANISO.
Definition ERR_STOP : Q := 1 # 10.

Section Driver.
Context `{Hermes}.
Variable wf : WeakForm.
(* [exact_u] and [exact_v] *)
Variable exact_slns : list MeshFunction.

(** [spaces] is [{u_space, v_space}], [slns] is [{u_sln, v_sln}] and
    [ref_slns] is [{u_ref_sln, v_ref_sln}]: the driver hands the pairs to
    the library as vectors.  WITH_EXACT_SOLUTION is defined. *)
Record State : Type := mkState {
  spaces : list Space;
  slns : list MeshFunction;
  ref_slns : list MeshFunction;
  errorCalculator : ErrorCalculator;
  err_exact_rel_total : Q;
  err_est_rel_total : Q;
  as_ : Z;
  done : bool
}.

(** Lines 153-165: a reference space for each of the two spaces. *)
Definition make_ref_spaces (sp : list Space) : list Space :=
  map (fun s => create_ref_space s (create_ref_mesh (get_mesh s))) sp.

(** Lines 145-268: the body of the [do] loop. *)
Definition adaptivity_step (s : State) : Flow State :=
  let ref_spaces := make_ref_spaces (spaces s) in
  match newton_solve wf [] [] ref_spaces [] with
  | None => Exception "Newton's iteration failed." s
  | Some vec =>
      let ref_slns' := vector_to_solutions vec ref_spaces in
      match project_global_multi (spaces s) ref_slns' with
      | None => Exception uncaught s
      | Some slns' =>
          let ec1 :=
            calculate_errors (errorCalculator s) slns' exact_slns false in
          let err_exact_rel_total' := (get_total_error_squared ec1 * 100)%Q in
          let ec2 := calculate_errors ec1 slns' ref_slns' true in
          let err_est_rel_total' := (get_total_error_squared ec2 * 100)%Q in
          let r :=
            if Qltb err_est_rel_total' ERR_STOP
            then (true, spaces s)
            else adapt_multi THRESHOLD CAND_LIST ec2 (spaces s) in
          Normal {| spaces := snd r;
                    slns := slns';
                    ref_slns := ref_slns';
                    errorCalculator := ec2;
                    err_exact_rel_total := err_exact_rel_total';
                    err_est_rel_total := err_est_rel_total';
                    as_ := as_ s + 1;
                    done := fst r |}
      end
  end.

Definition adaptivity_loop (fuel : nat) (s : State) : Outcome State :=
  do_while adaptivity_step (fun s' => negb (done s')) fuel s.

Definition initial (spaces0 : list Space) (slns0 ref_slns0 : list MeshFunction)
    (ec0 : ErrorCalculator) : State :=
  {| spaces := spaces0; slns := slns0; ref_slns := ref_slns0;
     errorCalculator := ec0; err_exact_rel_total := 0;
     err_est_rel_total := 0; as_ := 1; done := false |}.
End Driver.

End System1D.


(** ** 2d-advanced/nernst-planck/poisson-timedep-adapt/main.cpp *)

Module NernstPlanck.

Definition P_INIT : Z := 2.
Definition MULTIMESH : bool := true.
Definition UNREF_FREQ : Z := 1.
Definition THRESHOLD : Q := 3 # 10.
Definition CAND_LIST : CandList := H2D_HP_ANISO.
Definition ERR_STOP : Q := 1 # 10.

Section Driver.
Context `{Hermes}.
Variables (wf : WeakForm) (basemesh : Mesh).
(* [PidTimestepController] comes from the example's timestep_controller.h,
   not from main.cpp; it is a parameter here: the controller, its step
   number, the step size [*TAU] it owns, and its calls. *)
Context {Pid : Type}.
Variable begin_step : Pid -> Pid.
Variable get_timestep_number : Pid -> Z.
Variable timestep : Pid -> Q.
Variable end_step : Pid -> list MeshFunction -> list MeshFunction -> Pid.
Variable has_next : Pid -> bool.

(** [spaces] is [{C_space, phi_space}], [slns] is [{C_sln, phi_sln}],
    [ref_slns] is [{C_ref_sln, phi_ref_sln}] and [prev_times] is
    [{C_prev_time, phi_prev_time}]; the weak form holds pointers to the
    last pair and to the step size. *)
Record State : Type := mkState {
  spaces : list Space;
  slns : list MeshFunction;
  ref_slns : list MeshFunction;
  prev_times : list MeshFunction;
  pid : Pid;
  errorCalculator : ErrorCalculator;
  err_est_rel_total : Q;
  as_ : Z;
  done : bool
}.

(** Lines 293-303: periodic global derefinement.  With MULTIMESH the two
    spaces have a mesh each and both meshes are overwritten; without it
    [phi_space] is built on [C_mesh], which is overwritten. *)
Definition global_derefinement (sp : list Space) : list Space :=
  map (fun s =>
         let s1 := if MULTIMESH then copy_mesh_of s basemesh
                   else copy_mesh_of s basemesh in
         assign_dofs (set_uniform_order s1 P_INIT)) sp.

Definition periodic_global_derefinement (s : State) : State :=
  if (1 <? get_timestep_number (pid s))
     && (Z.rem (get_timestep_number (pid s)) UNREF_FREQ =? 0)
  then {| spaces := global_derefinement (spaces s);
          slns := slns s; ref_slns := ref_slns s;
          prev_times := prev_times s; pid := pid s;
          errorCalculator := errorCalculator s;
          err_est_rel_total := err_est_rel_total s;
          as_ := as_ s; done := done s |}
  else s.

Definition make_ref_spaces (sp : list Space) : list Space :=
  map (fun s => create_ref_space s (create_ref_mesh (get_mesh s))) sp.

(** Lines 309-398: the body of the adaptivity loop. *)
Definition adaptivity_step (s : State) : Flow State :=
  let ref_spaces := make_ref_spaces (spaces s) in
  let guess :=
    if (as_ s =? 1) && (get_timestep_number (pid s) =? 1)
    then slns s else ref_slns s in
  match newton_solve wf [timestep (pid s)] (prev_times s) ref_spaces guess with
  | None => Exception "Newton's iteration failed." s
  | Some vec =>
      let ref_slns' := vector_to_solutions vec ref_spaces in
      match project_global_multi (spaces s) ref_slns' with
      | None => Exception uncaught s
      | Some slns' =>
          let ec := calculate_errors (errorCalculator s) slns' ref_slns' true in
          let err_est_rel_total' := (get_total_error_squared ec * 100)%Q in
          let r :=
            if Qltb err_est_rel_total' ERR_STOP
            then (true, spaces s)
            else adapt_multi THRESHOLD CAND_LIST ec (spaces s) in
          Normal {| spaces := snd r;
                    slns := slns';
                    ref_slns := ref_slns';
                    prev_times := prev_times s;
                    pid := pid s;
                    errorCalculator := ec;
                    err_est_rel_total := err_est_rel_total';
                    as_ := if Qltb err_est_rel_total' ERR_STOP
                           then as_ s else as_ s + 1;
                    done := fst r |}
      end
  end.

(** Line 306: [bool done = false; int as = 1;]. *)
Definition begin_adaptivity (s : State) : State :=
  {| spaces := spaces s; slns := slns s; ref_slns := ref_slns s;
     prev_times := prev_times s; pid := pid s;
     errorCalculator := errorCalculator s;
     err_est_rel_total := err_est_rel_total s;
     as_ := 1; done := false |}.

(** Lines 306-399: [do ... while (done == false)]. *)
Definition adaptivity_loop (fuel : nat) (s : State) : Outcome State :=
  do_while adaptivity_step (fun s' => negb (done s')) fuel (begin_adaptivity s).

(** Lines 401-406: the end of a time step. *)
Definition finish_time_step (s : State) : State :=
  {| spaces := spaces s; slns := slns s; ref_slns := ref_slns s;
     prev_times := ref_slns s;
     pid := end_step (pid s) (ref_slns s) (prev_times s);
     errorCalculator := errorCalculator s;
     err_est_rel_total := err_est_rel_total s;
     as_ := as_ s; done := done s |}.

Definition with_pid (s : State) (p : Pid) : State :=
  {| spaces := spaces s; slns := slns s; ref_slns := ref_slns s;
     prev_times := prev_times s; pid := p;
     errorCalculator := errorCalculator s;
     err_est_rel_total := err_est_rel_total s;
     as_ := as_ s; done := done s |}.

(** Lines 291-406: the body of the time-stepping loop; [fuel] is the budget
    of the adaptivity loop inside. *)
Definition time_step (fuel : nat) (s : State) : Flow State :=
  let s1 := with_pid s (begin_step (pid s)) in
  let s2 := periodic_global_derefinement s1 in
  after_loop (adaptivity_loop fuel s2) (fun s3 => Normal (finish_time_step s3)).

(** Lines 290-407: [do ... while (pid.has_next())]. *)
Definition time_loop (fuel_time fuel_adapt : nat) (s : State) : Outcome State :=
  do_while (time_step fuel_adapt) (fun s' => has_next (pid s')) fuel_time s.
End Driver.

End NernstPlanck.


(** ** 2d-advanced/heat-transfer/wall-on-fire-adapt/main.cpp *)

Module WallOnFire.

Definition P_INIT : Z := 1.
Definition UNREF_FREQ : Z := 1.
Definition UNREF_METHOD : Z := 3.
Definition THRESHOLD : Q := 3 # 10.
Definition CAND_LIST : CandList := H2D_HP_ANISO.
Definition ERR_STOP : Q := 1 # 10.
Definition TIME_ERR_TOL_UPPER : Q := 1.
Definition TIME_ERR_TOL_LOWER : Q := 1 # 2.
Definition TIME_STEP_INC_RATIO : Q := 11 # 10.
Definition TIME_STEP_DEC_RATIO : Q := 8 # 10.
Definition SPACE_ERR_TOL : Q := 10.
Definition T_FINAL : Q := 18000.

Section Driver.
Context `{Hermes}.
Variables (wf : WeakForm) (basemesh : Mesh).
(* [bt.is_embedded()] for the Butcher table chosen at line 99, and the
   value of the global ADAPTIVE_TIME_STEP_ON after lines 133-136 *)
Variables (bt_is_embedded ADAPTIVE_TIME_STEP_ON : bool).

(** [err_rel_space] is a local of the inner body, kept because a step
    reports it. *)
Record State : Type := mkState {
  space : Space;
  sln_prev_time : MeshFunction;
  ref_sln : MeshFunction;
  time_error_fn : MeshFunction;
  time_step : Q;
  current_time : Q;
  ts : Z;
  ndof : Z;
  errorCalculator : ErrorCalculator;
  err_rel_space : Q;
  as_ : Z;
  done : bool
}.

Definition with_sln_prev_time (s : State) (f : MeshFunction) : State :=
  {| space := space s; sln_prev_time := f; ref_sln := ref_sln s;
     time_error_fn := time_error_fn s; time_step := time_step s;
     current_time := current_time s; ts := ts s; ndof := ndof s;
     errorCalculator := errorCalculator s; err_rel_space := err_rel_space s;
     as_ := as_ s; done := done s |}.

(** Lines 198-210: [switch (UNREF_METHOD)]; [None] is the [default] case,
    which throws. *)
Definition global_derefinement (unref_method : Z) (sp : Space) : option Space :=
  if unref_method =? 1 then
    Some (set_uniform_order (copy_mesh_of sp basemesh) P_INIT)
  else if unref_method =? 2 then
    Some (set_uniform_order (unrefine_all_mesh_elements sp) P_INIT)
  else if unref_method =? 3 then
    Some (adjust_element_order (unrefine_all_mesh_elements sp)
            (-1) (-1) P_INIT P_INIT)
  else None.

(** Lines 194-214: periodic global derefinement. *)
Definition periodic_global_derefinement (unref_freq unref_method : Z)
    (s : State) : Flow State :=
  if (1 <? ts s) && (Z.rem (ts s) unref_freq =? 0) then
    match global_derefinement unref_method (space s) with
    | None => Exception "Wrong global derefinement method." s
    | Some sp =>
        let sp' := assign_dofs sp in
        Normal {| space := sp'; sln_prev_time := sln_prev_time s;
                  ref_sln := ref_sln s; time_error_fn := time_error_fn s;
                  time_step := time_step s; current_time := current_time s;
                  ts := ts s; ndof := get_num_dofs sp';
                  errorCalculator := errorCalculator s;
                  err_rel_space := err_rel_space s;
                  as_ := as_ s; done := done s |}
    end
  else Normal s.

(** Lines 223-353: the body of the spatial adaptivity loop. *)
Definition adaptivity_step (s : State) : Flow State :=
  let ref_mesh := create_ref_mesh (get_mesh (space s)) in
  let ref_space := create_ref_space (space s) ref_mesh in
  (* ogProjection.project_global(ref_space, sln_prev_time, sln_prev_time) *)
  match project_global ref_space (sln_prev_time s) with
  | None => Return (-1) s
  | Some sln_prev_time' =>
      match rk_time_step_newton wf ref_space (current_time s) (time_step s)
              sln_prev_time' bt_is_embedded with
      | None => Return (-1) (with_sln_prev_time s sln_prev_time')
      | Some (ref_sln', error_fn) =>
          let time_error_fn' :=
            if bt_is_embedded then error_fn else time_error_fn s in
          let rel_err_time :=
            if bt_is_embedded
            then (100 * calculate_norm time_error_fn' / calculate_norm ref_sln')%Q
            else 0%Q in
          if ADAPTIVE_TIME_STEP_ON && Qltb TIME_ERR_TOL_UPPER rel_err_time then
            (* [continue]: on to the [while] test, with [done] still false *)
            Normal {| space := space s; sln_prev_time := sln_prev_time';
                      ref_sln := ref_sln'; time_error_fn := time_error_fn';
                      time_step := (time_step s * TIME_STEP_DEC_RATIO)%Q;
                      current_time := current_time s;
                      ts := ts s; ndof := ndof s;
                      errorCalculator := errorCalculator s;
                      err_rel_space := err_rel_space s;
                      as_ := as_ s; done := done s |}
          else
            let time_step' :=
              if ADAPTIVE_TIME_STEP_ON && Qltb rel_err_time TIME_ERR_TOL_LOWER
              then (time_step s * TIME_STEP_INC_RATIO)%Q else time_step s in
            match project_global (space s) ref_sln' with
            | None =>
                Exception uncaught
                  {| space := space s; sln_prev_time := sln_prev_time';
                     ref_sln := ref_sln'; time_error_fn := time_error_fn';
                     time_step := time_step'; current_time := current_time s;
                     ts := ts s; ndof := ndof s;
                     errorCalculator := errorCalculator s;
                     err_rel_space := err_rel_space s;
                     as_ := as_ s; done := done s |}
            | Some sln =>
                let ec :=
                  calculate_errors (errorCalculator s) [sln] [ref_sln'] true in
                let err_rel_space' := (get_total_error_squared ec * 100)%Q in
                let r :=
                  if Qltb err_rel_space' SPACE_ERR_TOL
                  then (true, space s)
                  else adapt THRESHOLD CAND_LIST ec (space s) in
                Normal {| space := snd r; sln_prev_time := sln_prev_time';
                          ref_sln := ref_sln'; time_error_fn := time_error_fn';
                          time_step := time_step';
                          current_time := current_time s;
                          ts := ts s; ndof := ndof s;
                          errorCalculator := ec;
                          err_rel_space := err_rel_space';
                          as_ := if Qltb err_rel_space' SPACE_ERR_TOL
                                 then as_ s else as_ s + 1;
                          done := fst r |}
            end
      end
  end.

(** Lines 218-221: the fresh [ref_sln] and [time_error_fn],
    [bool done = false; int as = 1;]. *)
Definition begin_adaptivity (s : State) : State :=
  {| space := space s; sln_prev_time := sln_prev_time s;
     ref_sln := new_Solution;
     time_error_fn := new_Solution_on (get_mesh (space s));
     time_step := time_step s; current_time := current_time s;
     ts := ts s; ndof := ndof s;
     errorCalculator := errorCalculator s;
     err_rel_space := err_rel_space s;
     as_ := 1; done := false |}.

(** Lines 222-354: [do ... while (done == false)]. *)
Definition adaptivity_loop (fuel : nat) (s : State) : Outcome State :=
  do_while adaptivity_step (fun s' => negb (done s')) fuel (begin_adaptivity s).

(** Lines 366-371: the end of a time step. *)
Definition finish_time_step (s : State) : State :=
  {| space := space s; sln_prev_time := ref_sln s; ref_sln := ref_sln s;
     time_error_fn := time_error_fn s; time_step := time_step s;
     current_time := (current_time s + time_step s)%Q;
     ts := ts s + 1; ndof := ndof s;
     errorCalculator := errorCalculator s;
     err_rel_space := err_rel_space s;
     as_ := as_ s; done := done s |}.

(** Lines 192-371: the body of the time-stepping loop, for given values of
    UNREF_FREQ and UNREF_METHOD; [fuel] is the budget of the adaptivity loop
    inside. *)
Definition time_step_body (unref_freq unref_method : Z) (fuel : nat)
    (s : State) : Flow State :=
  match periodic_global_derefinement unref_freq unref_method s with
  | Normal s1 =>
      after_loop (adaptivity_loop fuel s1)
        (fun s2 => Normal (finish_time_step s2))
  | other => other
  end.

(** Lines 190-372: [int ts = 1; do ... while (current_time < T_FINAL)]. *)
Definition time_loop (fuel_time fuel_adapt : nat) (s : State) : Outcome State :=
  do_while (time_step_body UNREF_FREQ UNREF_METHOD fuel_adapt)
    (fun s' => Qltb (current_time s') T_FINAL) fuel_time s.
End Driver.

End WallOnFire.


(** ** 2d-advanced/richards/seepage-adapt/main.cpp *)

Module Seepage.

Definition P_INIT : Z := 1.
Definition UNREF_FREQ : Z := 1.
Definition UNREF_METHOD : Z := 3.
Definition THRESHOLD : Q := 3 # 10.
Definition STRATEGY : Z := 1.
Definition CAND_LIST : CandList := H2D_HP_ANISO.
Definition MESH_REGULARITY : Z := -1.
Definition CONV_EXP : Q := 1.
Definition ERR_STOP : Q := 1 # 2.
Definition NDOF_STOP : Z := 60000.

Section Driver.
Context `{Hermes}.
Variables (wf : WeakForm) (basemesh : Mesh).
(* TAU comes from the example's definitions.h, not from main.cpp; it is a
   parameter here. *)
Variable TAU : Q.
(* This driver still calls the previous generation of the library. *)
(* Space<double>::construct_refined_space(&space) *)
Variable construct_refined_space : Space -> Space.
(* OGProjection<double>::project_global(space, sln, coeff_vec) *)
Variable project_to_vector : Space -> MeshFunction -> Vector.
(* solve_newton(coeff_vec, &dp, NEWTON_TOL, NEWTON_MAX_ITER, verbose), at the
   current value of the global TIME; [None]: it returned false *)
Variable solve_newton : WeakForm -> Q -> Vector -> Space -> option Vector.
(* Adapt(&space, HERMES_H1_NORM).calc_err_est(sln, &ref_sln): the estimate
   and the element errors the [Adapt] object keeps *)
Variable calc_err_est :
  Space -> MeshFunction -> MeshFunction -> Q * ErrorCalculator.
(* adaptivity->adapt(&selector, THRESHOLD, STRATEGY, MESH_REGULARITY), the
   selector built from CAND_LIST and CONV_EXP *)
Variable adapt_strategy :
  CandList -> Q -> Q -> Z -> Z -> ErrorCalculator -> Space -> bool * Space.

Record State : Type := mkState {
  space : Space;
  sln : MeshFunction;
  ref_sln : MeshFunction;
  sln_prev_time : MeshFunction;
  TIME : Q;
  ts : Z;
  ndof : Z;
  err_est_rel : Q;
  as_ : Z;
  done : bool
}.

(** Lines 241-253: [switch (UNREF_METHOD)]; [None] is the [default] case,
    which calls [error]. *)
Definition global_derefinement (unref_method : Z) (sp : Space) : option Space :=
  if unref_method =? 1 then
    Some (set_uniform_order (copy_mesh_of sp basemesh) P_INIT)
  else if unref_method =? 2 then
    Some (set_uniform_order (unrefine_all_elements_of sp) P_INIT)
  else if unref_method =? 3 then
    Some (adjust_element_order (unrefine_all_elements_of sp)
            (-1) (-1) P_INIT P_INIT)
  else None.

(** Lines 237-256: periodic global derefinement. *)
Definition periodic_global_derefinement (unref_freq unref_method : Z)
    (s : State) : Flow State :=
  if (1 <? ts s) && (Z.rem (ts s) unref_freq =? 0) then
    match global_derefinement unref_method (space s) with
    | None => Exception "Wrong global derefinement method." s
    | Some sp =>
        Normal {| space := sp; sln := sln s; ref_sln := ref_sln s;
                  sln_prev_time := sln_prev_time s; TIME := TIME s;
                  ts := ts s; ndof := get_num_dofs sp;
                  err_est_rel := err_est_rel s;
                  as_ := as_ s; done := done s |}
    end
  else Normal s.

(** Lines 264-334: the body of the spatial adaptivity loop. *)
Definition adaptivity_step (s : State) : Flow State :=
  let ref_space := construct_refined_space (space s) in
  let coeff_vec :=
    if (as_ s =? 1) && (ts s =? 1)
    then project_to_vector ref_space (sln_prev_time s)
    else project_to_vector ref_space (ref_sln s) in
  match solve_newton wf (TIME s) coeff_vec ref_space with
  | None => Exception "Newton's iteration failed." s
  | Some vec =>
      let ref_sln' := vector_to_solution vec ref_space in
      match project_global (space s) ref_sln' with
      | None => Exception uncaught s
      | Some sln' =>
          let est := calc_err_est (space s) sln' ref_sln' in
          let err_est_rel' := (fst est * 100)%Q in
          if Qltb err_est_rel' ERR_STOP then
            Normal {| space := space s; sln := sln'; ref_sln := ref_sln';
                      sln_prev_time := sln_prev_time s; TIME := TIME s;
                      ts := ts s; ndof := ndof s;
                      err_est_rel := err_est_rel';
                      as_ := as_ s; done := true |}
          else
            let a := adapt_strategy CAND_LIST CONV_EXP THRESHOLD STRATEGY
                       MESH_REGULARITY (snd est) (space s) in
            if Zgeb (get_num_dofs (snd a)) NDOF_STOP then
              LoopBreak {| space := snd a; sln := sln'; ref_sln := ref_sln';
                           sln_prev_time := sln_prev_time s; TIME := TIME s;
                           ts := ts s; ndof := ndof s;
                           err_est_rel := err_est_rel';
                           as_ := as_ s; done := true |}
            else
              Normal {| space := snd a; sln := sln'; ref_sln := ref_sln';
                        sln_prev_time := sln_prev_time s; TIME := TIME s;
                        ts := ts s; ndof := ndof s;
                        err_est_rel := err_est_rel';
                        as_ := as_ s + 1; done := fst a |}
      end
  end.

(** Lines 260-261: [bool done = false; int as = 1;]. *)
Definition begin_adaptivity (s : State) : State :=
  {| space := space s; sln := sln s; ref_sln := ref_sln s;
     sln_prev_time := sln_prev_time s; TIME := TIME s;
     ts := ts s; ndof := ndof s; err_est_rel := err_est_rel s;
     as_ := 1; done := false |}.

(** Lines 262-336: [do ... while (!done)]. *)
Definition adaptivity_loop (fuel : nat) (s : State) : Outcome State :=
  do_while adaptivity_step (fun s' => negb (done s')) fuel (begin_adaptivity s).

(** Line 234: [TIME = ts*TAU]. *)
Definition set_time (s : State) : State :=
  {| space := space s; sln := sln s; ref_sln := ref_sln s;
     sln_prev_time := sln_prev_time s; TIME := (inject_Z (ts s) * TAU)%Q;
     ts := ts s; ndof := ndof s; err_est_rel := err_est_rel s;
     as_ := as_ s; done := done s |}.

(** Line 348, [sln_prev_time.copy(ref_sln)], and the [ts++] of the [for]. *)
Definition finish_time_step (s : State) : State :=
  {| space := space s; sln := sln s; ref_sln := ref_sln s;
     sln_prev_time := ref_sln s; TIME := TIME s;
     ts := ts s + 1; ndof := ndof s; err_est_rel := err_est_rel s;
     as_ := as_ s; done := done s |}.

(** Lines 230-348: the body of the time-stepping loop, for given values of
    UNREF_FREQ and UNREF_METHOD. *)
Definition time_step_body (unref_freq unref_method : Z) (fuel : nat)
    (s : State) : Flow State :=
  match periodic_global_derefinement unref_freq unref_method (set_time s) with
  | Normal s1 =>
      after_loop (adaptivity_loop fuel s1)
        (fun s2 => Normal (finish_time_step s2))
  | other => other
  end.

(* Line 227: [int num_time_steps = (int)(T_FINAL/TAU + 0.5);].  The value
   is computed once, before the loop, in double arithmetic (a rounded
   division, a rounded sum and a cast that is defined only for values that
   fit an int) from TAU and from T_FINAL, which definitions.h sets; the
   loop reads nothing but the resulting int, which is a parameter here. *)
Variable num_time_steps : Z.

(** Lines 228-349: [for (int ts = 1; ts <= num_time_steps; ts++)]. *)
Definition time_loop (fuel_time fuel_adapt : nat) (s : State) : Outcome State :=
  while_do (fun s' => ts s' <=? num_time_steps)
    (time_step_body UNREF_FREQ UNREF_METHOD fuel_adapt) fuel_time s.
End Driver.

End Seepage.


(** ** A small library to run the drivers on

    A stand-in for the library, used to run the drivers on concrete inputs:
    a space is a one-dimensional H1 space of uniform order on [2^level]
    elements with Dirichlet ends, a mesh function is a space and one number,
    and what the solver, the projection and the refinement do is read from a
    [Script]. *)

Module Toy.

Record space : Type := mkSpace { level : Z; order : Z }.

Definition mesh_function : Type := (space * Q)%type.

(** Interior vertices plus bubbles: [(2^level - 1) + 2^level * (order - 1)]. *)
Definition dofs (s : space) : Z := 2 ^ level s * order s - 1.

Record Script : Type := mkScript {
  (* the solution of the discrete problem on the given spaces, one number
     per component; [None]: the solver fails *)
  solve : list space -> option (list Q);
  (* what the projection on a space keeps of a number *)
  project : space -> Q -> Q;
  (* the refinement of one space: done flag and refined space *)
  refine : space -> bool * space
}.

Definition sum_Q (l : list Q) : Q := fold_right Qplus 0%Q l.

(** The squared difference of every component, relative to the squared
    norm of the fine components together. *)
Definition errors (coarse fine : list mesh_function) : list Q :=
  let norm2 := sum_Q (map (fun f => (snd f * snd f)%Q) fine) in
  map (fun cf => ((snd (fst cf) - snd (snd cf)) * (snd (fst cf) - snd (snd cf))
                  / norm2)%Q)
      (combine coarse fine).

#[global] Instance lib (sc : Script) : Hermes := {|
  Mesh := Z;
  Space := space;
  MeshFunction := mesh_function;
  Vector := list Q;
  ErrorCalculator := list Q;
  WeakForm := unit;
  create_ref_mesh := fun m => m + 1;
  mesh_copy := fun m => m;
  refine_all_elements := fun m => m + 1;
  get_mesh := level;
  create_ref_space := fun s m => {| level := m; order := order s + 1 |};
  get_num_dofs := dofs;
  copy_mesh_of := fun s m => {| level := m; order := order s |};
  unrefine_all_mesh_elements :=
    fun s => {| level := Z.max 0 (level s - 1); order := order s |};
  unrefine_all_elements_of :=
    fun s => {| level := Z.max 0 (level s - 1); order := order s |};
  set_uniform_order := fun s p => {| level := level s; order := p |};
  adjust_element_order :=
    fun s dh dv minh minv =>
      {| level := level s; order := Z.max minh (order s + dh) |};
  assign_dofs := fun s => s;
  newton_solve := fun _ _ _ spaces _ => solve sc spaces;
  rk_time_step_newton :=
    fun _ s _ _ _ _ =>
      match solve sc [s] with
      | Some v => Some ((s, hd 0%Q v), (s, 0%Q))
      | None => None
      end;
  new_Solution := ({| level := 0; order := 0 |}, 0%Q);
  new_Solution_on := fun m => ({| level := m; order := 0 |}, 0%Q);
  vector_to_solution := fun v s => (s, hd 0%Q v);
  vector_to_solutions := fun v spaces => combine spaces v;
  project_global := fun s f => Some (s, project sc s (snd f));
  project_global_multi :=
    fun spaces fs =>
      Some (map (fun sf => (fst sf, project sc (fst sf) (snd (snd sf))))
              (combine spaces fs));
  calculate_errors := fun _ coarse fine _ => errors coarse fine;
  get_total_error_squared := sum_Q;
  get_error_squared := fun ec g => nth g ec 0%Q;
  calculate_norm := fun f => snd f;
  adapt := fun _ _ _ s => refine sc s;
  adapt_multi :=
    fun _ _ _ spaces =>
      (forallb (fun s => fst (refine sc s)) spaces,
       map (fun s => snd (refine sc s)) spaces)
|}.

(** Refinement that raises the order by one and never reports done. *)
Definition raise_order (s : space) : bool * space :=
  (false, {| level := level s; order := order s + 1 |}).

(** The solver returns 1 everywhere and the projection keeps it. *)
Definition steady : Script :=
  {| solve := fun spaces => Some (map (fun _ => 1%Q) spaces);
     project := fun _ v => v;
     refine := raise_order |}.

(** As [steady], with a refinement that changes nothing and never reports
    done. *)
Definition stalled : Script :=
  {| solve := fun spaces => Some (map (fun _ => 1%Q) spaces);
     project := fun _ v => v;
     refine := fun s => (false, s) |}.

(** The solver returns 2 everywhere and the projection keeps half of it. *)
Definition lossy : Script :=
  {| solve := fun spaces => Some (map (fun _ => 2%Q) spaces);
     project := fun _ v => (v / 2)%Q;
     refine := raise_order |}.

(** As [lossy], but the solver fails on more than 20 unknowns. *)
Definition fragile : Script :=
  {| solve := fun spaces =>
       if 20 <? fold_right (fun s acc => dofs s + acc) 0 spaces
       then None else Some (map (fun _ => 2%Q) spaces);
     project := fun _ v => (v / 2)%Q;
     refine := raise_order |}.

(** A power iteration that returns the given numbers, one per group. *)
Definition power_iteration (vals : list Q) :
    unit -> list space -> list mesh_function -> Q ->
    option (list mesh_function) :=
  fun _ spaces _ _ => Some (combine spaces vals).

(** A time-step controller that counts the steps and stops after three. *)
Definition begin_step (p : Z) : Z := p + 1.
Definition get_timestep_number (p : Z) : Z := p.
Definition timestep (p : Z) : Q := 1 # 20.
Definition end_step (p : Z) (new old : list mesh_function) : Z := p.
Definition has_next (p : Z) : bool := p <? 3.

(** The calls of the previous generation of the library that seepage
    makes, read from a script in the same way. *)
Definition construct_refined_space (s : space) : space :=
  {| level := level s + 1; order := order s + 1 |}.
Definition project_to_vector (s : space) (f : mesh_function) : list Q :=
  [snd f].
Definition solve_newton (sc : Script) :
    unit -> Q -> list Q -> space -> option (list Q) :=
  fun _ _ _ s => solve sc [s].
Definition calc_err_est (s : space) (coarse fine : mesh_function)
    : Q * list Q :=
  (sum_Q (errors [coarse] [fine]), errors [coarse] [fine]).
Definition adapt_strategy (sc : Script) :
    CandList -> Q -> Q -> Z -> Z -> list Q -> space -> bool * space :=
  fun _ _ _ _ _ _ s => refine sc s.

Definition coarse0 : space := {| level := 2; order := 1 |}.
Definition zero_on (s : space) : mesh_function := (s, 0%Q).
Definition const_on (s : space) (v : Q) : mesh_function := (s, v).

End Toy.

(** ** The stopping policy as the specification words it

    "StoppingPolicy evaluates total_error_estimate < ERR_STOP OR
    total_dof >= NDOF_STOP OR step_count >= MAX_ADAPT_STEPS; any true => DONE."
    This definition follows the specification, not a driver; the theorems
    compare the drivers with it. *)
Definition StoppingPolicy (ERR_STOP : Q) (NDOF_STOP MAX_ADAPT_STEPS : Z)
    (total_error_estimate : Q) (total_dof step_count : Z) : bool :=
  Qltb total_error_estimate ERR_STOP
  || Zgeb total_dof NDOF_STOP
  || Zgeb step_count MAX_ADAPT_STEPS.

(** "Total error is the sum over elements, square-rooted and normalized ...
    for reporting as a percentage": [percent] is one hundred times the
    square root of the normalized total [total_squared].  Again the words
    of the specification. *)
Definition percent_of_root (percent total_squared : Q) : Prop :=
  (0 <= percent)%Q /\ (percent * percent == 100 * 100 * total_squared)%Q.

(** Modelled from the spec: [Adapt::adapt] is code of the Hermes library,
    which the repository does not contain.  The specification says of the
    refinement it applies that "candidates only add DOFs, never remove,
    within one loop run": the space (the spaces taken together) that
    [adapt] returns holds at least as many unknowns as the one it was
    given. *)
Definition adapt_only_adds_dofs `{Hermes} : Prop :=
  forall th cl ec sp,
    get_num_dofs sp <= get_num_dofs (snd (adapt th cl ec sp)).

Definition adapt_multi_only_adds_dofs `{Hermes} : Prop :=
  forall th cl ec sps,
    Neutronics.ndof_coarse sps
      <= Neutronics.ndof_coarse (snd (adapt_multi th cl ec sps)).

(** C2 as the specification words it, read on one pass of the 4-group body
    from [s] to [s']: when the policy holds at the stop check the loop is
    done and nothing is refined; when it does not, the coarse spaces are
    refined. *)
Definition stop_check_as_specified `{Hermes} (h1 : ErrorCalculator)
    (s s' : Neutronics.State) : Prop :=
  if StoppingPolicy Neutronics.ERR_STOP Neutronics.NDOF_STOP
       Neutronics.MAX_ADAPT_NUM (Neutronics.l2_err_est s')
       (Neutronics.ndof_coarse (Neutronics.spaces s)) (Neutronics.as_ s)
  then Neutronics.done s' = true /\ Neutronics.spaces s' = Neutronics.spaces s
  else Neutronics.spaces s' =
       snd (adapt_multi Neutronics.THRESHOLD Neutronics.CAND_LIST
              (calculate_errors h1 (Neutronics.coarse_solutions s)
                 (Neutronics.fine_solutions s') true)
              (Neutronics.spaces s)).

(** ** Concrete runs *)

Module Runs.

(** lshape on a library whose refinement has stalled: the exact solution is
    2, every computed solution is 1 (an exact error of 25 percent), and the
    refinement changes nothing and never reports done. *)
Definition lshape_stalled : Lshape.State (H := Toy.lib Toy.stalled) :=
  Lshape.initial (H := Toy.lib Toy.stalled)
    Toy.coarse0 (Toy.zero_on Toy.coarse0) [].

Definition lshape_stalled_loop (fuel : nat) :=
  Lshape.adaptivity_loop (H := Toy.lib Toy.stalled)
    tt (Toy.const_on Toy.coarse0 2) fuel lshape_stalled.

(** 4-group neutronics on coarse spaces that already hold more than
    NDOF_STOP unknowns (four spaces of [2^15 - 1] each); the fine solutions
    of the groups are 1, 2, 1, 1 and the coarse ones 1. *)
Definition big : Toy.space := {| Toy.level := 15; Toy.order := 1 |}.

Definition neutronics_state (spaces0 : list Toy.space) (as0 : Z)
    : Neutronics.State (H := Toy.lib Toy.steady) :=
  @Neutronics.mkState (Toy.lib Toy.steady)
    spaces0
    (map (fun s => Toy.const_on s 1) spaces0)
    []
    (map (fun s => Toy.const_on s 1) spaces0)
    [] [] 0%Q 0%Q as0 false.

Definition neutronics_step_with (fine : list Q) (spaces0 : list Toy.space)
    (as0 : Z) :=
  Neutronics.adaptivity_step (H := Toy.lib Toy.steady)
    tt (Toy.power_iteration fine) [] []
    (neutronics_state spaces0 as0).

Definition neutronics_step_from : list Toy.space -> Z ->
    Flow (Neutronics.State (H := Toy.lib Toy.steady)) :=
  neutronics_step_with [1; 2; 1; 1]%Q.

Definition small4 : list Toy.space :=
  [Toy.coarse0; Toy.coarse0; Toy.coarse0; Toy.coarse0].

(** 1d/layer-boundary on the lossy library: the reference solution is 2,
    the coarse solution 1. *)
Definition layer_state (space0 : Toy.space)
    : LayerBoundary1D.State (H := Toy.lib Toy.lossy) :=
  LayerBoundary1D.initial (H := Toy.lib Toy.lossy)
    space0 (Toy.zero_on space0) [].

Definition layer_step (exact : Q) (space0 : Toy.space) :=
  LayerBoundary1D.adaptivity_step (H := Toy.lib Toy.lossy)
    tt (Toy.const_on Toy.coarse0 exact) (layer_state space0).

Definition layer_loop (exact : Q) (fuel : nat) :=
  LayerBoundary1D.adaptivity_loop (H := Toy.lib Toy.lossy)
    tt (Toy.const_on Toy.coarse0 exact) fuel (layer_state Toy.coarse0).

(** 1d/layer-boundary on the fragile library, exact solution 3. *)
Definition fragile_layer_state (space0 : Toy.space)
    : LayerBoundary1D.State (H := Toy.lib Toy.fragile) :=
  LayerBoundary1D.initial (H := Toy.lib Toy.fragile)
    space0 (Toy.zero_on space0) [].

(** nernst-planck, two spaces, previous time level 1 on each; the
    controller is at step [p]. *)
Definition nernst_state (sc : Toy.Script) (spaces0 : list Toy.space) (p : Z)
    : NernstPlanck.State (H := Toy.lib sc) (Pid := Z) :=
  @NernstPlanck.mkState (Toy.lib sc) Z
    spaces0
    (map Toy.zero_on spaces0)
    (map Toy.zero_on spaces0)
    (map (fun s => Toy.const_on s 1) spaces0)
    p [] 0%Q 1 false.

Definition nernst_time_step (sc : Toy.Script) (fuel : nat)
    (s : NernstPlanck.State (H := Toy.lib sc) (Pid := Z)) :=
  NernstPlanck.time_step (H := Toy.lib sc) tt 0
    Toy.begin_step Toy.get_timestep_number Toy.timestep Toy.end_step fuel s.

(** wall-on-fire with an embedded Butcher table and fixed time step, at
    time step [ts0]; the previous time level is 1 on the coarse space. *)
Definition wall_state (sc : Toy.Script) (space0 : Toy.space) (ts0 : Z)
    : WallOnFire.State (H := Toy.lib sc) :=
  @WallOnFire.mkState (Toy.lib sc)
    space0 (Toy.const_on space0 1) (Toy.zero_on space0) (Toy.zero_on space0)
    20%Q 0%Q ts0 (Toy.dofs space0) [] 0%Q 1 false.

Definition wall_step (sc : Toy.Script)
    (s : WallOnFire.State (H := Toy.lib sc)) :=
  WallOnFire.adaptivity_step (H := Toy.lib sc) tt true false s.

Definition wall_loop (sc : Toy.Script) (fuel : nat)
    (s : WallOnFire.State (H := Toy.lib sc)) :=
  WallOnFire.adaptivity_loop (H := Toy.lib sc) tt true false fuel s.

Definition fragile_layer_loop (fuel : nat) :=
  LayerBoundary1D.adaptivity_loop (H := Toy.lib Toy.fragile)
    tt (Toy.const_on Toy.coarse0 3) fuel (fragile_layer_state Toy.coarse0).

Definition pair0 : list Toy.space := [Toy.coarse0; Toy.coarse0].

(** 1d/system on the lossy library. *)
Definition system_state (spaces0 : list Toy.space)
    : System1D.State (H := Toy.lib Toy.lossy) :=
  System1D.initial (H := Toy.lib Toy.lossy)
    spaces0 (map Toy.zero_on spaces0) (map Toy.zero_on spaces0) [].

Definition system_step (exact : list Q) (spaces0 : list Toy.space) :=
  System1D.adaptivity_step (H := Toy.lib Toy.lossy)
    tt (combine spaces0 exact) (system_state spaces0).

(** seepage at time step [ts0], with TAU = 1. *)
Definition seepage_state (sc : Toy.Script) (space0 : Toy.space) (ts0 : Z)
    : Seepage.State (H := Toy.lib sc) :=
  @Seepage.mkState (Toy.lib sc)
    space0 (Toy.zero_on space0) (Toy.zero_on space0) (Toy.const_on space0 1)
    0%Q ts0 (Toy.dofs space0) 0%Q 1 false.

Definition seepage_time_step (sc : Toy.Script) (fuel : nat)
    (s : Seepage.State (H := Toy.lib sc)) :=
  Seepage.time_step_body (H := Toy.lib sc) tt 0 1%Q
    Toy.construct_refined_space Toy.project_to_vector (Toy.solve_newton sc)
    Toy.calc_err_est (Toy.adapt_strategy sc)
    Seepage.UNREF_FREQ Seepage.UNREF_METHOD fuel s.

Definition wall_time_step (sc : Toy.Script) (fuel : nat)
    (s : WallOnFire.State (H := Toy.lib sc)) :=
  WallOnFire.time_step_body (H := Toy.lib sc) tt 0 true false
    WallOnFire.UNREF_FREQ WallOnFire.UNREF_METHOD fuel s.

(** A coarse space that earlier time steps have refined: 8 elements of
    order 2, 15 unknowns. *)
Definition refined : Toy.space := {| Toy.level := 3; Toy.order := 2 |}.

(** A coarse space of 1023 unknowns. *)
Definition wide : Toy.space := {| Toy.level := 10; Toy.order := 1 |}.

End Runs.

(** ** More comparisons on doubles *)

(** [a <= b], [a >= b] and [a > b]. *)
Definition Qleb (a b : Q) : bool := Qle_bool a b.
Definition Qgeb (a b : Q) : bool := Qle_bool b a.
Definition Qgtb (a b : Q) : bool := Qltb b a.

(** ** 2d-advanced/richards/seepage-adapt/main.cpp: problem data *)

Module SeepageData.

Local Open Scope Q_scope.

(** Lines 79-83.  [Q_MAX_VALUE] is a global the driver never writes;
    STARTUP_TIME and TIME are globals of the example's definitions.h. *)
Definition Q_MAX_VALUE : Q := 7 # 100.

Definition q_function (q_max STARTUP_TIME TIME : Q) : Q :=
  if Qgtb STARTUP_TIME TIME then q_max * TIME / STARTUP_TIME
  else q_max.

(** Lines 88-106: the material of a point. *)
Definition is_in_mat_1 (x y : Q) : bool :=
  if Qgeb y (-1 # 2) then true else false.

Definition is_in_mat_2 (x y : Q) : bool :=
  if Qgeb y (-1) && Qltb y (-1 # 2) then true else false.

Definition is_in_mat_4 (x y : Q) : bool :=
  if Qgeb x 1 && Qleb x 3 && Qgeb y (-5 # 2) && Qltb y (-3 # 2)
  then true else false.

Definition is_in_mat_3 (x y : Q) : bool :=
  if negb (is_in_mat_1 x y) && negb (is_in_mat_2 x y)
     && negb (is_in_mat_4 x y)
  then true else false.

(** Lines 115-119: the initial condition; value, [dx] and [dy].  H_INIT is
    a global of definitions.h. *)
Definition init_cond (H_INIT x y : Q) : Q * Q * Q :=
  (- y + H_INIT, 0, -1).

(** Lines 122-126: the essential boundary values.  H_ELEVATION is a global
    of definitions.h. *)
Definition essential_bc_values (STARTUP_TIME H_INIT H_ELEVATION : Q)
    (x y time : Q) : Q :=
  if Qgtb STARTUP_TIME time
  then - y + H_INIT + time / STARTUP_TIME * H_ELEVATION
  else - y + H_INIT + H_ELEVATION.

End SeepageData.

(** ** 2d-advanced/nernst-planck/poisson-timedep-adapt/main.cpp: scaling *)

Module NernstPlanckScaling.

Local Open Scope Q_scope.

(** Lines 54-83.  [lambda] is a square root, computed by the library; it
    is a parameter of the functions below, as is the global [SCALED], which
    is not [const]. *)
Definition D : Q := 10 # 100000000000.
Definition R : Q := 831 # 100.
Definition T : Q := 293.
Definition F : Q := 964853415 # 10000.
Definition eps : Q := 25 # 1000.
Definition C0 : Q := 1200.
Definition l : Q := 200 # 1000000.
Definition VOLTAGE : Q := 1.
Definition SCALED_VOLTAGE : Q := VOLTAGE * F / (R * T).

Section Scaling.
Variables (SCALED : bool) (lambda : Q).

(** Lines 138-160. *)
Definition scaleTime (t : Q) : Q :=
  if SCALED then t * D / (lambda * l) else t.

Definition scaleVoltage (phi : Q) : Q :=
  if SCALED then phi * F / (R * T) else phi.

Definition scaleConc (C : Q) : Q :=
  if SCALED then C / C0 else C.

Definition physTime (t : Q) : Q :=
  if SCALED then lambda * l * t / D else t.

Definition physConc (C : Q) : Q :=
  if SCALED then C0 * C else C.

Definition physVoltage (phi : Q) : Q :=
  if SCALED then phi * R * T / F else phi.
End Scaling.

End NernstPlanckScaling.

(** ** Forms and closed-form functions

    The functions below call [atan] and [sqrt]; there a [double] is
    modelled by the real number it denotes. *)

(** [for (int i = 0; i < n; i++) body], on the variables [body] updates. *)
Definition for_loop {A : Type} (n : Z) (body : nat -> A -> A) (init : A) : A :=
  fold_left (fun acc i => body i acc) (seq 0 (Z.to_nat n)) init.

(** What the library hands to a form: the values of a function and of its
    derivatives at the integration points, the coordinates of the points,
    and the geometry of the problem. *)
Module Quadrature.
Record Func : Type := mkFunc {
  val : nat -> R;
  dx : nat -> R;
  dy : nat -> R;
  laplace : nat -> R
}.
Record Geom : Type := mkGeom { x : nat -> R; y : nat -> R }.
Inductive GeomType : Type := HERMES_PLANAR | HERMES_AXISYM_X | HERMES_AXISYM_Y.
End Quadrature.

(** ** 1d/moving-front/definitions.cpp *)

Module MovingFront.

Local Open Scope R_scope.

Section Members.
(* the members [x0], [x1], [s], [c] the constructors set, and the constant
   M_PI of math.h *)
Variables (x0 x1 s c : R).
Variable M_PI : R.

(** Lines 3-9: [CustomExactSolution::value]; [t] is [*t_ptr]. *)
Definition CustomExactSolution_value (t x y : R) : R :=
  (x - x0) * (x - x1) * atan t * (M_PI / 2 - atan (s * (x - t))) / c.

(** Lines 11-18: [CustomExactSolution::derivatives], the pair [(dx, dy)]. *)
Definition CustomExactSolution_derivatives (t x y : R) : R * R :=
  (- s * (x - x0) * (x - x1) * atan t / (c * (s ^ 2 * (- t + x) ^ 2 + 1))
   + (x - x0) * (- atan (s * (- t + x)) + M_PI / 2) * atan t / c
   + (x - x1) * (- atan (s * (- t + x)) + M_PI / 2) * atan t / c,
   0).

(** Lines 25-34: [CustomFunction::value]. *)
Definition CustomFunction_value (x y t : R) : R :=
  let f :=
    - s ^ 3 * (- 2 * t + 2 * x) * (x - x0) * (x - x1) * atan t
        / (c * (s ^ 2 * (- t + x) ^ 2 + 1) ^ 2)
    + s * (x - x0) * (x - x1) * atan t / (c * (s ^ 2 * (- t + x) ^ 2 + 1))
    + 2 * s * (x - x0) * atan t / (c * (s ^ 2 * (- t + x) ^ 2 + 1))
    + 2 * s * (x - x1) * atan t / (c * (s ^ 2 * (- t + x) ^ 2 + 1))
    - 2 * (- atan (s * (- t + x)) + M_PI / 2) * atan t / c
    + (x - x0) * (x - x1) * (- atan (s * (- t + x)) + M_PI / 2)
        / (c * (t ^ 2 + 1)) in
  - f.

(** Lines 65-87: [CustomVectorFormVol::value]; [coeff] is the
    [CustomFunction] above and [current_stage_time] what
    [get_current_stage_time()] returns. *)
Definition CustomVectorFormVol_value (gt : Quadrature.GeomType)
    (current_stage_time : R) (n : Z) (wt : nat -> R) (v : Quadrature.Func)
    (e : Quadrature.Geom) : R :=
  match gt with
  | Quadrature.HERMES_PLANAR =>
      for_loop n
        (fun i result =>
           result
           + wt i
             * CustomFunction_value (Quadrature.x e i) (Quadrature.y e i)
                 current_stage_time
             * Quadrature.val v i) 0
  | Quadrature.HERMES_AXISYM_X =>
      for_loop n
        (fun i result =>
           result
           + wt i * Quadrature.y e i
             * CustomFunction_value (Quadrature.x e i) (Quadrature.y e i)
                 current_stage_time
             * Quadrature.val v i) 0
  | Quadrature.HERMES_AXISYM_Y =>
      for_loop n
        (fun i result =>
           result
           + wt i * Quadrature.x e i
             * CustomFunction_value (Quadrature.x e i) (Quadrature.y e i)
                 current_stage_time
             * Quadrature.val v i) 0
  end.

(** Lines 136-143: [ZeroInitialCondition]. *)
Definition ZeroInitialCondition_value (x y : R) : R := 0.
Definition ZeroInitialCondition_derivatives (x y : R) : R * R := (0, 0).
End Members.

End MovingFront.

(** ** 2d-advanced/advection-diffusion-reaction/linear/definitions.cpp *)

Module AdvectionDiffusion.

Local Open Scope R_scope.

Section MatrixFormVolAdvectionDiffusion.
(* the members of the form and of its weak form, and whether the library
   was built with H2D_SECOND_DERIVATIVES_ENABLED *)
Variables (b1 b2 epsilon : R).
Variables (stabilization_on shock_capturing_on : bool).
Variable H2D_SECOND_DERIVATIVES_ENABLED : bool.

(** Lines 9-40: [matrix_form<double, double>]; [h_e] is what
    [e->get_diam_approximation(n)] returns. *)
Definition matrix_form (n : Z) (wt : nat -> R) (u v : Quadrature.Func)
    (h_e : R) : R :=
  let s_c := 9 / 10 in
  for_loop n
    (fun i result =>
       let result1 :=
         result
         + wt i * (epsilon * (Quadrature.dx u i * Quadrature.dx v i
                              + Quadrature.dy u i * Quadrature.dy v i)
                   - (b1 * Quadrature.val u i * Quadrature.dx v i
                      + b2 * Quadrature.val u i * Quadrature.dy v i)) in
       let result2 :=
         if shock_capturing_on then
           let R_squared :=
             (b1 * Quadrature.dx u i + b2 * Quadrature.dy u i) ^ 2 in
           let R := sqrt R_squared in
           result1
           + wt i * s_c * (1 / 2) * h_e * R
             * (Quadrature.dx u i * Quadrature.dx v i
                + Quadrature.dy u i * Quadrature.dy v i)
             / (sqrt (Quadrature.dx u i ^ 2 + Quadrature.dy u i ^ 2)
                + 1 / 10 ^ 8)
         else result1 in
       if H2D_SECOND_DERIVATIVES_ENABLED && stabilization_on then
         let b_norm := sqrt (b1 * b1 + b2 * b2) in
         let tau :=
           1 / sqrt (9 * (4 * epsilon / h_e ^ 2) ^ 2
                     + (2 * b_norm / h_e) ^ 2) in
         result2
         + wt i * tau
           * (- b1 * Quadrature.dx v i - b2 * Quadrature.dy v i
              + epsilon * Quadrature.laplace v i)
           * (- b1 * Quadrature.dx u i - b2 * Quadrature.dy u i
              + epsilon * Quadrature.laplace u i)
       else result2) 0.
End MatrixFormVolAdvectionDiffusion.

End AdvectionDiffusion.

(** ** 2d-advanced/euler/euler-time-loop.cpp: the Kuzmin limiter *)

Module EulerKuzmin.

Local Open Scope Q_scope.

(** A [double*]: the entry at every index.  [store a i v] is [a[i] = v]. *)
Definition array : Type := Z -> Q.

Definition store (a : array) (i : Z) (v : Q) : array :=
  fun j => if (j =? i)%Z then v else a j.

(** [AsmList<double>]: [al.dof[k]]. *)
Record AsmList : Type := mkAsmList { dof : nat -> Z }.

(** Lines 99-103, the body of the first element loop.  [sol] is
    [limiter.get_solution_vector()]; the density vector is [sol] itself and
    the conservative vector of a component is [sol + component * ndof], that
    is [sol] read at [offset + i]. *)
Definition real_vector_step (sol : array) (offset : Z) (real_vector : array)
    (al : AsmList) : array :=
  let real_vector :=
    store real_vector (dof al 0)
      (sol (offset + dof al 0)%Z / sol (dof al 0)) in
  let real_vector :=
    store real_vector (dof al 1)
      ((sol (offset + dof al 1)%Z
        - real_vector (dof al 0) * sol (dof al 1))
       / sol (dof al 0)) in
  store real_vector (dof al 2)
    ((sol (offset + dof al 2)%Z
      - real_vector (dof al 0) * sol (dof al 2))
     / sol (dof al 0)).

(** Lines 94-104.  [els] holds the assembly list of every active element of
    [spaces[0]], in the order of [for_all_active_elements]; [real_vector]
    starts as zeros. *)
Definition real_vector_of (sol : array) (offset : Z) (els : list AsmList)
    : array :=
  fold_left (real_vector_step sol offset) els (fun _ => 0).

(** Lines 112-118, the body of the second element loop: the writes go to
    [sol], which the reads of the density see. *)
Definition conservative_vector_step (offset : Z) (real_vector : array)
    (sol : array) (al : AsmList) : array :=
  let sol :=
    store sol (offset + dof al 1)%Z
      (sol (dof al 0) * real_vector (dof al 1)
       + sol (dof al 1) * real_vector (dof al 0)) in
  store sol (offset + dof al 2)%Z
    (sol (dof al 0) * real_vector (dof al 2)
     + sol (dof al 2) * real_vector (dof al 0)).

(** Lines 110-119. *)
Definition conservative_vector_of (sol : array) (offset : Z)
    (els : list AsmList) (real_vector : array) : array :=
  fold_left (conservative_vector_step offset real_vector) els sol.

(** Lines 93-119 for one component: to the real quantities, through the
    limiter of the library ([real_component_limiter]), and back. *)
Definition limit_component (limiter : array -> array) (sol : array)
    (component ndof : Z) (els : list AsmList) : array :=
  let offset := (component * ndof)%Z in
  conservative_vector_of sol offset els
    (limiter (real_vector_of sol offset els)).

(** All the indices the assembly lists hold. *)
Definition dofs_of (els : list AsmList) : list Z :=
  flat_map (fun al => [dof al 0; dof al 1; dof al 2]) els.

End EulerKuzmin.

(** ** More concrete runs *)

Module MoreRuns.

(** Refinement that adds at least one unknown to every space and never
    reports done: the mesh is kept (a level below 0 counts as 0) and the
    order, at least 1, is raised by one. *)
Definition grow (s : Toy.space) : bool * Toy.space :=
  (false, {| Toy.level := Z.max 0 (Toy.level s);
             Toy.order := Z.max 1 (Toy.order s) + 1 |}).

(** As [Toy.lossy], with that refinement. *)
Definition growing : Toy.Script :=
  {| Toy.solve := fun spaces => Some (map (fun _ => 2%Q) spaces);
     Toy.project := fun _ v => (v / 2)%Q;
     Toy.refine := grow |}.



(** 1d/system at its first pass. *)
Definition system_state (sc : Toy.Script) (spaces0 : list Toy.space)
    : System1D.State (H := Toy.lib sc) :=
  System1D.initial (H := Toy.lib sc)
    spaces0 (map Toy.zero_on spaces0) (map Toy.zero_on spaces0) [].

Definition system_step (sc : Toy.Script) (spaces0 : list Toy.space) :=
  System1D.adaptivity_step (H := Toy.lib sc)
    tt (map (fun s => Toy.const_on s 2) spaces0) (system_state sc spaces0).


End MoreRuns.

(** ** 2d-advanced/heat-transfer/wall-on-fire-adapt/main.cpp: set-up *)

Module WallOnFireSetup.


End WallOnFireSetup.

(** ** 2d-advanced/euler/euler-time-loop.cpp *)

Module EulerTimeLoop.

(** The values of SHOCK_CAPTURING_TYPE the time loop tests for. *)
Inductive ShockCapturingType : Type := FEISTAUER | KUZMIN | KRIVODONOVA.

Definition is_type (a b : ShockCapturingType) : bool :=
  match a, b with
  | FEISTAUER, FEISTAUER | KUZMIN, KUZMIN | KRIVODONOVA, KRIVODONOVA => true
  | _, _ => false
  end.

(** [slns[i] = f] on a vector of solutions. *)
Fixpoint replace_nth {A : Type} (i : nat) (l : list A) (a : A) : list A :=
  match l, i with
  | [], _ => []
  | _ :: r, O => a :: r
  | x :: r, Datatypes.S j => x :: replace_nth j r a
  end.

(** How the [try] block of one time step ends: at its last statement, in
    its [catch] clause, or with an exception the clause does not catch. *)
Inductive TryResult (S : Type) : Type :=
| Completed (s : S)
| Caught (s : S)
| Escaped (msg : string) (s : S).

Arguments Completed {S} s.
Arguments Caught {S} s.
Arguments Escaped {S} msg s.

Section Loop.
Context `{Hermes}.
(* The file is included in the [main] of the Euler examples, which define
   these. *)
Variables (SHOCK_CAPTURING : bool) (SHOCK_CAPTURING_TYPE : ShockCapturingType).
Variables (P_INIT : Z) (TIME_INTERVAL_LENGTH : Q).
(* whether [assert] is compiled out *)
Variable NDEBUG : bool.
(* euler-init-main.cpp: the four spaces on the one mesh, and the space of
   the stabilization *)
Variables (space_rho space_rho_v_x space_rho_v_y space_e : Space).
Variables (space_stabilization : Space) (mesh : Mesh).
(* Calls of the library that the other drivers do not make. *)
(* mesh->get_num_active_elements() *)
Variable get_num_active_elements : Mesh -> Z.
(* for_all_active_elements(e, space->get_mesh()) with
   space->get_element_assembly_list(e, &al): [e->id] and [al] of every
   active element, in order *)
Variable active_elements : Space -> list (Z * EulerKuzmin.AsmList).
(* dp_stabilization.assemble(rhs_stabilization); the form reads prev_rho *)
Variable assemble_stabilization : list MeshFunction -> EulerKuzmin.array.
(* solver.solve(); solver.get_sln_vector().  The weak form reads the
   discrete indicator, the current time step and the previous solutions.
   [None]: it threw an exception derived from std::exception. *)
Variable solve :
  option (Z -> bool) -> Q -> list MeshFunction -> option Vector.
(* FluxLimiter(FluxLimiter::Krivodonova, vec, spaces):
   limit_according_to_detector(); get_limited_solutions(prev_slns) *)
Variable flux_limited_solutions : Vector -> list Space -> list MeshFunction.
(* PostProcessing::VertexBasedLimiter limiter(spaces, vec, P_INIT):
   limiter.get_solutions(prev_slns) and limiter.get_solution_vector() *)
Variable vertex_limited_solutions :
  list Space -> Vector -> Z -> list MeshFunction.
Variable vertex_limited_vector : list Space -> Vector -> Z -> EulerKuzmin.array.
(* VertexBasedLimiter(spaces[0], real_vector, P_INIT): get_solution();
   get_solution_vector() *)
Variable limit_real_vector :
  Space -> EulerKuzmin.array -> Z -> EulerKuzmin.array.
(* Solution<double>::vector_to_solution(vec + offset, space, sln) *)
Variable array_to_solution : EulerKuzmin.array -> Z -> Space -> MeshFunction.
(* CFL.calculate(prev_slns, mesh, time_step_n): the new [time_step_n] *)
Variable CFL_calculate : list MeshFunction -> Mesh -> Q -> Q.

Definition spaces : list Space :=
  [space_rho; space_rho_v_x; space_rho_v_y; space_e].

(** [spaces[component]]. *)
Definition space_at (component : Z) : Space :=
  if component =? 0 then space_rho
  else if component =? 1 then space_rho_v_x
  else if component =? 2 then space_rho_v_y
  else space_e.

(** [prev_slns] is [{prev_rho, prev_rho_v_x, prev_rho_v_y, prev_e}];
    [discreteIndicator] is the array the weak form holds, [None] while the
    pointer is null. *)
Record State : Type := mkState {
  prev_slns : list MeshFunction;
  t : Q;
  time_step_n : Q;
  iteration : Z;
  discreteIndicator : option (Z -> bool)
}.

Definition with_prev_slns (s : State) (p : list MeshFunction) : State :=
  {| prev_slns := p; t := t s; time_step_n := time_step_n s;
     iteration := iteration s; discreteIndicator := discreteIndicator s |}.

(** Lines 45-51: the elements whose stabilization right-hand side is at
    least 1 are flagged. *)
Definition flag_elements (rhs : EulerKuzmin.array)
    (els : list (Z * EulerKuzmin.AsmList)) (indicator : Z -> bool)
    : Z -> bool :=
  fold_left
    (fun ind e =>
       if Qgeb (rhs (EulerKuzmin.dof (snd e) 0)) 1
       then fun j => if j =? fst e then true else ind j
       else ind)
    els indicator.

(** Lines 34-52.  A failed [assert] aborts the program; it is reported as
    leaving [main] with 134. *)
Definition feistauer (s : State) : Flow State :=
  if SHOCK_CAPTURING && is_type SHOCK_CAPTURING_TYPE FEISTAUER then
    let mesh_size := get_num_dofs space_stabilization in
    if negb NDEBUG
       && negb (mesh_size
                =? get_num_active_elements (get_mesh space_stabilization))
    then Return 134 s
    else
      let rhs_stabilization := assemble_stabilization (prev_slns s) in
      let indicator :=
        match discreteIndicator s with
        | Some ind => ind
        | None => fun _ => false
        end in
      Normal {| prev_slns := prev_slns s; t := t s;
                time_step_n := time_step_n s; iteration := iteration s;
                discreteIndicator :=
                  Some (flag_elements rhs_stabilization
                          (active_elements space_stabilization) indicator) |}
  else Normal s.

(** Lines 88-122: the loop over the components 1, 2, 3, on the vector of
    the limiter and the solutions; [None] when a space has another number of
    unknowns than [spaces[0]], with the solutions as they are then. *)
Fixpoint limit_components (components : list Z) (ndof : Z)
    (sol : EulerKuzmin.array) (slns : list MeshFunction)
    : list MeshFunction * bool :=
  match components with
  | [] => (slns, true)
  | component :: rest =>
      if negb (get_num_dofs (space_at component) =? ndof) then (slns, false)
      else
        let sol' :=
          EulerKuzmin.limit_component
            (fun real_vector => limit_real_vector space_rho real_vector P_INIT)
            sol component ndof (map snd (active_elements space_rho)) in
        limit_components rest ndof sol'
          (replace_nth (Z.to_nat component) slns
             (array_to_solution sol' (component * ndof) space_rho))
  end.

(** Line 125 and the end of the [try] block. *)
Definition cfl (s : State) : TryResult State :=
  Completed {| prev_slns := prev_slns s; t := t s;
               time_step_n := CFL_calculate (prev_slns s) mesh (time_step_n s);
               iteration := iteration s;
               discreteIndicator := discreteIndicator s |}.

(** Lines 58-127.  The solver and the single-mesh check throw objects
    derived from std::exception, which the [catch] clause takes; line 78
    throws a pointer, which it does not. *)
Definition try_block (s : State) : TryResult State :=
  match solve (discreteIndicator s) (time_step_n s) (prev_slns s) with
  | None => Caught s
  | Some vec =>
      if negb SHOCK_CAPTURING || (P_INIT =? 0) then
        cfl (with_prev_slns s (vector_to_solutions vec spaces))
      else
        let s1 :=
          if is_type SHOCK_CAPTURING_TYPE KRIVODONOVA
          then with_prev_slns s (flux_limited_solutions vec spaces)
          else s in
        if is_type SHOCK_CAPTURING_TYPE KUZMIN && (0 <? P_INIT) then
          if negb (P_INIT =? 1) then Escaped "P_INIT must be <= 1." s1
          else
            let slns := vertex_limited_solutions spaces vec P_INIT in
            let ndof := get_num_dofs space_rho in
            let r :=
              limit_components [1; 2; 3] ndof
                (vertex_limited_vector spaces vec P_INIT) slns in
            if snd r then cfl (with_prev_slns s1 (fst r))
            else Caught (with_prev_slns s1 (fst r))
        else cfl s1
  end.

(** Lines 30-159: the body of the [for] loop and its [t += time_step_n]. *)
Definition time_step (s : State) : Flow State :=
  let s0 := {| prev_slns := prev_slns s; t := t s;
               time_step_n := time_step_n s; iteration := iteration s + 1;
               discreteIndicator := discreteIndicator s |} in
  match feistauer s0 with
  | Normal s1 =>
      let advance s2 :=
        Normal {| prev_slns := prev_slns s2; t := (t s2 + time_step_n s2)%Q;
                  time_step_n := time_step_n s2; iteration := iteration s2;
                  discreteIndicator := discreteIndicator s2 |} in
      match try_block s1 with
      | Completed s2 => advance s2
      | Caught s2 => advance s2
      | Escaped msg s2 => Exception msg s2
      end
  | other => other
  end.

(** Lines 28-159:
    [for (double t = 0.0; t < TIME_INTERVAL_LENGTH; t += time_step_n)]. *)
Definition time_loop (fuel : nat) (s : State) : Outcome State :=
  while_do (fun s' => Qltb (t s') TIME_INTERVAL_LENGTH) time_step fuel s.
End Loop.

End EulerTimeLoop.

(** ** Reading the Euler time loop *)

Module EulerRun.

(** [wf_ptr->discreteIndicator[id]], false while the array is not
    allocated. *)
Definition flagged `{Hermes} (s : EulerTimeLoop.State) (id : Z) : bool :=
  match EulerTimeLoop.discreteIndicator s with
  | Some ind => ind id
  | None => false
  end.

(** The time loop on the small library: one space of three unknowns for
    every component, no active element listed, a solver that returns an
    empty vector, limiters that return what they are given, and a CFL
    condition that keeps the time step. *)
Definition time_loop (SHOCK_CAPTURING : bool)
    (SHOCK_CAPTURING_TYPE : EulerTimeLoop.ShockCapturingType) (P_INIT : Z)
    (fuel : nat) (s : EulerTimeLoop.State (H := Toy.lib Toy.steady)) :=
  EulerTimeLoop.time_loop (H := Toy.lib Toy.steady)
    SHOCK_CAPTURING SHOCK_CAPTURING_TYPE P_INIT 1%Q true
    Toy.coarse0 Toy.coarse0 Toy.coarse0 Toy.coarse0 Toy.coarse0 0
    (fun _ => 0) (fun _ => []) (fun _ _ => 0%Q)
    (fun _ _ _ => Some [])
    (fun _ sps => map Toy.zero_on sps)
    (fun sps _ _ => map Toy.zero_on sps)
    (fun _ _ _ _ => 0%Q)
    (fun _ a _ => a)
    (fun _ _ sp => Toy.zero_on sp)
    (fun _ _ dt => dt)
    fuel s.

Definition start : EulerTimeLoop.State (H := Toy.lib Toy.steady) :=
  @EulerTimeLoop.mkState (Toy.lib Toy.steady)
    (map Toy.zero_on [Toy.coarse0; Toy.coarse0; Toy.coarse0; Toy.coarse0])
    0%Q (1 # 2)%Q 0 None.

End EulerRun.

(** ** 2d-benchmarks-general/layer-interior/main.cpp *)

Module LayerInterior.

Definition P_INIT : Z := 2.
Definition THRESHOLD : Q := 6 # 10.
Definition CAND_LIST : CandList := H2D_HP_ANISO.
Definition ERR_STOP : Q := 1 # 100000.

Section Driver.
Context `{Hermes}.
Variables (wf : WeakForm) (exact_sln : MeshFunction).

Record State : Type := mkState {
  space : Space;
  sln : MeshFunction;
  errorCalculator : ErrorCalculator;
  err_exact_rel : Q;
  err_est_rel : Q;
  as_ : Z;
  done : bool
}.

(** Lines 104-189: the body of the [do] loop.  Nothing is caught inside
    the body: an exception of the solver or of the projection leaves it as
    the library threw it. *)
Definition adaptivity_step (s : State) : Flow State :=
  let ref_mesh := create_ref_mesh (get_mesh (space s)) in
  let ref_space := create_ref_space (space s) ref_mesh in
  match newton_solve wf [] [] [ref_space] [] with
  | None => Exception uncaught s
  | Some vec =>
      let ref_sln := vector_to_solution vec ref_space in
      match project_global (space s) ref_sln with
      | None => Exception uncaught s
      | Some sln' =>
          let ec1 :=
            calculate_errors (errorCalculator s) [sln'] [exact_sln] false in
          let err_exact_rel' := (get_total_error_squared ec1 * 100)%Q in
          let ec2 := calculate_errors ec1 [sln'] [ref_sln] true in
          let err_est_rel' := (get_total_error_squared ec2 * 100)%Q in
          let r :=
            if Qltb err_exact_rel' ERR_STOP
            then (true, space s)
            else adapt THRESHOLD CAND_LIST ec2 (space s) in
          Normal {| space := snd r;
                    sln := sln';
                    errorCalculator := ec2;
                    err_exact_rel := err_exact_rel';
                    err_est_rel := err_est_rel';
                    as_ := if fst r then as_ s else as_ s + 1;
                    done := fst r |}
      end
  end.

(** Lines 100-196: [int as = 1; bool done = false;
    try { do ... while (done == false); }
    catch (Hermes::Exceptions::Exception e)
    { e.print_msg(); throw Hermes::Exceptions::Exception("Newton's iteration failed."); }]. *)
Definition adaptivity_loop (fuel : nat) (s : State) : Outcome State :=
  match do_while adaptivity_step (fun s' => negb (done s')) fuel s with
  | Thrown _ s' => Thrown "Newton's iteration failed." s'
  | other => other
  end.

Definition initial (space0 : Space) (sln0 : MeshFunction)
    (ec0 : ErrorCalculator) : State :=
  {| space := space0; sln := sln0; errorCalculator := ec0;
     err_exact_rel := 0; err_est_rel := 0; as_ := 1; done := false |}.
End Driver.

End LayerInterior.

(** ** 2d-advanced/navier-stokes/circular-obstacle/main.cpp *)

Module CircularObstacle.

Definition STARTUP_TIME : Q := 1.
Definition TAU : Q := 1 # 10.
Definition T_FINAL : Q := 30000.

(** Line 152: [int num_time_steps = T_FINAL / TAU;]. *)
Definition num_time_steps : Z := int_of_double (T_FINAL / TAU).

Section Driver.
Context `{Hermes}.
(* the [NewtonSolver] object, which lives across the time steps, and the
   calls the driver makes on it *)
Context {Newton : Type}.
(* newton.solve(): the solver afterwards, and whether the call returned
   ([false]: it threw an exception of the library, which the handler takes).
   The weak form reads the previous velocities. *)
Variable solve : Newton -> list Space -> list MeshFunction -> Newton * bool.
(* newton.get_sln_vector() *)
Variable get_sln_vector : Newton -> Vector.
(* Space<double>::update_essential_bc_values(spaces, current_time) *)
Variable update_essential_bc_values : list Space -> Q -> list Space.

(** [spaces] is [{xvel_space, yvel_space, p_space}] and [prev_time] is
    [{xvel_prev_time, yvel_prev_time, p_prev_time}]. *)
Record State : Type := mkState {
  spaces : list Space;
  prev_time : list MeshFunction;
  newton : Newton;
  current_time : Q;
  ts : Z
}.

(** Lines 155-188: the body of the [for] loop, and its [ts++].  The
    exception of the solver is printed and nothing else. *)
Definition time_step (s : State) : Flow State :=
  let current_time' := (current_time s + TAU)%Q in
  let spaces' :=
    if Qleb current_time' STARTUP_TIME
    then update_essential_bc_values (spaces s) current_time'
    else spaces s in
  let newton' := fst (solve (newton s) spaces' (prev_time s)) in
  Normal {| spaces := spaces';
            prev_time := vector_to_solutions (get_sln_vector newton') spaces';
            newton := newton';
            current_time := current_time';
            ts := ts s + 1 |}.

(** Lines 153-189: [for (int ts = 1; ts <= num_time_steps; ts++)]. *)
Definition time_loop (fuel : nat) (s : State) : Outcome State :=
  while_do (fun s' => ts s' <=? num_time_steps) time_step fuel s.

(** Line 75, [double current_time = 0;], and [ts = 1]. *)
Definition initial (spaces0 : list Space) (prev_time0 : list MeshFunction)
    (newton0 : Newton) : State :=
  {| spaces := spaces0; prev_time := prev_time0; newton := newton0;
     current_time := 0; ts := 1 |}.
End Driver.

End CircularObstacle.

(** ** 2d-advanced/richards/seepage-adapt/main.cpp: the initial condition *)

Module SeepageInit.

Section Driver.
Context `{Hermes}.
(* This part of the driver, too, calls the previous generation of the
   library. *)
(* Space<double>::construct_refined_space(init_space) *)
Variable construct_refined_space : Space -> Space.
(* ref_sln.set_exact(mesh, init_cond) *)
Variable set_exact : Mesh -> MeshFunction.
(* Adapt(init_space).calc_err_est(sln_prev_time, &ref_sln) *)
Variable calc_err_est :
  Space -> MeshFunction -> MeshFunction -> Q * ErrorCalculator.
(* adaptivity.adapt(&selector, THRESHOLD, STRATEGY, MESH_REGULARITY,
     to_be_processed) *)
Variable adapt_strategy :
  CandList -> Q -> Q -> Z -> Z -> Q -> ErrorCalculator -> Space -> bool * Space.

Record State : Type := mkState {
  init_space : Space;
  sln_prev_time : MeshFunction;
  ref_sln : MeshFunction;
  err_est_rel : Q;
  as_ : Z;
  done : bool
}.

(** Lines 180-211: the body of the [do] loop. *)
Definition adaptivity_step (s : State) : Flow State :=
  let rspace := construct_refined_space (init_space s) in
  let ref_sln' := set_exact (get_mesh rspace) in
  match project_global (init_space s) ref_sln' with
  | None => Exception uncaught s
  | Some sln_prev_time' =>
      let est := calc_err_est (init_space s) sln_prev_time' ref_sln' in
      let err_est_rel' := (fst est * 100)%Q in
      let r :=
        if Qltb err_est_rel' Seepage.ERR_STOP
        then (true, init_space s)
        else
          let to_be_processed := 0%Q in
          let a := adapt_strategy Seepage.CAND_LIST Seepage.CONV_EXP
                     Seepage.THRESHOLD Seepage.STRATEGY
                     Seepage.MESH_REGULARITY to_be_processed (snd est)
                     (init_space s) in
          if Zgeb (get_num_dofs (snd a)) Seepage.NDOF_STOP
          then (true, snd a)
          else a in
      Normal {| init_space := snd r;
                sln_prev_time := sln_prev_time';
                ref_sln := ref_sln';
                err_est_rel := err_est_rel';
                as_ := as_ s + 1;
                done := fst r |}
  end.

(** Lines 178-212: [int as = 1; bool done = false;
    do ... while (done == false);]. *)
Definition adaptivity_loop (fuel : nat) (s : State) : Outcome State :=
  do_while adaptivity_step (fun s' => negb (done s')) fuel s.

Definition initial (init_space0 : Space) (sln_prev_time0 ref_sln0 : MeshFunction)
    : State :=
  {| init_space := init_space0; sln_prev_time := sln_prev_time0;
     ref_sln := ref_sln0; err_est_rel := 0; as_ := 1; done := false |}.
End Driver.

End SeepageInit.


(** * Properties *)

(** ** Comparisons *)

Lemma Qltb_true (a b : Q) : Qltb a b = true <-> (a < b)%Q.
Proof.
  unfold Qltb. rewrite negb_true_iff. split.
  - intros E. apply Qnot_le_lt. intros L.
    apply Qle_bool_iff in L. congruence.
  - intros L. destruct (Qle_bool b a) eqn:E; [|reflexivity].
    apply Qle_bool_iff in E. exfalso. exact (Qlt_not_le _ _ L E).
Qed.

Lemma Qltb_false (a b : Q) : Qltb a b = false <-> (b <= a)%Q.
Proof.
  unfold Qltb. rewrite negb_false_iff. apply Qle_bool_iff.
Qed.

Lemma Zgeb_true (a b : Z) : Zgeb a b = true <-> b <= a.
Proof. unfold Zgeb. apply Z.leb_le. Qed.

Lemma Zgeb_false (a b : Z) : Zgeb a b = false <-> a < b.
Proof. unfold Zgeb. apply Z.leb_gt. Qed.

(** ** Loops *)

Section Loops.
Context {S : Type} (body : S -> Flow S) (again : S -> bool).

(** Passes that succeed use up budget and nothing else. *)
Lemma do_while_passes (k n : nat) (s s' : S) :
  passes body again k s s' ->
  do_while body again (k + n) s = do_while body again n s'.
Proof.
  intros P. induction P as [s | k s s1 s' B A _ IH]; [reflexivity|].
  cbn [Nat.add do_while]. rewrite B, A. exact IH.
Qed.

(** An exception in the body ends the loop at once, in the state in which
    the body raised it. *)
Lemma do_while_exception (k fuel : nat) (s s' s'' : S) (msg : string) :
  passes body again k s s' ->
  body s' = Exception msg s'' ->
  (k < fuel)%nat ->
  do_while body again fuel s = Thrown msg s''.
Proof.
  intros P B L.
  replace fuel with (k + Datatypes.S (fuel - Datatypes.S k))%nat by lia.
  rewrite (do_while_passes _ _ _ _ P). cbn [do_while]. rewrite B. reflexivity.
Qed.

(** So does a [return] from [main]. *)
Lemma do_while_return (k fuel : nat) (s s' s'' : S) (code : Z) :
  passes body again k s s' ->
  body s' = Return code s'' ->
  (k < fuel)%nat ->
  do_while body again fuel s = Exited code s''.
Proof.
  intros P B L.
  replace fuel with (k + Datatypes.S (fuel - Datatypes.S k))%nat by lia.
  rewrite (do_while_passes _ _ _ _ P). cbn [do_while]. rewrite B. reflexivity.
Qed.

(** What every pass preserves holds along any number of passes. *)
Lemma passes_preserve (R : S -> S -> Prop) :
  (forall s, R s s) ->
  (forall s1 s2 s3, R s1 s2 -> R s2 s3 -> R s1 s3) ->
  (forall s s1, body s = Normal s1 -> R s s1) ->
  forall k s s', passes body again k s s' -> R s s'.
Proof.
  intros Rrefl Rtrans Rstep k s s' P.
  induction P as [s | k s s1 s' B _ _ IH]; [apply Rrefl|].
  exact (Rtrans _ _ _ (Rstep _ _ B) IH).
Qed.
End Loops.

(** ** Termination of the adaptivity loop *)

Section NeutronicsTermination.
Context `{Hermes}.
Variable wf : WeakForm.
Variable power_iteration :
  WeakForm -> list Space -> list MeshFunction -> Q -> option (list MeshFunction).
Variables (h1 l2 : ErrorCalculator).

Let step := Neutronics.adaptivity_step wf power_iteration h1 l2.
Let loop := Neutronics.adaptivity_loop wf power_iteration h1 l2.

(** A pass of the 4-group body increments [as] whatever else happens, and
    reports done once the incremented counter has reached MAX_ADAPT_NUM. *)
Lemma neutronics_step_counts (s s' : Neutronics.State) :
  step s = Normal s' ->
  Neutronics.as_ s' = Neutronics.as_ s + 1 /\
  (Neutronics.MAX_ADAPT_NUM <= Neutronics.as_ s + 1 ->
   Neutronics.done s' = true).
Proof.
  unfold step, Neutronics.adaptivity_step.
  destruct (power_iteration _ _ _ _); [|discriminate].
  intros E. injection E as <-. cbn. split; [reflexivity|].
  intros L. apply Zgeb_true in L. rewrite L. reflexivity.
Qed.

Lemma neutronics_step_flow (s : Neutronics.State) :
  (exists s', step s = Normal s') \/ (exists s', step s = Exception uncaught s').
Proof.
  unfold step, Neutronics.adaptivity_step.
  destruct (power_iteration _ _ _ _); eauto.
Qed.

(** With [n + 1] passes in hand and at most [n] increments left before the
    ceiling, the loop stops. *)
Lemma neutronics_loop_stops (n : nat) :
  forall s, Neutronics.MAX_ADAPT_NUM - 1 - Neutronics.as_ s <= Z.of_nat n ->
            stopped (loop (Datatypes.S n) s) = true.
Proof.
  unfold loop, Neutronics.adaptivity_loop.
  induction n as [|n IH]; intros s L.
  - cbn [do_while]. destruct (neutronics_step_flow s) as [[s' E]|[s' E]];
      fold step; rewrite E; [|reflexivity].
    destruct (neutronics_step_counts _ _ E) as [_ D].
    rewrite D; [reflexivity|]. change (Z.of_nat 0) with 0 in L. lia.
  - cbn [do_while]. destruct (neutronics_step_flow s) as [[s' E]|[s' E]];
      fold step; rewrite E; [|reflexivity].
    destruct (Neutronics.done s') eqn:Dn; [reflexivity|]. cbn [negb].
    apply IH. destruct (neutronics_step_counts _ _ E) as [A _]. lia.
Qed.
End NeutronicsTermination.

(** C1, as amended.  Only the 4-group neutronics driver has an iteration
    ceiling.  Its loop, started with [as = 1], stops within
    [MAX_ADAPT_NUM - 1] passes whatever the library does: the counter is
    incremented and tested against MAX_ADAPT_NUM at the end of every pass,
    also when the error criterion has not been met. *)
Theorem neutronics_loop_stops_within_ceiling :
  forall (H : Hermes) (wf : WeakForm)
         (power_iteration : WeakForm -> list Space -> list MeshFunction -> Q ->
                            option (list MeshFunction))
         (h1 l2 : ErrorCalculator) (spaces0 : list Space)
         (coarse0 fine0 iterates0 : list MeshFunction),
    stopped (Neutronics.adaptivity_loop wf power_iteration h1 l2
               (Z.to_nat (Neutronics.MAX_ADAPT_NUM - 1))
               (Neutronics.initial spaces0 coarse0 fine0 iterates0)) = true.
Proof.
  intros. change (Z.to_nat (Neutronics.MAX_ADAPT_NUM - 1)) with 29%nat.
  apply neutronics_loop_stops. cbn. lia.
Qed.

(** Every pass of lshape on the stalled library ends with [done] still
    false, so the loop goes on. *)
Lemma lshape_stalled_goes_on (fuel : nat) :
  forall s : Lshape.State (H := Toy.lib Toy.stalled),
    stopped (Lshape.adaptivity_loop (H := Toy.lib Toy.stalled)
               tt (Toy.const_on Toy.coarse0 2) fuel s) = false.
Proof.
  unfold Lshape.adaptivity_loop.
  induction fuel as [|n IH]; intros s; [reflexivity|].
  cbn [do_while]. exact (IH _).
Qed.

(** C1, counterexample.  The lshape loop has no iteration ceiling: on a
    library whose exact error stays at 25 percent and whose refinement
    neither changes the space nor reports done, no number of passes ends
    it. *)
Lemma lshape_loop_need_not_stop :
  ~ exists fuel : nat, stopped (Runs.lshape_stalled_loop fuel) = true.
Proof.
  intros [fuel E]. unfold Runs.lshape_stalled_loop in E.
  rewrite lshape_stalled_goes_on in E. discriminate.
Qed.

(** ** The stop check *)

(** C2, counterexample.  In the 4-group driver the DOF ceiling is tested
    after the refinement, not at the stop check: started on coarse spaces
    that already hold more than NDOF_STOP unknowns and with an error
    estimate above ERR_STOP, the pass refines the spaces although the policy
    of the specification holds. *)
Lemma neutronics_refines_above_dof_ceiling :
  exists s' : Neutronics.State (H := Toy.lib Toy.steady),
    Runs.neutronics_step_from [Runs.big; Runs.big; Runs.big; Runs.big] 1
      = Normal s' /\
    ~ stop_check_as_specified (H := Toy.lib Toy.steady) []
        (Runs.neutronics_state [Runs.big; Runs.big; Runs.big; Runs.big] 1) s'.
Proof.
  eexists. split; [reflexivity|].
  unfold stop_check_as_specified. intros C. lazy in C.
  destruct C as [_ E]. discriminate E.
Qed.

(** C2, as amended.  The drivers do not evaluate one three-way test before
    refining.  In the 4-group driver a pass that finds the total L2 estimate
    below ERR_STOP is done and refines nothing; every other pass refines,
    and is done exactly when the refinement reports done, or the refined
    spaces hold at least NDOF_STOP unknowns, or the incremented counter has
    reached MAX_ADAPT_NUM.  In 1d/layer-boundary, which has no iteration
    ceiling, a pass that finds at least NDOF_STOP unknowns in the coarse
    space is done and refines nothing. *)
Theorem stop_check_of_the_drivers :
  (forall (H : Hermes) (wf : WeakForm)
          (power_iteration : WeakForm -> list Space -> list MeshFunction ->
                             Q -> option (list MeshFunction))
          (h1 l2 : ErrorCalculator) (s s' : Neutronics.State),
      Neutronics.adaptivity_step wf power_iteration h1 l2 s = Normal s' ->
      let refined :=
        adapt_multi Neutronics.THRESHOLD Neutronics.CAND_LIST
          (calculate_errors h1 (Neutronics.coarse_solutions s)
             (Neutronics.fine_solutions s') true)
          (Neutronics.spaces s) in
      Neutronics.as_ s' = Neutronics.as_ s + 1 /\
      (Qltb (Neutronics.l2_err_est s') Neutronics.ERR_STOP = true ->
       Neutronics.done s' = true /\
       Neutronics.spaces s' = Neutronics.spaces s) /\
      (Qltb (Neutronics.l2_err_est s') Neutronics.ERR_STOP = false ->
       Neutronics.spaces s' = snd refined /\
       Neutronics.done s' =
         fst refined
         || Zgeb (Neutronics.ndof_coarse (snd refined)) Neutronics.NDOF_STOP
         || Zgeb (Neutronics.as_ s + 1) Neutronics.MAX_ADAPT_NUM))
  /\
  (forall (H : Hermes) (wf : WeakForm) (exact_sln : MeshFunction)
          (s s' : LayerBoundary1D.State),
      LayerBoundary1D.adaptivity_step wf exact_sln s = Normal s' ->
      Zgeb (get_num_dofs (LayerBoundary1D.space s)) LayerBoundary1D.NDOF_STOP
        = true ->
      LayerBoundary1D.done s' = true /\
      LayerBoundary1D.space s' = LayerBoundary1D.space s).
Proof.
  split.
  - intros H wf power_iteration h1 l2 s s'.
    unfold Neutronics.adaptivity_step.
    destruct (power_iteration _ _ _ _) as [its|]; [|discriminate].
    intros E. injection E as <-. cbn -[Neutronics.ndof_coarse Zgeb Qltb].
    split; [reflexivity|]. split.
    + intros C. rewrite C. cbn. split; [|reflexivity].
      destruct (Zgeb _ _); reflexivity.
    + intros C. rewrite C.
      destruct (adapt_multi _ _ _ _) as [d sp].
      cbn -[Neutronics.ndof_coarse Zgeb Qltb].
      destruct (Zgeb (Neutronics.ndof_coarse sp) Neutronics.NDOF_STOP); cbn;
        destruct (Zgeb (Neutronics.as_ s + 1) Neutronics.MAX_ADAPT_NUM); cbn;
        rewrite ?orb_true_r, ?orb_false_r; auto.
  - intros H wf exact_sln s s'.
    unfold LayerBoundary1D.adaptivity_step.
    destruct (newton_solve _ _ _ _ _) as [vec|]; [|discriminate].
    destruct (project_global _ _) as [sln'|]; [|discriminate].
    intros E N. injection E as <-. cbn. rewrite N, orb_true_r.
    split; reflexivity.
Qed.

(** The amended stop check at work: a 4-group pass with the estimate above
    ERR_STOP at [as = 29] refines and is done by the step ceiling; a pass
    whose estimate is zero is done and refines nothing; a 1d/layer-boundary
    pass on 1023 unknowns is done and refines nothing. *)
Lemma stop_check_of_the_drivers_witness :
  (exists s', Runs.neutronics_step_from Runs.small4 29 = Normal s' /\
              Neutronics.as_ s' = 30 /\
              Neutronics.spaces s' = map (fun s => snd (Toy.raise_order s))
                                       Runs.small4 /\
              Neutronics.done s' = true) /\
  (exists s', Runs.neutronics_step_with [1; 1; 1; 1]%Q Runs.small4 1
                = Normal s' /\
              Neutronics.done s' = true /\
              Neutronics.spaces s' = Runs.small4) /\
  (exists s', Runs.layer_step 3 Runs.wide = Normal s' /\
              LayerBoundary1D.done s' = true /\
              LayerBoundary1D.space s' = Runs.wide).
Proof.
  destruct stop_check_of_the_drivers as [N L].
  split; [|split].
  - eexists. split; [reflexivity|].
    match goal with
    | |- Neutronics.as_ ?s' = _ /\ _ =>
        destruct (N (Toy.lib Toy.steady) tt
                    (Toy.power_iteration [1; 2; 1; 1]%Q) [] []
                    (Runs.neutronics_state Runs.small4 29) s'
                    ltac:(reflexivity)) as (A & _ & R)
    end.
    destruct (R ltac:(reflexivity)) as [Sp Dn].
    split; [exact A|]. split; [exact Sp|]. rewrite Dn. reflexivity.
  - eexists. split; [reflexivity|].
    match goal with
    | |- Neutronics.done ?s' = _ /\ _ =>
        destruct (N (Toy.lib Toy.steady) tt
                    (Toy.power_iteration [1; 1; 1; 1]%Q) [] []
                    (Runs.neutronics_state Runs.small4 1) s'
                    ltac:(reflexivity)) as (_ & D & _)
    end.
    exact (D ltac:(reflexivity)).
  - eexists. split; [reflexivity|].
    match goal with
    | |- LayerBoundary1D.done ?s' = _ /\ _ =>
        exact (L (Toy.lib Toy.lossy) tt (Toy.const_on Toy.coarse0 3)
                 (Runs.layer_state Runs.wide) s'
                 ltac:(reflexivity)
                 ltac:(reflexivity))
    end.
Defined.

(** ** The exact error and the reported percentage *)

(** What a pass of 1d/layer-boundary reports as error estimate is one
    hundred times the squared total of the calculator; what it hands to the
    refinement is the calculator filled from the coarse and the reference
    solution, not from the exact one. *)
Lemma layer_boundary_step_reports (H : Hermes) (wf : WeakForm)
    (exact_sln : MeshFunction) (s s' : LayerBoundary1D.State) :
  LayerBoundary1D.adaptivity_step wf exact_sln s = Normal s' ->
  LayerBoundary1D.err_est_rel s' =
    (get_total_error_squared (LayerBoundary1D.errorCalculator s') * 100)%Q /\
  (Qltb (LayerBoundary1D.err_exact_rel s') LayerBoundary1D.ERR_STOP
   || Zgeb (get_num_dofs (LayerBoundary1D.space s)) LayerBoundary1D.NDOF_STOP
   = false ->
   (LayerBoundary1D.done s', LayerBoundary1D.space s') =
     adapt LayerBoundary1D.THRESHOLD LayerBoundary1D.CAND_LIST
       (LayerBoundary1D.errorCalculator s') (LayerBoundary1D.space s)).
Proof.
  unfold LayerBoundary1D.adaptivity_step.
  destruct (newton_solve _ _ _ _ _) as [vec|]; [|discriminate].
  destruct (project_global _ _) as [sln'|]; [|discriminate].
  intros E. injection E as <-. cbn -[Qltb Zgeb]. split; [reflexivity|].
  intros C. rewrite C. destruct (adapt _ _ _ _). reflexivity.
Qed.

(** C3, the code at the failing input.  Two runs of 1d/layer-boundary on
    the same library and the same coarse space differ in the exact solution
    only; the error estimate is 25 percent in both.  With exact solution 1
    (exact error 0) the loop is done after its first pass and has refined
    nothing; with exact solution 3 it refines.  The stop decision follows
    the exact error. *)
Theorem stop_decision_follows_exact_error :
  (exists s, Runs.layer_loop 1 1 = Finished s /\
             LayerBoundary1D.space s = Toy.coarse0 /\
             (LayerBoundary1D.err_est_rel s == 25)%Q /\
             Qltb (LayerBoundary1D.err_est_rel s) LayerBoundary1D.ERR_STOP
               = false) /\
  (exists s, Runs.layer_loop 3 1 = Unfinished s /\
             LayerBoundary1D.space s = snd (Toy.raise_order Toy.coarse0) /\
             (LayerBoundary1D.err_est_rel s == 25)%Q).
Proof.
  split; eexists; (split; [reflexivity|]); repeat split; reflexivity.
Qed.

(** C4, the code at the failing input.  The coarse solution is 1 and the
    reference solution 2, so the normalized squared total is 1/4 and the
    relative error one half.  The pass reports 25 percent, one hundred times
    the squared total; the square-rooted figure would be 50. *)
Theorem reported_estimate_is_squared_total :
  exists s, Runs.layer_step 3 Toy.coarse0 = Normal s /\
            (@get_total_error_squared (Toy.lib Toy.lossy)
               (LayerBoundary1D.errorCalculator s) == 1 # 4)%Q /\
            (LayerBoundary1D.err_est_rel s == 25)%Q /\
            ~ percent_of_root (LayerBoundary1D.err_est_rel s) (1 # 4) /\
            percent_of_root 50 (1 # 4).
Proof.
  eexists. split; [reflexivity|]. repeat split; try reflexivity.
  - intros [_ E]. lazy in E. discriminate E.
  - lazy. discriminate.
Qed.

(** ** A reference solve that fails *)

(** C5.  When the solve on the reference space fails, the adaptivity
    invocation ends there and then with a fatal error, whatever number of
    passes went well before: nothing of the failing pass is kept and no
    later pass runs.  1d/layer-boundary rethrows the solver's exception;
    nernst-planck rethrows it out of the adaptivity loop and so out of the
    time step; wall-on-fire reports the failed Runge-Kutta step and leaves
    [main] with -1.  The states are the ones in which the failing pass
    started (in wall-on-fire after the projection that precedes the
    solve). *)
Theorem failed_reference_solve_aborts :
  (forall (H : Hermes) (wf : WeakForm) (exact_sln : MeshFunction)
          (k fuel : nat) (s s' : LayerBoundary1D.State),
      passes (LayerBoundary1D.adaptivity_step wf exact_sln)
             (fun x => negb (LayerBoundary1D.done x)) k s s' ->
      newton_solve wf [] []
        [create_ref_space (LayerBoundary1D.space s')
           (create_ref_mesh (get_mesh (LayerBoundary1D.space s')))] [] = None ->
      (k < fuel)%nat ->
      LayerBoundary1D.adaptivity_loop wf exact_sln fuel s
        = Thrown "Newton's iteration failed." s')
  /\
  (forall (H : Hermes) (wf : WeakForm) (basemesh : Mesh) (Pid : Type)
          (begin_step : Pid -> Pid) (get_timestep_number : Pid -> Z)
          (timestep : Pid -> Q)
          (end_step : Pid -> list MeshFunction -> list MeshFunction -> Pid)
          (k fuel : nat) (s s' : NernstPlanck.State (Pid := Pid)),
      passes (NernstPlanck.adaptivity_step wf get_timestep_number timestep)
             (fun x => negb (NernstPlanck.done x)) k
             (NernstPlanck.begin_adaptivity
                (NernstPlanck.periodic_global_derefinement basemesh
                   get_timestep_number
                   (NernstPlanck.with_pid s
                      (begin_step (NernstPlanck.pid s))))) s' ->
      newton_solve wf [timestep (NernstPlanck.pid s')]
        (NernstPlanck.prev_times s')
        (NernstPlanck.make_ref_spaces (NernstPlanck.spaces s'))
        (if (NernstPlanck.as_ s' =? 1)
            && (get_timestep_number (NernstPlanck.pid s') =? 1)
         then NernstPlanck.slns s' else NernstPlanck.ref_slns s') = None ->
      (k < fuel)%nat ->
      NernstPlanck.time_step wf basemesh begin_step get_timestep_number
        timestep end_step fuel s
        = Exception "Newton's iteration failed." s')
  /\
  (forall (H : Hermes) (wf : WeakForm) (bt_is_embedded adaptive : bool)
          (k fuel : nat) (s s' : WallOnFire.State) (p : MeshFunction),
      let ref_space :=
        create_ref_space (WallOnFire.space s')
          (create_ref_mesh (get_mesh (WallOnFire.space s'))) in
      passes (WallOnFire.adaptivity_step wf bt_is_embedded adaptive)
             (fun x => negb (WallOnFire.done x)) k
             (WallOnFire.begin_adaptivity s) s' ->
      project_global ref_space (WallOnFire.sln_prev_time s') = Some p ->
      rk_time_step_newton wf ref_space (WallOnFire.current_time s')
        (WallOnFire.time_step s') p bt_is_embedded = None ->
      (k < fuel)%nat ->
      WallOnFire.adaptivity_loop wf bt_is_embedded adaptive fuel s
        = Exited (-1) (WallOnFire.with_sln_prev_time s' p)).
Proof.
  split; [|split].
  - intros H wf exact_sln k fuel s s' P F L.
    unfold LayerBoundary1D.adaptivity_loop.
    apply (do_while_exception _ _ k fuel s s' s' _ P); [|exact L].
    unfold LayerBoundary1D.adaptivity_step. rewrite F. reflexivity.
  - intros H wf basemesh Pid begin_step get_timestep_number timestep end_step
      k fuel s s' P F L.
    unfold NernstPlanck.time_step, NernstPlanck.adaptivity_loop.
    rewrite (do_while_exception _ _ k fuel _ s' s'
               "Newton's iteration failed." P); [reflexivity| |exact L].
    unfold NernstPlanck.adaptivity_step. rewrite F. reflexivity.
  - intros H wf bt_is_embedded adaptive k fuel s s' p ref_space P Pr F L.
    unfold WallOnFire.adaptivity_loop.
    apply (do_while_return _ _ k fuel _ s' _ _ P); [|exact L].
    unfold WallOnFire.adaptivity_step. fold ref_space. rewrite Pr, F.
    reflexivity.
Qed.

(** On the fragile library the solver gives up above 20 unknowns.
    1d/layer-boundary gets through one pass and aborts in the second, its
    space refined once; nernst-planck aborts in the first pass of its first
    time step; wall-on-fire leaves with -1 in its second pass. *)
Lemma failed_reference_solve_aborts_witness :
  (exists s', Runs.fragile_layer_loop 5
                = Thrown "Newton's iteration failed." s' /\
              LayerBoundary1D.space s' = snd (Toy.raise_order Toy.coarse0) /\
              LayerBoundary1D.as_ s' = 2) /\
  (exists s', Runs.nernst_time_step Toy.fragile 5
                (Runs.nernst_state Toy.fragile Runs.pair0 0)
                = Exception "Newton's iteration failed." s' /\
              NernstPlanck.spaces s' = Runs.pair0) /\
  (exists s', Runs.wall_loop Toy.fragile 5
                (Runs.wall_state Toy.fragile Toy.coarse0 1)
                = Exited (-1) s' /\
              WallOnFire.as_ s' = 2).
Proof.
  destruct failed_reference_solve_aborts as (L & N & W).
  split; [|split].
  - eexists. split.
    + eapply (L (Toy.lib Toy.fragile) tt (Toy.const_on Toy.coarse0 3)
                1%nat 5%nat (Runs.fragile_layer_state Toy.coarse0)).
      * eapply passes_S; [reflexivity|reflexivity|apply passes_O].
      * reflexivity.
      * lia.
    + split; reflexivity.
  - eexists. split.
    + eapply (N (Toy.lib Toy.fragile) tt 0 Z Toy.begin_step
                Toy.get_timestep_number Toy.timestep Toy.end_step
                0%nat 5%nat (Runs.nernst_state Toy.fragile Runs.pair0 0)).
      * apply passes_O.
      * reflexivity.
      * lia.
    + reflexivity.
  - eexists. split.
    + eapply (W (Toy.lib Toy.fragile) tt true false 1%nat 5%nat
                (Runs.wall_state Toy.fragile Toy.coarse0 1)).
      * eapply passes_S; [reflexivity|reflexivity|apply passes_O].
      * reflexivity.
      * reflexivity.
      * lia.
    + reflexivity.
Defined.

(** ** Degrees of freedom within one loop *)

(** One pass of 1d/layer-boundary either leaves the coarse space alone or
    replaces it by what [adapt] returns for it. *)
Lemma layer_boundary_step_space (H : Hermes) (wf : WeakForm)
    (exact_sln : MeshFunction) (s s' : LayerBoundary1D.State) :
  LayerBoundary1D.adaptivity_step wf exact_sln s = Normal s' ->
  LayerBoundary1D.space s' = LayerBoundary1D.space s \/
  exists ec, LayerBoundary1D.space s' =
             snd (adapt LayerBoundary1D.THRESHOLD LayerBoundary1D.CAND_LIST ec
                    (LayerBoundary1D.space s)).
Proof.
  unfold LayerBoundary1D.adaptivity_step.
  destruct (newton_solve _ _ _ _ _) as [vec|]; [|discriminate].
  destruct (project_global _ _) as [sln'|]; [|discriminate].
  intros E. injection E as <-. cbn -[Qltb Zgeb].
  destruct (_ || _); [left; reflexivity|right; eexists; reflexivity].
Qed.

Lemma neutronics_step_spaces (H : Hermes) (wf : WeakForm)
    (power_iteration : WeakForm -> list Space -> list MeshFunction -> Q ->
                       option (list MeshFunction))
    (h1 l2 : ErrorCalculator) (s s' : Neutronics.State) :
  Neutronics.adaptivity_step wf power_iteration h1 l2 s = Normal s' ->
  Neutronics.spaces s' = Neutronics.spaces s \/
  exists ec, Neutronics.spaces s' =
             snd (adapt_multi Neutronics.THRESHOLD Neutronics.CAND_LIST ec
                    (Neutronics.spaces s)).
Proof.
  unfold Neutronics.adaptivity_step.
  destruct (power_iteration _ _ _ _) as [its|]; [|discriminate].
  intros E. injection E as <-. cbn -[Qltb Zgeb Neutronics.ndof_coarse].
  destruct (Qltb _ _); [left; reflexivity|right].
  destruct (Zgeb _ _); eexists; reflexivity.
Qed.

Lemma wall_on_fire_step_space (H : Hermes) (wf : WeakForm)
    (bt_is_embedded adaptive : bool) (s s' : WallOnFire.State) :
  WallOnFire.adaptivity_step wf bt_is_embedded adaptive s = Normal s' ->
  WallOnFire.space s' = WallOnFire.space s \/
  exists ec, WallOnFire.space s' =
             snd (adapt WallOnFire.THRESHOLD WallOnFire.CAND_LIST ec
                    (WallOnFire.space s)).
Proof.
  unfold WallOnFire.adaptivity_step.
  destruct (project_global _ (WallOnFire.sln_prev_time s)) as [p|];
    [|discriminate].
  destruct (rk_time_step_newton _ _ _ _ _ _) as [[r e]|]; [|discriminate].
  destruct (adaptive && _).
  - intros E. injection E as <-. left. reflexivity.
  - destruct (project_global _ r) as [sln|]; [|discriminate].
    intros E. injection E as <-. cbn -[Qltb].
    destruct (Qltb _ _); [left; reflexivity|right; eexists; reflexivity].
Qed.

(** C7.  Within one run of an adaptivity loop the coarse space changes
    through [adapt] only.  With the contract the specification gives for
    the refinement, that it only adds degrees of freedom
    ([adapt_only_adds_dofs]), the number of unknowns of the coarse space
    never decreases from one pass to a later one.  Stated for
    1d/layer-boundary, for the four spaces of the 4-group driver taken
    together, and for the spatial loop inside a time step of wall-on-fire. *)
Theorem coarse_dofs_never_shrink_within_a_loop :
  (forall (H : Hermes) (wf : WeakForm) (exact_sln : MeshFunction),
      adapt_only_adds_dofs ->
      forall (k : nat) (s s' : LayerBoundary1D.State),
        passes (LayerBoundary1D.adaptivity_step wf exact_sln)
               (fun x => negb (LayerBoundary1D.done x)) k s s' ->
        get_num_dofs (LayerBoundary1D.space s)
          <= get_num_dofs (LayerBoundary1D.space s'))
  /\
  (forall (H : Hermes) (wf : WeakForm)
          (power_iteration : WeakForm -> list Space -> list MeshFunction ->
                             Q -> option (list MeshFunction))
          (h1 l2 : ErrorCalculator),
      adapt_multi_only_adds_dofs ->
      forall (k : nat) (s s' : Neutronics.State),
        passes (Neutronics.adaptivity_step wf power_iteration h1 l2)
               (fun x => negb (Neutronics.done x)) k s s' ->
        Neutronics.ndof_coarse (Neutronics.spaces s)
          <= Neutronics.ndof_coarse (Neutronics.spaces s'))
  /\
  (forall (H : Hermes) (wf : WeakForm) (bt_is_embedded adaptive : bool),
      adapt_only_adds_dofs ->
      forall (k : nat) (s s' : WallOnFire.State),
        passes (WallOnFire.adaptivity_step wf bt_is_embedded adaptive)
               (fun x => negb (WallOnFire.done x)) k s s' ->
        get_num_dofs (WallOnFire.space s)
          <= get_num_dofs (WallOnFire.space s')).
Proof.
  split; [|split].
  - intros H wf exact_sln adds k s s' P.
    refine (passes_preserve _ _
             (fun a b => get_num_dofs (LayerBoundary1D.space a)
                         <= get_num_dofs (LayerBoundary1D.space b))
      _ _ _ k s s' P); [intros; lia|intros; lia|].
    intros a b E.
    destruct (layer_boundary_step_space _ _ _ _ _ E) as [-> | [ec ->]];
      [lia|apply adds].
  - intros H wf power_iteration h1 l2 adds k s s' P.
    refine (passes_preserve _ _
             (fun a b => Neutronics.ndof_coarse (Neutronics.spaces a)
                         <= Neutronics.ndof_coarse (Neutronics.spaces b))
      _ _ _ k s s' P); [intros; lia|intros; lia|].
    intros a b E.
    destruct (neutronics_step_spaces _ _ _ _ _ _ _ E) as [-> | [ec ->]];
      [lia|apply adds].
  - intros H wf bt_is_embedded adaptive adds k s s' P.
    refine (passes_preserve _ _
             (fun a b => get_num_dofs (WallOnFire.space a)
                         <= get_num_dofs (WallOnFire.space b))
      _ _ _ k s s' P); [intros; lia|intros; lia|].
    intros a b E.
    destruct (wall_on_fire_step_space _ _ _ _ _ _ E) as [-> | [ec ->]];
      [lia|apply adds].
Qed.

(** The refinement of the small library raises the order, which adds
    [2^level] unknowns. *)
Lemma toy_raise_order_adds (s : Toy.space) :
  Toy.dofs s <= Toy.dofs (snd (Toy.raise_order s)).
Proof.
  unfold Toy.dofs, Toy.raise_order. cbn [snd Toy.level Toy.order].
  pose proof (Z.pow_nonneg 2 (Toy.level s) ltac:(lia)). nia.
Qed.

Lemma toy_raise_order_adds_multi (sc : Toy.Script) (sps : list Toy.space) :
  Toy.refine sc = Toy.raise_order ->
  Neutronics.ndof_coarse (H := Toy.lib sc) sps
    <= Neutronics.ndof_coarse (H := Toy.lib sc)
         (map (fun s => snd (Toy.refine sc s)) sps).
Proof.
  intros R. unfold Neutronics.ndof_coarse. rewrite R.
  induction sps as [|s sps IH]; [reflexivity|].
  cbn [map fold_right]. pose proof (toy_raise_order_adds s).
  cbn [get_num_dofs Toy.lib] in *. lia.
Qed.

(** Two passes of 1d/layer-boundary take the coarse space from 3 to 11
    unknowns, two passes of the 4-group driver take its spaces from 12 to
    44, two passes of wall-on-fire from 3 to 11. *)
Lemma coarse_dofs_never_shrink_within_a_loop_witness :
  (exists s', passes (LayerBoundary1D.adaptivity_step (H := Toy.lib Toy.lossy)
                        tt (Toy.const_on Toy.coarse0 3))
                     (fun x => negb (LayerBoundary1D.done x))
                     2 (Runs.layer_state Toy.coarse0) s' /\
              Toy.dofs Toy.coarse0 <= Toy.dofs (LayerBoundary1D.space s') /\
              Toy.dofs (LayerBoundary1D.space s') = 11) /\
  (exists s', passes (Neutronics.adaptivity_step (H := Toy.lib Toy.steady)
                        tt (Toy.power_iteration [1; 2; 1; 1]%Q) [] [])
                     (fun x => negb (Neutronics.done x))
                     2 (Runs.neutronics_state Runs.small4 1) s' /\
              Neutronics.ndof_coarse (H := Toy.lib Toy.steady) Runs.small4
                <= Neutronics.ndof_coarse (H := Toy.lib Toy.steady)
                     (Neutronics.spaces s') /\
              Neutronics.ndof_coarse (H := Toy.lib Toy.steady)
                (Neutronics.spaces s') = 44) /\
  (exists s', passes (WallOnFire.adaptivity_step (H := Toy.lib Toy.lossy)
                        tt true false)
                     (fun x => negb (WallOnFire.done x))
                     2 (Runs.wall_state Toy.lossy Toy.coarse0 1) s' /\
              Toy.dofs Toy.coarse0 <= Toy.dofs (WallOnFire.space s') /\
              Toy.dofs (WallOnFire.space s') = 11).
Proof.
  destruct coarse_dofs_never_shrink_within_a_loop as (L & N & W).
  assert (P2 : forall (S : Type) (body : S -> Flow S) (again : S -> bool)
                      (s0 s1 s2 : S),
             body s0 = Normal s1 -> again s1 = true ->
             body s1 = Normal s2 -> again s2 = true ->
             passes body again 2 s0 s2).
  { intros S body again s0 s1 s2 B0 A0 B1 A1.
    exact (passes_S _ _ _ _ _ _ B0 A0
             (passes_S _ _ _ _ _ _ B1 A1 (passes_O _ _ _))). }
  split; [|split].
  - eexists. split; [eapply P2; reflexivity|]. split; [|reflexivity].
    eapply (L (Toy.lib Toy.lossy) tt (Toy.const_on Toy.coarse0 3)
              (fun _ _ _ sp => toy_raise_order_adds sp) 2%nat
              (Runs.layer_state Toy.coarse0)).
    eapply P2; reflexivity.
  - eexists. split; [eapply P2; reflexivity|]. split; [|reflexivity].
    eapply (N (Toy.lib Toy.steady) tt (Toy.power_iteration [1; 2; 1; 1]%Q)
              [] []
              (fun _ _ _ sps =>
                 toy_raise_order_adds_multi Toy.steady sps eq_refl) 2%nat
              (Runs.neutronics_state Runs.small4 1)).
    eapply P2; reflexivity.
  - eexists. split; [eapply P2; reflexivity|]. split; [|reflexivity].
    eapply (W (Toy.lib Toy.lossy) tt true false
              (fun _ _ _ sp => toy_raise_order_adds sp) 2%nat
              (Runs.wall_state Toy.lossy Toy.coarse0 1)).
    eapply P2; reflexivity.
Defined.

(** ** Several solution components *)



(** ** The solution of the previous time level *)

(** nernst-planck keeps its word: no pass of the adaptivity loop touches
    [C_prev_time] and [phi_prev_time]; the end of the time step replaces
    them by the last reference solutions. *)
Lemma nernst_planck_keeps_prev_times (H : Hermes) (wf : WeakForm)
    (Pid : Type) (get_timestep_number : Pid -> Z) (timestep : Pid -> Q)
    (k : nat) (s s' : NernstPlanck.State (Pid := Pid)) :
  passes (NernstPlanck.adaptivity_step wf get_timestep_number timestep)
         (fun x => negb (NernstPlanck.done x)) k s s' ->
  NernstPlanck.prev_times s' = NernstPlanck.prev_times s.
Proof.
  intros P.
  refine (passes_preserve _ _
            (fun a b => NernstPlanck.prev_times b = NernstPlanck.prev_times a)
            _ _ _ k s s' P); [reflexivity|intros; congruence|].
  intros a b. unfold NernstPlanck.adaptivity_step.
  destruct (newton_solve _ _ _ _ _) as [vec|]; [|discriminate].
  destruct (project_global_multi _ _) as [slns'|]; [|discriminate].
  intros E. injection E as <-. reflexivity.
Qed.


(** wall-on-fire does not: every pass that gets past its first statement
    has overwritten [sln_prev_time] with its projection on the reference
    space of that pass. *)
Lemma wall_on_fire_step_projects (H : Hermes) (wf : WeakForm)
    (bt_is_embedded adaptive : bool) (s s' : WallOnFire.State) :
  WallOnFire.adaptivity_step wf bt_is_embedded adaptive s = Normal s' ->
  project_global
    (create_ref_space (WallOnFire.space s)
       (create_ref_mesh (get_mesh (WallOnFire.space s))))
    (WallOnFire.sln_prev_time s) = Some (WallOnFire.sln_prev_time s').
Proof.
  unfold WallOnFire.adaptivity_step.
  destruct (project_global _ (WallOnFire.sln_prev_time s)) as [p|];
    [|discriminate].
  destruct (rk_time_step_newton _ _ _ _ _ _) as [[r e]|]; [|discriminate].
  destruct (adaptive && _).
  - intros E. injection E as <-. reflexivity.
  - destruct (project_global _ r) as [sln|]; [|discriminate].
    intros E. injection E as <-. reflexivity.
Qed.

(** C9, the code at the failing input.  wall-on-fire, first time step,
    first pass of the spatial adaptivity loop, on a library whose projection
    loses nothing: before the pass [sln_prev_time] is the constant 1 on the
    coarse space (4 elements, order 1); after the pass it is a function on
    the reference space (8 elements, order 2).  The loop has written to the
    solution of the previous time level. *)
Theorem wall_on_fire_rewrites_sln_prev_time :
  exists s', Runs.wall_step Toy.steady
               (Runs.wall_state Toy.steady Toy.coarse0 1) = Normal s' /\
             WallOnFire.sln_prev_time s' =
               ({| Toy.level := 3; Toy.order := 2 |}, 1%Q) /\
             WallOnFire.sln_prev_time s' <>
               WallOnFire.sln_prev_time
                 (Runs.wall_state Toy.steady Toy.coarse0 1).
Proof.
  eexists. split; [reflexivity|]. split; [reflexivity|].
  intros E. discriminate E.
Qed.

(** ** Periodic global derefinement *)

(** C10.  In the three transient drivers with spatial adaptivity a time
    step whose number is above 1 and a multiple of UNREF_FREQ first
    derefines the coarse space globally and only then runs the adaptivity
    loop, which starts from the derefined space.  wall-on-fire and seepage
    choose by UNREF_METHOD: 1 copies the base mesh and resets the orders to
    P_INIT, 2 takes one layer of refinement off and resets the orders, 3
    takes one layer off and lowers the orders by one, not below P_INIT
    (wall-on-fire then reassigns the DOFs); nernst-planck copies the base
    mesh into both meshes, resets the orders and reassigns the DOFs.  So the
    number of unknowns of the coarse space can go down from one time step to
    the next: the last part is a time step of wall-on-fire that starts on 15
    unknowns and runs its adaptivity loop on 3. *)
Theorem periodic_derefinement_precedes_adaptivity :
  (forall (H : Hermes) (wf : WeakForm) (basemesh : Mesh)
          (bt_is_embedded adaptive : bool) (unref_freq unref_method : Z)
          (fuel : nat) (s : WallOnFire.State),
      1 < WallOnFire.ts s ->
      Z.rem (WallOnFire.ts s) unref_freq = 0 ->
      unref_method = 1 \/ unref_method = 2 \/ unref_method = 3 ->
      exists s1,
        WallOnFire.periodic_global_derefinement basemesh unref_freq
          unref_method s = Normal s1 /\
        WallOnFire.time_step_body wf basemesh bt_is_embedded adaptive
          unref_freq unref_method fuel s
        = after_loop
            (WallOnFire.adaptivity_loop wf bt_is_embedded adaptive fuel s1)
            (fun s2 => Normal (WallOnFire.finish_time_step s2)) /\
        WallOnFire.sln_prev_time s1 = WallOnFire.sln_prev_time s /\
        WallOnFire.ndof s1 = get_num_dofs (WallOnFire.space s1) /\
        (unref_method = 1 ->
         WallOnFire.space s1 =
           assign_dofs (set_uniform_order
                          (copy_mesh_of (WallOnFire.space s) basemesh)
                          WallOnFire.P_INIT)) /\
        (unref_method = 2 ->
         WallOnFire.space s1 =
           assign_dofs (set_uniform_order
                          (unrefine_all_mesh_elements (WallOnFire.space s))
                          WallOnFire.P_INIT)) /\
        (unref_method = 3 ->
         WallOnFire.space s1 =
           assign_dofs (adjust_element_order
                          (unrefine_all_mesh_elements (WallOnFire.space s))
                          (-1) (-1) WallOnFire.P_INIT WallOnFire.P_INIT)))
  /\
  (forall (H : Hermes) (wf : WeakForm) (basemesh : Mesh) (TAU : Q)
          (construct_refined_space : Space -> Space)
          (project_to_vector : Space -> MeshFunction -> Vector)
          (solve_newton : WeakForm -> Q -> Vector -> Space -> option Vector)
          (calc_err_est : Space -> MeshFunction -> MeshFunction ->
                          Q * ErrorCalculator)
          (adapt_strategy : CandList -> Q -> Q -> Z -> Z -> ErrorCalculator ->
                            Space -> bool * Space)
          (unref_freq unref_method : Z) (fuel : nat) (s : Seepage.State),
      1 < Seepage.ts s ->
      Z.rem (Seepage.ts s) unref_freq = 0 ->
      unref_method = 1 \/ unref_method = 2 \/ unref_method = 3 ->
      exists s1,
        Seepage.periodic_global_derefinement basemesh unref_freq
          unref_method (Seepage.set_time TAU s) = Normal s1 /\
        Seepage.time_step_body wf basemesh TAU construct_refined_space
          project_to_vector solve_newton calc_err_est adapt_strategy
          unref_freq unref_method fuel s
        = after_loop
            (Seepage.adaptivity_loop wf construct_refined_space
               project_to_vector solve_newton calc_err_est adapt_strategy
               fuel s1)
            (fun s2 => Normal (Seepage.finish_time_step s2)) /\
        Seepage.sln_prev_time s1 = Seepage.sln_prev_time s /\
        (unref_method = 1 ->
         Seepage.space s1 =
           set_uniform_order (copy_mesh_of (Seepage.space s) basemesh)
             Seepage.P_INIT) /\
        (unref_method = 2 ->
         Seepage.space s1 =
           set_uniform_order (unrefine_all_elements_of (Seepage.space s))
             Seepage.P_INIT) /\
        (unref_method = 3 ->
         Seepage.space s1 =
           adjust_element_order (unrefine_all_elements_of (Seepage.space s))
             (-1) (-1) Seepage.P_INIT Seepage.P_INIT))
  /\
  (forall (H : Hermes) (wf : WeakForm) (basemesh : Mesh) (Pid : Type)
          (begin_step : Pid -> Pid) (get_timestep_number : Pid -> Z)
          (timestep : Pid -> Q)
          (end_step : Pid -> list MeshFunction -> list MeshFunction -> Pid)
          (fuel : nat) (s : NernstPlanck.State (Pid := Pid)),
      1 < get_timestep_number (begin_step (NernstPlanck.pid s)) ->
      Z.rem (get_timestep_number (begin_step (NernstPlanck.pid s)))
        NernstPlanck.UNREF_FREQ = 0 ->
      exists s1,
        NernstPlanck.time_step wf basemesh begin_step get_timestep_number
          timestep end_step fuel s
        = after_loop
            (NernstPlanck.adaptivity_loop wf get_timestep_number timestep
               fuel s1)
            (fun s2 => Normal (NernstPlanck.finish_time_step end_step s2)) /\
        NernstPlanck.prev_times s1 = NernstPlanck.prev_times s /\
        NernstPlanck.spaces s1 =
          map (fun sp =>
                 assign_dofs (set_uniform_order (copy_mesh_of sp basemesh)
                                NernstPlanck.P_INIT))
              (NernstPlanck.spaces s))
  /\
  (exists s1,
      WallOnFire.periodic_global_derefinement (H := Toy.lib Toy.steady) 0
        WallOnFire.UNREF_FREQ WallOnFire.UNREF_METHOD
        (Runs.wall_state Toy.steady Runs.refined 2) = Normal s1 /\
      Toy.dofs Runs.refined = 15 /\
      Toy.dofs (WallOnFire.space s1) = 3).
Proof.
  split; [|split; [|split]].
  - intros H wf basemesh bt ad freq method fuel s T R M.
    unfold WallOnFire.time_step_body, WallOnFire.periodic_global_derefinement.
    apply Z.ltb_lt in T. apply Z.eqb_eq in R. rewrite T, R. cbn [andb].
    unfold WallOnFire.global_derefinement.
    destruct M as [-> | [-> | ->]]; cbn [Z.eqb Pos.eqb];
      (eexists; split; [reflexivity|]; split; [reflexivity|];
       cbn; repeat split; try reflexivity; intros E; discriminate E).
  - intros H wf basemesh TAU crs ptv sn cee ast freq method fuel s T R M.
    unfold Seepage.time_step_body, Seepage.periodic_global_derefinement.
    cbn [Seepage.set_time Seepage.ts Seepage.space].
    apply Z.ltb_lt in T. apply Z.eqb_eq in R. rewrite T, R. cbn [andb].
    unfold Seepage.global_derefinement.
    destruct M as [-> | [-> | ->]]; cbn [Z.eqb Pos.eqb];
      (eexists; split; [reflexivity|]; split; [reflexivity|];
       cbn; repeat split; try reflexivity; intros E; discriminate E).
  - intros H wf basemesh Pid bs gtn tsz es fuel s T R.
    unfold NernstPlanck.time_step, NernstPlanck.periodic_global_derefinement.
    cbn [NernstPlanck.with_pid NernstPlanck.pid].
    apply Z.ltb_lt in T. apply Z.eqb_eq in R. rewrite T, R. cbn [andb].
    eexists. split; [reflexivity|]. split; reflexivity.
  - eexists. split; [reflexivity|]. split; reflexivity.
Qed.

(** The second time step of each driver, started on 15 unknowns per space.
    wall-on-fire and seepage, with UNREF_METHOD = 3, hand 4 elements of
    order 1 to their adaptivity loop; nernst-planck hands it the base mesh
    at order 2.  The solution of the previous time level is the one the time
    step started with. *)
Lemma periodic_derefinement_precedes_adaptivity_witness :
  (exists s1,
      WallOnFire.periodic_global_derefinement (H := Toy.lib Toy.steady) 0
        WallOnFire.UNREF_FREQ WallOnFire.UNREF_METHOD
        (Runs.wall_state Toy.steady Runs.refined 2) = Normal s1 /\
      Runs.wall_time_step Toy.steady 3
        (Runs.wall_state Toy.steady Runs.refined 2)
      = after_loop (Runs.wall_loop Toy.steady 3 s1)
          (fun s2 => Normal (WallOnFire.finish_time_step s2)) /\
      WallOnFire.space s1 = Toy.coarse0) /\
  (exists s1,
      Runs.seepage_time_step Toy.steady 3
        (Runs.seepage_state Toy.steady Runs.refined 2)
      = after_loop
          (Seepage.adaptivity_loop (H := Toy.lib Toy.steady) tt
             Toy.construct_refined_space Toy.project_to_vector
             (Toy.solve_newton Toy.steady) Toy.calc_err_est
             (Toy.adapt_strategy Toy.steady) 3 s1)
          (fun s2 => Normal (Seepage.finish_time_step s2)) /\
      Seepage.space s1 = Toy.coarse0) /\
  (exists s1,
      Runs.nernst_time_step Toy.steady 3
        (Runs.nernst_state Toy.steady [Runs.refined; Runs.refined] 1)
      = after_loop
          (NernstPlanck.adaptivity_loop (H := Toy.lib Toy.steady) tt
             Toy.get_timestep_number Toy.timestep 3 s1)
          (fun s2 => Normal (NernstPlanck.finish_time_step
                               (H := Toy.lib Toy.steady) Toy.end_step s2)) /\
      NernstPlanck.spaces s1 =
        [{| Toy.level := 0; Toy.order := 2 |};
         {| Toy.level := 0; Toy.order := 2 |}]).
Proof.
  destruct periodic_derefinement_precedes_adaptivity as (W & S & N & _).
  split; [|split].
  - destruct (W (Toy.lib Toy.steady) tt 0 true false
                WallOnFire.UNREF_FREQ WallOnFire.UNREF_METHOD 3%nat
                (Runs.wall_state Toy.steady Runs.refined 2)
                ltac:(reflexivity) ltac:(reflexivity)
                ltac:(right; right; reflexivity))
      as (s1 & P & T & _ & _ & _ & _ & M3).
    exists s1. split; [exact P|]. split; [exact T|].
    rewrite (M3 eq_refl). reflexivity.
  - destruct (S (Toy.lib Toy.steady) tt 0 1%Q
                Toy.construct_refined_space Toy.project_to_vector
                (Toy.solve_newton Toy.steady) Toy.calc_err_est
                (Toy.adapt_strategy Toy.steady)
                Seepage.UNREF_FREQ Seepage.UNREF_METHOD 3%nat
                (Runs.seepage_state Toy.steady Runs.refined 2)
                ltac:(reflexivity) ltac:(reflexivity)
                ltac:(right; right; reflexivity))
      as (s1 & _ & T & _ & _ & _ & M3).
    exists s1. split; [exact T|]. rewrite (M3 eq_refl). reflexivity.
  - destruct (N (Toy.lib Toy.steady) tt 0 Z Toy.begin_step
                Toy.get_timestep_number Toy.timestep Toy.end_step 3%nat
                (Runs.nernst_state Toy.steady [Runs.refined; Runs.refined] 1)
                ltac:(reflexivity) ltac:(reflexivity))
      as (s1 & T & _ & Sp).
    exists s1. split; [exact T|]. rewrite Sp. reflexivity.
Defined.

(** * Further properties of the code *)

(** ** Comparisons, continued *)

Lemma Qle_bool_false (a b : Q) : Qle_bool a b = false <-> (b < a)%Q.
Proof.
  split.
  - intros E. apply Qnot_le_lt. intros L. apply Qle_bool_iff in L. congruence.
  - intros L. destruct (Qle_bool a b) eqn:E; [|reflexivity].
    apply Qle_bool_iff in E. exfalso. exact (Qlt_not_le _ _ L E).
Qed.

(** Case analysis on every comparison of doubles in the goal. *)
Ltac double_cases :=
  unfold Qgtb, Qgeb, Qleb, Qltb in *;
  repeat match goal with
         | |- context [Qle_bool ?a ?b] =>
             let E := fresh "E" in
             destruct (Qle_bool a b) eqn:E;
             [apply Qle_bool_iff in E | apply Qle_bool_false in E]
         end;
  cbn [negb].

(** ** seepage: materials, inflow and boundary values *)

(** X1.  The four material tests of seepage split the plane: every point
    lies in exactly one of the materials 1, 2, 3 and 4. *)
Theorem seepage_materials_partition (x y : Q) :
  (Nat.b2n (SeepageData.is_in_mat_1 x y)
   + Nat.b2n (SeepageData.is_in_mat_2 x y)
   + Nat.b2n (SeepageData.is_in_mat_3 x y)
   + Nat.b2n (SeepageData.is_in_mat_4 x y) = 1)%nat.
Proof.
  unfold SeepageData.is_in_mat_3, SeepageData.is_in_mat_1,
    SeepageData.is_in_mat_2, SeepageData.is_in_mat_4.
  double_cases; cbn; try reflexivity; exfalso; lra.
Qed.

(** X2.  The inflow [q_function] is a ramp that never leaves the interval
    from 0 to its maximum: for a nonnegative maximum and a nonnegative time
    it lies between 0 and the maximum, and it is the maximum from
    STARTUP_TIME on. *)
Theorem seepage_inflow_bounded (q_max STARTUP_TIME TIME : Q) :
  (0 <= q_max)%Q -> (0 <= TIME)%Q ->
  (0 <= SeepageData.q_function q_max STARTUP_TIME TIME)%Q /\
  (SeepageData.q_function q_max STARTUP_TIME TIME <= q_max)%Q /\
  ((STARTUP_TIME <= TIME)%Q ->
   SeepageData.q_function q_max STARTUP_TIME TIME = q_max).
Proof.
  intros Hq Ht. unfold SeepageData.q_function. double_cases.
  - split; [exact Hq|]. split; [apply Qle_refl|reflexivity].
  - assert (Hs : (0 < STARTUP_TIME)%Q) by lra.
    split; [|split].
    + apply Qle_shift_div_l; [exact Hs|]. rewrite Qmult_0_l.
      apply Qmult_le_0_compat; assumption.
    + apply Qle_shift_div_r; [exact Hs|].
      nra.
    + intros L. exfalso. lra.
Qed.

Lemma seepage_inflow_bounded_witness :
  (0 <= SeepageData.q_function SeepageData.Q_MAX_VALUE 10 4)%Q /\
  (SeepageData.q_function SeepageData.Q_MAX_VALUE 10 4
   <= SeepageData.Q_MAX_VALUE)%Q /\
  (SeepageData.q_function SeepageData.Q_MAX_VALUE 10 4 == 28 # 1000)%Q.
Proof.
  destruct (seepage_inflow_bounded SeepageData.Q_MAX_VALUE 10 4
              ltac:(lazy; discriminate) ltac:(lazy; discriminate))
    as (A & B & _).
  split; [exact A|]. split; [exact B|]. reflexivity.
Defined.

(** X3.  The essential boundary values of seepage start at the initial
    condition and rise to the initial condition plus H_ELEVATION: at time 0
    they equal [init_cond]; for a nonnegative time and elevation they stay
    between the two; from STARTUP_TIME on they are the upper value. *)
Theorem seepage_boundary_values_ramp
    (STARTUP_TIME H_INIT H_ELEVATION x y time : Q) :
  (0 < STARTUP_TIME)%Q -> (0 <= H_ELEVATION)%Q -> (0 <= time)%Q ->
  let bc := SeepageData.essential_bc_values STARTUP_TIME H_INIT H_ELEVATION in
  let ic := fst (fst (SeepageData.init_cond H_INIT x y)) in
  (bc x y 0 == ic)%Q /\
  (ic <= bc x y time)%Q /\
  (bc x y time <= ic + H_ELEVATION)%Q /\
  ((STARTUP_TIME <= time)%Q -> (bc x y time == ic + H_ELEVATION)%Q).
Proof.
  intros Hs He Ht bc ic. subst bc ic.
  unfold SeepageData.essential_bc_values, SeepageData.init_cond.
  cbn [fst].
  assert (R : (0 <= time / STARTUP_TIME * H_ELEVATION)%Q).
  { apply Qmult_le_0_compat; [|exact He].
    apply Qle_shift_div_l; [exact Hs|]. lra. }
  assert (U : (STARTUP_TIME <= time)%Q \/
              (time / STARTUP_TIME * H_ELEVATION <= H_ELEVATION)%Q).
  { destruct (Qlt_le_dec time STARTUP_TIME) as [L|L]; [right|left; exact L].
    rewrite <- (Qmult_1_l H_ELEVATION) at 2.
    apply Qmult_le_compat_r; [|exact He].
    apply Qle_shift_div_r; [exact Hs|]. lra. }
  split; [|split; [|split]].
  - double_cases; [exfalso; lra|].
    unfold Qdiv. ring.
  - double_cases; lra.
  - double_cases; [lra|]. destruct U as [U|U]; lra.
  - intros L. double_cases; [lra|exfalso; lra].
Qed.

Lemma seepage_boundary_values_ramp_witness :
  (SeepageData.essential_bc_values 10 2 3 0 1 0 == 1)%Q /\
  (1 <= SeepageData.essential_bc_values 10 2 3 0 1 5)%Q /\
  (SeepageData.essential_bc_values 10 2 3 0 1 5 <= 1 + 3)%Q /\
  (SeepageData.essential_bc_values 10 2 3 0 1 5 == 5 # 2)%Q.
Proof.
  destruct (seepage_boundary_values_ramp 10 2 3 0 1 5
              ltac:(reflexivity) ltac:(lazy; discriminate)
              ltac:(lazy; discriminate)) as (A & B & C & _).
  split; [exact A|]. split; [exact B|]. split; [exact C|]. reflexivity.
Defined.

(** ** Scaling of nernst-planck *)

(** X4.  The scaling functions of nernst-planck and their [phys]
    counterparts undo each other, in both orders, with scaling switched on or
    off: for the voltage and the concentration always, for the time as soon
    as the Debye length [lambda] is not zero.  The values the driver sets up
    with them are the intended ones: the scaled initial concentration
    [scaleConc(C0)] is 1, the zero voltage stays zero, and
    [scaleVoltage(VOLTAGE)] is the constant SCALED_VOLTAGE. *)
Theorem nernst_planck_scaling_round_trip (SCALED : bool) (lambda x : Q) :
  ~ (lambda == 0)%Q ->
  (NernstPlanckScaling.physTime SCALED lambda
     (NernstPlanckScaling.scaleTime SCALED lambda x) == x)%Q /\
  (NernstPlanckScaling.scaleTime SCALED lambda
     (NernstPlanckScaling.physTime SCALED lambda x) == x)%Q /\
  (NernstPlanckScaling.physVoltage SCALED
     (NernstPlanckScaling.scaleVoltage SCALED x) == x)%Q /\
  (NernstPlanckScaling.scaleVoltage SCALED
     (NernstPlanckScaling.physVoltage SCALED x) == x)%Q /\
  (NernstPlanckScaling.physConc SCALED
     (NernstPlanckScaling.scaleConc SCALED x) == x)%Q /\
  (NernstPlanckScaling.scaleConc SCALED
     (NernstPlanckScaling.physConc SCALED x) == x)%Q /\
  (NernstPlanckScaling.scaleConc true NernstPlanckScaling.C0 == 1)%Q /\
  (NernstPlanckScaling.scaleVoltage SCALED 0 == 0)%Q /\
  (NernstPlanckScaling.scaleVoltage true NernstPlanckScaling.VOLTAGE
     == NernstPlanckScaling.SCALED_VOLTAGE)%Q.
Proof.
  intros L.
  unfold NernstPlanckScaling.physTime, NernstPlanckScaling.scaleTime,
    NernstPlanckScaling.physVoltage, NernstPlanckScaling.scaleVoltage,
    NernstPlanckScaling.physConc, NernstPlanckScaling.scaleConc,
    NernstPlanckScaling.SCALED_VOLTAGE, NernstPlanckScaling.VOLTAGE,
    NernstPlanckScaling.D, NernstPlanckScaling.R, NernstPlanckScaling.T,
    NernstPlanckScaling.F, NernstPlanckScaling.C0, NernstPlanckScaling.l.
  destruct SCALED; repeat split; try reflexivity; try (field; exact L);
    try field.
Qed.

Lemma nernst_planck_scaling_round_trip_witness :
  ~ (1 # 100000 == 0)%Q /\
  (NernstPlanckScaling.physTime true (1 # 100000)
     (NernstPlanckScaling.scaleTime true (1 # 100000) 3) == 3)%Q.
Proof.
  split; [discriminate|].
  exact (proj1 (nernst_planck_scaling_round_trip true (1 # 100000) 3
                  ltac:(discriminate))).
Defined.

(** ** The closed forms of moving-front *)

Lemma derivable_pt_lim_eq (f : R -> R) (x l l' : R) :
  derivable_pt_lim f x l -> l = l' -> derivable_pt_lim f x l'.
Proof. intros D <-. exact D. Qed.

Lemma derivable_pt_lim_atan_comp (f : R -> R) (x l : R) :
  derivable_pt_lim f x l ->
  derivable_pt_lim (fun z => atan (f z)) x (/ (1 + (f x) ^ 2) * l)%R.
Proof.
  intros D.
  apply (derivable_pt_lim_eq _ _ _ _
           (derivable_pt_lim_comp f atan x l _ D (derivable_pt_lim_atan (f x)))).
  unfold Rsqr. ring.
Qed.

Lemma derivable_pt_lim_pow_comp (f : R -> R) (n : nat) (x l : R) :
  derivable_pt_lim f x l ->
  derivable_pt_lim (fun z => f z ^ n)%R x (INR n * f x ^ pred n * l)%R.
Proof.
  intros D.
  exact (derivable_pt_lim_comp f (fun y => y ^ n)%R x l _ D
           (derivable_pt_lim_pow (f x) n)).
Qed.

(** Differentiates a closed form built from constants, the variable, the
    field operations, powers and [atan]; what is left are the goals that a
    denominator is not zero. *)
Ltac differentiate :=
  lazymatch goal with
  | |- derivable_pt_lim (fun _ => ?a) ?x _ =>
      exact (derivable_pt_lim_const a x)
  | |- derivable_pt_lim (fun z => z) ?x _ =>
      exact (derivable_pt_lim_id x)
  | |- derivable_pt_lim (fun z => @?f z + @?g z)%R ?x _ =>
      refine (derivable_pt_lim_plus f g x _ _ _ _); differentiate
  | |- derivable_pt_lim (fun z => @?f z - @?g z)%R ?x _ =>
      refine (derivable_pt_lim_minus f g x _ _ _ _); differentiate
  | |- derivable_pt_lim (fun z => - @?f z)%R ?x _ =>
      refine (derivable_pt_lim_opp f x _ _); differentiate
  | |- derivable_pt_lim (fun z => @?f z * @?g z)%R ?x _ =>
      refine (derivable_pt_lim_mult f g x _ _ _ _); differentiate
  | |- derivable_pt_lim (fun z => @?f z / @?g z)%R ?x _ =>
      refine (derivable_pt_lim_div f g x _ _ _ _ _);
      [differentiate | differentiate | ]
  | |- derivable_pt_lim (fun z => atan (@?f z)) ?x _ =>
      refine (derivable_pt_lim_atan_comp f x _ _); differentiate
  | |- derivable_pt_lim (fun z => @?f z ^ ?n)%R ?x _ =>
      refine (derivable_pt_lim_pow_comp f n x _ _); differentiate
  end.

Lemma moving_front_denominator (s a : R) : (s ^ 2 * a ^ 2 + 1 <> 0)%R.
Proof.
  assert (0 <= s ^ 2 * a ^ 2)%R by (apply Rmult_le_pos; apply pow2_ge_0).
  Lra.lra.
Qed.

(** X5.  [CustomExactSolution::derivatives] of moving-front returns the
    gradient of [CustomExactSolution::value]: at every point and time, [dx]
    is the derivative of the value with respect to [x] and [dy], which is 0,
    the derivative with respect to [y].  The scaling constant [c] must not be
    zero. *)
Theorem moving_front_derivatives_are_the_gradient
    (x0 x1 s c M_PI t x y : R) :
  c <> 0%R ->
  derivable_pt_lim
    (fun x' => MovingFront.CustomExactSolution_value x0 x1 s c M_PI t x' y) x
    (fst (MovingFront.CustomExactSolution_derivatives x0 x1 s c M_PI t x y)) /\
  derivable_pt_lim
    (fun y' => MovingFront.CustomExactSolution_value x0 x1 s c M_PI t x y') y
    (snd (MovingFront.CustomExactSolution_derivatives x0 x1 s c M_PI t x y)).
Proof.
  intros C.
  unfold MovingFront.CustomExactSolution_value,
    MovingFront.CustomExactSolution_derivatives.
  cbn [fst snd]. split.
  - eapply derivable_pt_lim_eq.
    + differentiate. exact C.
    + cbn beta. cbn [INR pred]. unfold Rsqr.
      replace (- t + x)%R with (x - t)%R by ring. field.
      repeat split; try exact C;
        apply Rgt_not_eq; pose proof (pow2_ge_0 (s * (x - t))); Lra.nra.
  - differentiate.
Qed.

Lemma moving_front_derivatives_are_the_gradient_witness :
  1%R <> 0%R /\
  derivable_pt_lim
    (fun x' => MovingFront.CustomExactSolution_value 0 10 2 1 PI 1 x' 0) 3
    (fst (MovingFront.CustomExactSolution_derivatives 0 10 2 1 PI 1 3 0)).
Proof.
  split; [Lra.lra|].
  exact (proj1 (moving_front_derivatives_are_the_gradient 0 10 2 1 PI 1 3 0
                  ltac:(Lra.lra))).
Defined.

(** X6.  The source term of moving-front agrees with its exact solution:
    [CustomFunction::value(x, y, t)] is the second derivative in [x] of the
    exact solution minus its derivative in [t], so the exact solution [u]
    solves [du/dt - d2u/dx2 = - CustomFunction::value].  The second
    derivative is taken of the [dx] that [CustomExactSolution::derivatives]
    returns. *)
Theorem moving_front_source_matches_exact_solution
    (x0 x1 s c M_PI t x y : R) :
  c <> 0%R ->
  exists u_t u_xx : R,
    derivable_pt_lim
      (fun t' => MovingFront.CustomExactSolution_value x0 x1 s c M_PI t' x y)
      t u_t /\
    derivable_pt_lim
      (fun x' =>
         fst (MovingFront.CustomExactSolution_derivatives x0 x1 s c M_PI t x' y))
      x u_xx /\
    MovingFront.CustomFunction_value x0 x1 s c M_PI x y t = (u_xx - u_t)%R.
Proof.
  intros C.
  unfold MovingFront.CustomExactSolution_value,
    MovingFront.CustomExactSolution_derivatives,
    MovingFront.CustomFunction_value.
  cbn [fst snd]. eexists. eexists. split; [|split].
  - differentiate. exact C.
  - differentiate; try exact C.
    all: cbn beta.
    all: try apply moving_front_denominator.
    all: apply Rmult_integral_contrapositive_currified;
      [exact C|apply moving_front_denominator].
  - cbn beta. cbn [INR pred]. unfold Rsqr.
    replace (- t + x)%R with (x - t)%R by ring. field.
    repeat split; try exact C;
      apply Rgt_not_eq; pose proof (pow2_ge_0 (s * (x - t)));
      pose proof (pow2_ge_0 t); Lra.nra.
Qed.

Lemma moving_front_source_matches_exact_solution_witness :
  1%R <> 0%R /\
  exists u_t u_xx : R,
    derivable_pt_lim
      (fun t' => MovingFront.CustomExactSolution_value 0 10 2 1 PI t' 3 0)
      1 u_t /\
    derivable_pt_lim
      (fun x' =>
         fst (MovingFront.CustomExactSolution_derivatives 0 10 2 1 PI 1 x' 0))
      3 u_xx /\
    MovingFront.CustomFunction_value 0 10 2 1 PI 3 0 1 = (u_xx - u_t)%R.
Proof.
  split; [Lra.lra|].
  exact (moving_front_source_matches_exact_solution 0 10 2 1 PI 1 3 0
           ltac:(Lra.lra)).
Defined.

(** ** Forms *)

(** A loop that adds one term per pass computes the sum of the terms. *)
Lemma for_loop_ext {A : Type} (n : Z) (body body' : nat -> A -> A) (init : A) :
  (forall i r, body i r = body' i r) ->
  for_loop n body init = for_loop n body' init.
Proof.
  intros E. unfold for_loop. revert init.
  induction (seq 0 (Z.to_nat n)) as [|i l IH]; intros init; [reflexivity|].
  cbn [fold_left]. rewrite E. apply IH.
Qed.

Lemma for_loop_linear (n : Z) (g1 g2 : nat -> R) (a : R) :
  for_loop n (fun i r => r + (g1 i + a * g2 i))%R 0%R
  = (for_loop n (fun i r => r + g1 i)%R 0%R
     + a * for_loop n (fun i r => r + g2 i)%R 0%R)%R.
Proof.
  unfold for_loop.
  assert (G : forall l r1 r2,
             fold_left (fun r i => r + (g1 i + a * g2 i))%R l (r1 + a * r2)%R
             = (fold_left (fun r i => r + g1 i)%R l r1
                + a * fold_left (fun r i => r + g2 i)%R l r2)%R).
  { induction l as [|i l IH]; intros r1 r2; [reflexivity|].
    cbn [fold_left]. rewrite <- IH. f_equal. ring. }
  rewrite <- G. f_equal. ring.
Qed.

(** X7.  The volume vector form of moving-front is linear in the test
    function, for each of the three geometries, and its axisymmetric
    variants are the planar form with every weight multiplied by the
    coordinate that is the distance from the axis ([y] for HERMES_AXISYM_X,
    [x] otherwise). *)
Theorem moving_front_vector_form_linear
    (x0 x1 s c M_PI time : R) (gt : Quadrature.GeomType) (n : Z)
    (wt : nat -> R) (v1 v2 : Quadrature.Func) (a : R) (e : Quadrature.Geom) :
  MovingFront.CustomVectorFormVol_value x0 x1 s c M_PI gt time n wt
    (Quadrature.mkFunc
       (fun i => Quadrature.val v1 i + a * Quadrature.val v2 i)%R
       (fun i => Quadrature.dx v1 i + a * Quadrature.dx v2 i)%R
       (fun i => Quadrature.dy v1 i + a * Quadrature.dy v2 i)%R
       (fun i => Quadrature.laplace v1 i + a * Quadrature.laplace v2 i)%R) e
  = (MovingFront.CustomVectorFormVol_value x0 x1 s c M_PI gt time n wt v1 e
     + a * MovingFront.CustomVectorFormVol_value x0 x1 s c M_PI gt time n wt
             v2 e)%R
  /\
  MovingFront.CustomVectorFormVol_value x0 x1 s c M_PI
    Quadrature.HERMES_AXISYM_X time n wt v1 e
  = MovingFront.CustomVectorFormVol_value x0 x1 s c M_PI
      Quadrature.HERMES_PLANAR time n
      (fun i => wt i * Quadrature.y e i)%R v1 e
  /\
  MovingFront.CustomVectorFormVol_value x0 x1 s c M_PI
    Quadrature.HERMES_AXISYM_Y time n wt v1 e
  = MovingFront.CustomVectorFormVol_value x0 x1 s c M_PI
      Quadrature.HERMES_PLANAR time n
      (fun i => wt i * Quadrature.x e i)%R v1 e.
Proof.
  split; [|split; reflexivity].
  unfold MovingFront.CustomVectorFormVol_value.
  destruct gt; cbn [Quadrature.val];
    rewrite <- for_loop_linear; apply for_loop_ext; intros i r; ring.
Qed.

Lemma for_loop_linear_bodies (n : Z) (body body1 body2 : nat -> R -> R)
    (a : R) :
  (forall i r, body1 i r = (r + body1 i 0)%R) ->
  (forall i r, body2 i r = (r + body2 i 0)%R) ->
  (forall i r, body i r = (r + (body1 i 0 + a * body2 i 0))%R) ->
  for_loop n body 0%R
  = (for_loop n body1 0 + a * for_loop n body2 0)%R.
Proof.
  intros E1 E2 E.
  rewrite (for_loop_ext n body _ 0%R E).
  rewrite (for_loop_ext n body1 _ 0%R E1).
  rewrite (for_loop_ext n body2 _ 0%R E2).
  apply (for_loop_linear n (fun i => body1 i 0%R) (fun i => body2 i 0%R)).
Qed.

(** X8.  The volume matrix form of the linear advection-diffusion example
    is linear in the test function [v], whatever the stabilization and
    shock-capturing switches are; with shock capturing off it is linear in
    the basis function [u] as well, so it is a bilinear form.  (With shock
    capturing on, [u] enters through square roots.) *)
Theorem advection_diffusion_matrix_form_linear
    (b1 b2 epsilon : R) (stabilization_on shock_capturing_on second : bool)
    (n : Z) (wt : nat -> R) (w w1 w2 : Quadrature.Func) (a h_e : R) :
  let plus f g :=
    Quadrature.mkFunc
      (fun i => Quadrature.val f i + a * Quadrature.val g i)%R
      (fun i => Quadrature.dx f i + a * Quadrature.dx g i)%R
      (fun i => Quadrature.dy f i + a * Quadrature.dy g i)%R
      (fun i => Quadrature.laplace f i + a * Quadrature.laplace g i)%R in
  AdvectionDiffusion.matrix_form b1 b2 epsilon stabilization_on
    shock_capturing_on second n wt w (plus w1 w2) h_e
  = (AdvectionDiffusion.matrix_form b1 b2 epsilon stabilization_on
       shock_capturing_on second n wt w w1 h_e
     + a * AdvectionDiffusion.matrix_form b1 b2 epsilon stabilization_on
             shock_capturing_on second n wt w w2 h_e)%R
  /\
  AdvectionDiffusion.matrix_form b1 b2 epsilon stabilization_on
    false second n wt (plus w1 w2) w h_e
  = (AdvectionDiffusion.matrix_form b1 b2 epsilon stabilization_on
       false second n wt w1 w h_e
     + a * AdvectionDiffusion.matrix_form b1 b2 epsilon stabilization_on
             false second n wt w2 w h_e)%R.
Proof.
  intros plus. unfold AdvectionDiffusion.matrix_form, plus.
  cbn [Quadrature.val Quadrature.dx Quadrature.dy Quadrature.laplace].
  split.
  - apply for_loop_linear_bodies; intros i r;
      destruct shock_capturing_on, (second && stabilization_on);
      cbn zeta; unfold Rdiv; ring.
  - apply for_loop_linear_bodies; intros i r;
      destruct (second && stabilization_on);
      cbn zeta; unfold Rdiv; ring.
Qed.

(** ** The Kuzmin limiter of the Euler time loop *)

Lemma store_same (a : EulerKuzmin.array) (i : Z) (v : Q) :
  EulerKuzmin.store a i v i = v.
Proof. unfold EulerKuzmin.store. rewrite Z.eqb_refl. reflexivity. Qed.

Lemma store_other (a : EulerKuzmin.array) (i j : Z) (v : Q) :
  j <> i -> EulerKuzmin.store a i v j = a j.
Proof.
  intros N. unfold EulerKuzmin.store.
  destruct (Z.eqb_spec j i); [contradiction|reflexivity].
Qed.

(** The first element loop does not touch the entries of other elements. *)
Lemma real_vector_fold_other (sol : EulerKuzmin.array) (offset : Z)
    (els : list EulerKuzmin.AsmList) (init : EulerKuzmin.array) (i : Z) :
  ~ In i (EulerKuzmin.dofs_of els) ->
  fold_left (EulerKuzmin.real_vector_step sol offset) els init i = init i.
Proof.
  revert init. induction els as [|al els IH]; intros init N; [reflexivity|].
  cbn [fold_left]. rewrite IH.
  - unfold EulerKuzmin.real_vector_step.
    cbn [EulerKuzmin.dofs_of flat_map app In] in N.
    rewrite !store_other; [reflexivity| | |]; intros E; apply N; auto.
  - intros I. apply N. cbn [EulerKuzmin.dofs_of flat_map].
    apply in_or_app. right. exact I.
Qed.

(** What the first element loop leaves at the three entries of an element
    when no index occurs twice. *)
Lemma real_vector_of_at (sol : EulerKuzmin.array) (offset : Z)
    (els : list EulerKuzmin.AsmList) (al : EulerKuzmin.AsmList) :
  NoDup (EulerKuzmin.dofs_of els) -> In al els ->
  let real := EulerKuzmin.real_vector_of sol offset els in
  let d0 := EulerKuzmin.dof al 0 in
  let d1 := EulerKuzmin.dof al 1 in
  let d2 := EulerKuzmin.dof al 2 in
  real d0 = (sol (offset + d0)%Z / sol d0)%Q /\
  real d1 = ((sol (offset + d1)%Z - sol (offset + d0)%Z / sol d0 * sol d1)
             / sol d0)%Q /\
  real d2 = ((sol (offset + d2)%Z - sol (offset + d0)%Z / sol d0 * sol d2)
             / sol d0)%Q.
Proof.
  unfold EulerKuzmin.real_vector_of. generalize (fun _ : Z => 0%Q) as init.
  induction els as [|a els IH]; intros init ND I; [destruct I|].
  cbn [EulerKuzmin.dofs_of flat_map app] in ND.
  change (flat_map _ els) with (EulerKuzmin.dofs_of els) in ND.
  inversion ND as [|? ? N0 ND0]; subst.
  inversion ND0 as [|? ? N1 ND1]; subst.
  inversion ND1 as [|? ? N2 ND2]; subst.
  cbn [fold_left]. destruct I as [-> | I].
  - assert (O0 : ~ In (EulerKuzmin.dof al 0) (EulerKuzmin.dofs_of els))
      by (intros X; apply N0; cbn [In]; auto).
    assert (O1 : ~ In (EulerKuzmin.dof al 1) (EulerKuzmin.dofs_of els))
      by (intros X; apply N1; cbn [In]; auto).
    rewrite !real_vector_fold_other by assumption.
    unfold EulerKuzmin.real_vector_step.
    assert (E01 : EulerKuzmin.dof al 0 <> EulerKuzmin.dof al 1)
      by (intros X; apply N0; cbn [In]; auto).
    assert (E02 : EulerKuzmin.dof al 0 <> EulerKuzmin.dof al 2)
      by (intros X; apply N0; cbn [In]; auto).
    assert (E12 : EulerKuzmin.dof al 1 <> EulerKuzmin.dof al 2)
      by (intros X; apply N1; cbn [In]; auto).
    repeat split.
    + rewrite store_other, store_other, store_same by congruence. reflexivity.
    + rewrite store_other, store_same by congruence.
      rewrite store_same. reflexivity.
    + rewrite store_same. rewrite store_other, store_same by congruence.
      reflexivity.
  - apply IH; [exact ND2|exact I].
Qed.

(** The second element loop keeps every entry equal to the one it started
    from when, element by element, what it writes is what was there. *)
Lemma conservative_vector_fold_keeps (sol : EulerKuzmin.array) (offset : Z)
    (real : EulerKuzmin.array) (els : list EulerKuzmin.AsmList) :
  (forall al, In al els ->
     (sol (EulerKuzmin.dof al 0) * real (EulerKuzmin.dof al 1)
      + sol (EulerKuzmin.dof al 1) * real (EulerKuzmin.dof al 0)
      == sol (offset + EulerKuzmin.dof al 1)%Z)%Q /\
     (sol (EulerKuzmin.dof al 0) * real (EulerKuzmin.dof al 2)
      + sol (EulerKuzmin.dof al 2) * real (EulerKuzmin.dof al 0)
      == sol (offset + EulerKuzmin.dof al 2)%Z)%Q) ->
  forall cur : EulerKuzmin.array,
    (forall i, (cur i == sol i)%Q) ->
    forall i, (EulerKuzmin.conservative_vector_of cur offset els real i
               == sol i)%Q.
Proof.
  unfold EulerKuzmin.conservative_vector_of.
  induction els as [|al els IH]; intros W cur C i; [apply C|].
  cbn [fold_left]. apply IH.
  - intros a I. apply W. right. exact I.
  - intros j. unfold EulerKuzmin.conservative_vector_step.
    destruct (W al (or_introl eq_refl)) as [W1 W2].
    unfold EulerKuzmin.store at 1.
    destruct (Z.eqb_spec j (offset + EulerKuzmin.dof al 2)) as [->|N2].
    + rewrite <- W2.
      assert (S1 : forall k,
                 (EulerKuzmin.store cur (offset + EulerKuzmin.dof al 1)
                    (cur (EulerKuzmin.dof al 0) * real (EulerKuzmin.dof al 1)
                     + cur (EulerKuzmin.dof al 1) * real (EulerKuzmin.dof al 0))
                    k == sol k)%Q).
      { intros k. unfold EulerKuzmin.store.
        destruct (Z.eqb_spec k (offset + EulerKuzmin.dof al 1)) as [->|N1];
          [|apply C].
        rewrite !C. exact W1. }
      rewrite !S1. reflexivity.
    + unfold EulerKuzmin.store.
      destruct (Z.eqb_spec j (offset + EulerKuzmin.dof al 1)) as [->|N1];
        [|apply C].
      rewrite !C. exact W1.
Qed.

(** X9.  Kuzmin limiting in the Euler time loop, one component (momentum
    or energy): the conversion of the Taylor coefficients from conservative
    to real quantities and back loses nothing.  When the limiter of the
    library returns the real coefficients it was given, every entry of the
    solution vector is what it was.  It needs the density mean
    [sol[dof[0]]] of every element to be nonzero and no index to occur in
    two places of the assembly lists. *)
Theorem kuzmin_conversion_round_trip
    (limiter : EulerKuzmin.array -> EulerKuzmin.array)
    (sol : EulerKuzmin.array) (component ndof : Z)
    (els : list EulerKuzmin.AsmList) :
  NoDup (EulerKuzmin.dofs_of els) ->
  (forall al, In al els -> ~ (sol (EulerKuzmin.dof al 0) == 0)%Q) ->
  (forall i,
     (limiter (EulerKuzmin.real_vector_of sol (component * ndof) els) i
      == EulerKuzmin.real_vector_of sol (component * ndof) els i)%Q) ->
  forall i,
    (EulerKuzmin.limit_component limiter sol component ndof els i
     == sol i)%Q.
Proof.
  intros ND NZ L i. unfold EulerKuzmin.limit_component.
  apply conservative_vector_fold_keeps; [|intros; reflexivity].
  intros al I.
  destruct (real_vector_of_at sol (component * ndof) els al ND I)
    as (R0 & R1 & R2).
  cbn zeta in R0, R1, R2. rewrite !L, R0, R1, R2.
  pose proof (NZ al I) as Z0. split; field; exact Z0.
Qed.

Lemma kuzmin_conversion_round_trip_witness :
  NoDup (EulerKuzmin.dofs_of [EulerKuzmin.mkAsmList Z.of_nat]) /\
  (EulerKuzmin.limit_component (fun a => a) (fun i => inject_Z (i + 1)) 1 3
     [EulerKuzmin.mkAsmList Z.of_nat] 4%Z == inject_Z 5)%Q.
Proof.
  assert (ND : NoDup (EulerKuzmin.dofs_of [EulerKuzmin.mkAsmList Z.of_nat])).
  { cbn. repeat constructor; cbn; intros E; decompose [or] E;
      try discriminate; assumption. }
  split; [exact ND|].
  apply (kuzmin_conversion_round_trip (fun a => a)
           (fun i => inject_Z (i + 1)) 1 3
           [EulerKuzmin.mkAsmList Z.of_nat] ND).
  - intros al [<- | []]. cbn. discriminate.
  - intros i. reflexivity.
Defined.

(** The second element loop writes at the second and third entry of every
    element, shifted to the component, and nowhere else. *)
Lemma conservative_vector_of_other (sol real : EulerKuzmin.array) (offset : Z)
    (els : list EulerKuzmin.AsmList) (i : Z) :
  (forall al, In al els ->
     i <> offset + EulerKuzmin.dof al 1 /\ i <> offset + EulerKuzmin.dof al 2) ->
  EulerKuzmin.conservative_vector_of sol offset els real i = sol i.
Proof.
  unfold EulerKuzmin.conservative_vector_of. revert sol.
  induction els as [|al els IH]; intros sol N; [reflexivity|].
  cbn [fold_left]. rewrite IH by (intros a I; apply N; right; exact I).
  unfold EulerKuzmin.conservative_vector_step.
  destruct (N al (or_introl eq_refl)) as [N1 N2].
  rewrite !store_other by assumption. reflexivity.
Qed.

Lemma dofs_of_in (els : list EulerKuzmin.AsmList) (al : EulerKuzmin.AsmList) :
  In al els ->
  In (EulerKuzmin.dof al 0) (EulerKuzmin.dofs_of els) /\
  In (EulerKuzmin.dof al 1) (EulerKuzmin.dofs_of els) /\
  In (EulerKuzmin.dof al 2) (EulerKuzmin.dofs_of els).
Proof.
  intros I. unfold EulerKuzmin.dofs_of.
  repeat split; apply in_flat_map; exists al; cbn [In]; auto.
Qed.

(** With no index in two places, the first entry of an element is not the
    second or third entry of any element. *)
Lemma dofs_of_mean_apart (els : list EulerKuzmin.AsmList)
    (al al' : EulerKuzmin.AsmList) :
  NoDup (EulerKuzmin.dofs_of els) -> In al els -> In al' els ->
  EulerKuzmin.dof al 0 <> EulerKuzmin.dof al' 1 /\
  EulerKuzmin.dof al 0 <> EulerKuzmin.dof al' 2.
Proof.
  induction els as [|a els IH]; intros ND I I'; [destruct I|].
  cbn [EulerKuzmin.dofs_of flat_map app] in ND.
  change (flat_map _ els) with (EulerKuzmin.dofs_of els) in ND.
  inversion ND as [|? ? N0 ND0]; subst.
  inversion ND0 as [|? ? N1 ND1]; subst.
  inversion ND1 as [|? ? N2 ND2]; subst.
  destruct I as [-> | I], I' as [-> | I'].
  - split; intros E; apply N0; rewrite E; cbn [In]; auto.
  - destruct (dofs_of_in _ _ I') as (_ & D1 & D2).
    split; intros E; apply N0; rewrite E; cbn [In]; auto.
  - destruct (dofs_of_in _ _ I) as (D0 & _ & _).
    split; intros E; [apply N1|apply N2]; rewrite <- E; cbn [In]; auto.
  - apply IH; assumption.
Qed.

(** X10.  Kuzmin limiting of a component is conservative, whatever the
    limiter of the library returns: the density coefficients (the first
    [ndof] entries of the solution vector) are not written, and neither is
    the mean value of the limited component on any element (its entry at
    [dof[0]]); only the slopes at [dof[1]] and [dof[2]] are recomputed.  The
    indices of the assembly lists must lie in [0, ndof) and be distinct. *)
Theorem kuzmin_limiting_keeps_density_and_means
    (limiter : EulerKuzmin.array -> EulerKuzmin.array)
    (sol : EulerKuzmin.array) (component ndof : Z)
    (els : list EulerKuzmin.AsmList) :
  1 <= component ->
  (forall al, In al els ->
     0 <= EulerKuzmin.dof al 1 < ndof /\ 0 <= EulerKuzmin.dof al 2 < ndof) ->
  NoDup (EulerKuzmin.dofs_of els) ->
  (forall i, 0 <= i < ndof ->
     EulerKuzmin.limit_component limiter sol component ndof els i = sol i) /\
  (forall al, In al els ->
     EulerKuzmin.limit_component limiter sol component ndof els
       (component * ndof + EulerKuzmin.dof al 0)
     = sol (component * ndof + EulerKuzmin.dof al 0)).
Proof.
  intros C Rg ND. unfold EulerKuzmin.limit_component. split.
  - intros i Ri. apply conservative_vector_of_other.
    intros al I. destruct (Rg al I) as [R1 R2]. split; nia.
  - intros al I. apply conservative_vector_of_other.
    intros al' I'. destruct (dofs_of_mean_apart els al al' ND I I') as [N1 N2].
    split; lia.
Qed.

Lemma kuzmin_limiting_keeps_density_and_means_witness :
  EulerKuzmin.limit_component (fun _ _ => 7%Q) (fun i => inject_Z (i + 1)) 1 3
    [EulerKuzmin.mkAsmList Z.of_nat] 3 = inject_Z (3 + 1).
Proof.
  assert (ND : NoDup (EulerKuzmin.dofs_of [EulerKuzmin.mkAsmList Z.of_nat])).
  { cbn. repeat constructor; cbn; intros E; decompose [or] E;
      try discriminate; assumption. }
  refine (proj2 (kuzmin_limiting_keeps_density_and_means (fun _ _ => 7%Q)
                   (fun i => inject_Z (i + 1)) 1 3
                   [EulerKuzmin.mkAsmList Z.of_nat] ltac:(lia) _ ND)
            (EulerKuzmin.mkAsmList Z.of_nat) (or_introl eq_refl)).
  intros al [<- | []]. cbn. lia.
Defined.

(** ** Loops, continued *)

Section MoreLoops.
Context {S : Type} (body : S -> Flow S) (again : S -> bool).

(** A loop that has finished made some passes and then one more, which
    either failed the [while] test or left by [break]. *)
Lemma do_while_finished (fuel : nat) (s s' : S) :
  do_while body again fuel s = Finished s' ->
  exists k s1,
    passes body again k s s1 /\
    (body s1 = Normal s' /\ again s' = false \/ body s1 = LoopBreak s').
Proof.
  revert s. induction fuel as [|n IH]; intros s E; [discriminate|].
  cbn [do_while] in E. destruct (body s) as [a|a|m a|c a|a] eqn:B;
    try discriminate.
  - destruct (again a) eqn:A.
    + destruct (IH _ E) as (k & s1 & P & L).
      exists (Datatypes.S k), s1. split; [|exact L].
      exact (passes_S body again k s a s1 B A P).
    + injection E as <-. exists O, s. split; [apply passes_O|].
      left. split; [exact B|exact A].
  - injection E as <-. exists O, s. split; [apply passes_O|].
    right. exact B.
Qed.

(** What every pass preserves, the last one included, holds between the
    start of a loop and its end. *)
Lemma do_while_preserve (R : S -> S -> Prop) :
  (forall s, R s s) ->
  (forall s1 s2 s3, R s1 s2 -> R s2 s3 -> R s1 s3) ->
  (forall s s1, body s = Normal s1 -> R s s1) ->
  (forall s s1, body s = LoopBreak s1 -> R s s1) ->
  forall fuel s s', do_while body again fuel s = Finished s' -> R s s'.
Proof.
  intros Rrefl Rtrans Rstep Rbreak fuel s s' E.
  destruct (do_while_finished _ _ _ E) as (k & s1 & P & L).
  apply (Rtrans _ s1).
  - exact (passes_preserve body again R Rrefl Rtrans Rstep k s s1 P).
  - destruct L as [[B _]|B]; [exact (Rstep _ _ B)|exact (Rbreak _ _ B)].
Qed.

(** A loop in which every pass that asks for another one raises a measure
    by at least one, and asks for none once the measure has reached a
    bound, stops within the distance to the bound plus one passes. *)
Lemma do_while_stops_by_measure (m : S -> Z) (bound : Z) :
  (forall s s', body s <> Spinning s') ->
  (forall s s', body s = Normal s' -> again s' = true ->
                m s < bound /\ m s + 1 <= m s') ->
  forall (n : nat) (s : S),
    bound - m s <= Z.of_nat n ->
    stopped (do_while body again (Datatypes.S n) s) = true.
Proof.
  intros Sp St n. induction n as [|n IH]; intros s L.
  - cbn [do_while]. destruct (body s) as [a|a|msg a|c a|a] eqn:B;
      try reflexivity.
    + destruct (again a) eqn:A; [|reflexivity].
      destruct (St _ _ B A) as [Lt _]. change (Z.of_nat 0) with 0 in L. lia.
    + exfalso. exact (Sp _ _ B).
  - cbn [do_while]. destruct (body s) as [a|a|msg a|c a|a] eqn:B;
      try reflexivity.
    + destruct (again a) eqn:A; [|reflexivity].
      apply IH. destruct (St _ _ B A) as [_ Gr]. lia.
    + exfalso. exact (Sp _ _ B).
Qed.
End MoreLoops.

(** ** The ceiling on the number of unknowns *)

(** X11.  NDOF_STOP bounds the number of passes of an adaptivity loop as
    soon as every refinement adds at least one unknown to the coarse space.
    1d/layer-boundary, started on a space of [ndof] unknowns, stops within
    [NDOF_STOP - ndof + 1] passes; the spatial loop of a time step of seepage
    within [NDOF_STOP - ndof] passes (it tests the ceiling after refining).
    The loop may stop by an exception instead of by its stop check. *)
Theorem dof_ceiling_bounds_the_passes :
  (forall (H : Hermes) (wf : WeakForm) (exact_sln : MeshFunction),
      (forall th cl ec sp,
          get_num_dofs sp < get_num_dofs (snd (adapt th cl ec sp))) ->
      forall (n : nat) (s : LayerBoundary1D.State),
        LayerBoundary1D.NDOF_STOP - get_num_dofs (LayerBoundary1D.space s)
          <= Z.of_nat n ->
        stopped (LayerBoundary1D.adaptivity_loop wf exact_sln
                   (Datatypes.S n) s) = true)
  /\
  (forall (H : Hermes) (wf : WeakForm)
          (construct_refined_space : Space -> Space)
          (project_to_vector : Space -> MeshFunction -> Vector)
          (solve_newton : WeakForm -> Q -> Vector -> Space -> option Vector)
          (calc_err_est : Space -> MeshFunction -> MeshFunction ->
                          Q * ErrorCalculator)
          (adapt_strategy : CandList -> Q -> Q -> Z -> Z -> ErrorCalculator ->
                            Space -> bool * Space),
      (forall cl ce th st mr ec sp,
          get_num_dofs sp
            < get_num_dofs (snd (adapt_strategy cl ce th st mr ec sp))) ->
      forall (n : nat) (s : Seepage.State),
        Seepage.NDOF_STOP - 1 - get_num_dofs (Seepage.space s)
          <= Z.of_nat n ->
        stopped (Seepage.adaptivity_loop wf construct_refined_space
                   project_to_vector solve_newton calc_err_est adapt_strategy
                   (Datatypes.S n) s) = true).
Proof.
  split.
  - intros H wf exact_sln adds n s L.
    unfold LayerBoundary1D.adaptivity_loop.
    apply (do_while_stops_by_measure _ _
             (fun x => get_num_dofs (LayerBoundary1D.space x))
             LayerBoundary1D.NDOF_STOP); [| |exact L].
    + intros a b. unfold LayerBoundary1D.adaptivity_step.
      destruct (newton_solve _ _ _ _ _) as [vec|]; [|discriminate].
      destruct (project_global _ _) as [sln'|]; discriminate.
    + intros a b. unfold LayerBoundary1D.adaptivity_step.
      destruct (newton_solve _ _ _ _ _) as [vec|]; [|discriminate].
      destruct (project_global _ _) as [sln'|]; [|discriminate].
      intros E. injection E as <-. cbn -[Qltb Zgeb].
      destruct (Qltb _ _); [discriminate|]. cbn [orb].
      destruct (Zgeb _ _) eqn:G; [discriminate|].
      apply Zgeb_false in G. intros _. split; [exact G|].
      match goal with |- _ <= get_num_dofs (snd (adapt ?th ?cl ?ec ?sp)) =>
        pose proof (adds th cl ec sp) end.
      lia.
  - intros H wf crs ptv sn cee ast adds n s L.
    unfold Seepage.adaptivity_loop.
    apply (do_while_stops_by_measure _ _
             (fun x => get_num_dofs (Seepage.space x))
             (Seepage.NDOF_STOP - 1)); [| |exact L].
    + intros a b. unfold Seepage.adaptivity_step.
      destruct (sn _ _ _ _) as [vec|]; [|discriminate].
      destruct (project_global _ _) as [sln'|]; [|discriminate].
      destruct (Qltb _ _); [discriminate|].
      destruct (Zgeb _ _); discriminate.
    + intros a b. unfold Seepage.adaptivity_step.
      destruct (sn _ _ _ _) as [vec|]; [|discriminate].
      destruct (project_global _ _) as [sln'|]; [|discriminate].
      destruct (Qltb _ _); [intros E; injection E as <-; discriminate|].
      destruct (Zgeb _ _) eqn:G; [discriminate|].
      apply Zgeb_false in G.
      intros E. injection E as <-. cbn [Seepage.space Seepage.done].
      intros _.
      match goal with
      | |- _ /\ _ <= get_num_dofs (snd (ast ?cl ?ce ?th ?st ?mr ?ec ?sp)) =>
          pose proof (adds cl ce th st mr ec sp)
      end.
      lia.
Qed.

(** The refinement [grow] of the small library adds at least one unknown. *)
Lemma toy_grow_adds (s : Toy.space) :
  Toy.dofs s < Toy.dofs (snd (MoreRuns.grow s)).
Proof.
  unfold MoreRuns.grow, Toy.dofs. cbn [snd Toy.level Toy.order].
  destruct s as [l p]. cbn [Toy.level Toy.order].
  destruct (Z.max_spec 0 l) as [[Ll ->]|[Ll ->]].
  - assert (0 < 2 ^ l) by (apply Z.pow_pos_nonneg; lia).
    destruct (Z.max_spec 1 p) as [[Lp ->]|[Lp ->]]; nia.
  - assert (l < 0 \/ l = 0) as [N | ->] by lia.
    + rewrite (Z.pow_neg_r 2 l N). change (2 ^ 0) with 1. lia.
    + change (2 ^ 0) with 1. lia.
Qed.

Lemma dof_ceiling_bounds_the_passes_witness :
  stopped (LayerBoundary1D.adaptivity_loop (H := Toy.lib MoreRuns.growing)
             tt (Toy.const_on Toy.coarse0 3) 998
             (LayerBoundary1D.initial (H := Toy.lib MoreRuns.growing)
                Toy.coarse0 (Toy.zero_on Toy.coarse0) [])) = true.
Proof.
  refine (proj1 dof_ceiling_bounds_the_passes (Toy.lib MoreRuns.growing)
            tt (Toy.const_on Toy.coarse0 3) _ 997%nat _ _).
  - intros th cl ec sp. exact (toy_grow_adds sp).
  - cbn [LayerBoundary1D.initial LayerBoundary1D.space].
    change (@get_num_dofs (Toy.lib MoreRuns.growing) Toy.coarse0) with 3.
    change LayerBoundary1D.NDOF_STOP with 1000. lia.
Defined.

(** Two passes in a row. *)
Lemma passes_2 {S : Type} (body : S -> Flow S) (again : S -> bool)
    (s0 s1 s2 : S) :
  body s0 = Normal s1 -> again s1 = true ->
  body s1 = Normal s2 -> again s2 = true ->
  passes body again 2 s0 s2.
Proof.
  intros B0 A0 B1 A1.
  exact (passes_S _ _ _ _ _ _ B0 A0
           (passes_S _ _ _ _ _ _ B1 A1 (passes_O _ _ _))).
Qed.

(** ** The coarse solutions of the 4-group driver *)

(** X12.  The 4-group driver never assigns [coarse_solutions]: the
    projection of the fine solutions on the coarse meshes is commented out.
    So in every pass of the adaptivity loop, however many went before, the
    H1 and the L2 error estimate compare the fine solutions of that pass
    (the power iterates) with the coarse solutions the loop was started
    with. *)
Theorem four_group_errors_use_initial_coarse_solutions
    (H : Hermes) (wf : WeakForm)
    (power_iteration : WeakForm -> list Space -> list MeshFunction -> Q ->
                       option (list MeshFunction))
    (h1 l2 : ErrorCalculator) (k : nat) (s s1 s2 : Neutronics.State) :
  passes (Neutronics.adaptivity_step wf power_iteration h1 l2)
         (fun x => negb (Neutronics.done x)) k s s1 ->
  Neutronics.adaptivity_step wf power_iteration h1 l2 s1 = Normal s2 ->
  Neutronics.coarse_solutions s2 = Neutronics.coarse_solutions s /\
  Neutronics.fine_solutions s2 = Neutronics.power_iterates s2 /\
  Neutronics.h1_err_est s2 =
    (get_total_error_squared
       (calculate_errors h1 (Neutronics.coarse_solutions s)
          (Neutronics.fine_solutions s2) true) * 100)%Q /\
  Neutronics.l2_err_est s2 =
    (get_total_error_squared
       (calculate_errors l2 (Neutronics.coarse_solutions s)
          (Neutronics.fine_solutions s2) true) * 100)%Q.
Proof.
  intros P B.
  assert (K : Neutronics.coarse_solutions s1 = Neutronics.coarse_solutions s).
  { refine (passes_preserve _ _
              (fun a b => Neutronics.coarse_solutions b
                          = Neutronics.coarse_solutions a)
              _ _ _ k s s1 P); [reflexivity|intros; congruence|].
    intros a b. unfold Neutronics.adaptivity_step.
    destruct (power_iteration _ _ _ _); [|discriminate].
    intros E. injection E as <-. reflexivity. }
  revert B. unfold Neutronics.adaptivity_step.
  destruct (power_iteration _ _ _ _); [|discriminate].
  intros E. injection E as <-.
  cbn [Neutronics.coarse_solutions Neutronics.fine_solutions
         Neutronics.power_iterates Neutronics.h1_err_est
         Neutronics.l2_err_est].
  rewrite K. repeat split; reflexivity.
Qed.

Lemma four_group_errors_use_initial_coarse_solutions_witness :
  exists s2,
    Neutronics.coarse_solutions s2
    = Neutronics.coarse_solutions (Runs.neutronics_state Runs.small4 1) /\
    Neutronics.as_ s2 = 4.
Proof.
  eexists. split.
  - refine (proj1 (four_group_errors_use_initial_coarse_solutions
                     (Toy.lib Toy.steady) tt
                     (Toy.power_iteration [1; 2; 1; 1]%Q) [] [] 2%nat
                     (Runs.neutronics_state Runs.small4 1) _ _ _ _)).
    + eapply passes_2; reflexivity.
    + reflexivity.
  - reflexivity.
Defined.

(** ** The time step of wall-on-fire *)

(** What one pass of the spatial loop of wall-on-fire leaves alone. *)
Lemma wall_on_fire_step_frame (H : Hermes) (wf : WeakForm)
    (bt_is_embedded adaptive : bool) (s s' : WallOnFire.State) :
  WallOnFire.adaptivity_step wf bt_is_embedded adaptive s = Normal s' ->
  WallOnFire.current_time s' = WallOnFire.current_time s /\
  WallOnFire.ts s' = WallOnFire.ts s /\
  WallOnFire.ndof s' = WallOnFire.ndof s /\
  (adaptive = false -> WallOnFire.time_step s' = WallOnFire.time_step s) /\
  ((0 <= WallOnFire.time_step s)%Q -> (0 <= WallOnFire.time_step s')%Q).
Proof.
  unfold WallOnFire.adaptivity_step.
  destruct (project_global _ (WallOnFire.sln_prev_time s)) as [p|];
    [|discriminate].
  destruct (rk_time_step_newton _ _ _ _ _ _) as [[r e]|]; [|discriminate].
  destruct adaptive; cbn [andb].
  - destruct (Qltb WallOnFire.TIME_ERR_TOL_UPPER _).
    + intros E. injection E as <-.
      cbn [WallOnFire.current_time WallOnFire.ts WallOnFire.ndof
             WallOnFire.time_step].
      repeat split; try discriminate.
      intros L. unfold WallOnFire.TIME_STEP_DEC_RATIO. lra.
    + destruct (project_global _ r) as [sln|]; [|discriminate].
      intros E. injection E as <-.
      cbn [WallOnFire.current_time WallOnFire.ts WallOnFire.ndof
             WallOnFire.time_step].
      repeat split; try discriminate.
      intros L. destruct (Qltb _ WallOnFire.TIME_ERR_TOL_LOWER); [|exact L].
      unfold WallOnFire.TIME_STEP_INC_RATIO. lra.
  - destruct (project_global _ r) as [sln|]; [|discriminate].
    intros E. injection E as <-.
    cbn [WallOnFire.current_time WallOnFire.ts WallOnFire.ndof
           WallOnFire.time_step].
    repeat split; auto.
Qed.



(** X14.  A time step of wall-on-fire that comes to its end moves the step
    number on by one and sets the time to the sum of line 370: the time the
    step started with plus the size of the time step as it stands at the end
    of the step, not the size it started with.  The sum is taken in exact
    arithmetic here; line 370 adds doubles and rounds it.  A time step that
    is not negative at the beginning is not negative at the end (it is only
    ever multiplied by 0.8 or 1.1), so the time never goes back.  That the
    time strictly grows is not stated: a rounded sum can absorb a small
    time step. *)
Theorem wall_on_fire_time_step_advances
    (H : Hermes) (wf : WeakForm) (basemesh : Mesh)
    (bt_is_embedded adaptive : bool) (unref_freq unref_method : Z)
    (fuel : nat) (s s' : WallOnFire.State) :
  (0 <= WallOnFire.time_step s)%Q ->
  WallOnFire.time_step_body wf basemesh bt_is_embedded adaptive
    unref_freq unref_method fuel s = Normal s' ->
  (0 <= WallOnFire.time_step s')%Q /\
  WallOnFire.current_time s'
  = (WallOnFire.current_time s + WallOnFire.time_step s')%Q /\
  (WallOnFire.current_time s <= WallOnFire.current_time s')%Q /\
  WallOnFire.ts s' = WallOnFire.ts s + 1.
Proof.
  intros Pos. unfold WallOnFire.time_step_body.
  destruct (WallOnFire.periodic_global_derefinement _ _ _ s)
    as [s1|s1|m s1|c s1|s1] eqn:D; try discriminate.
  assert (F1 : WallOnFire.current_time s1 = WallOnFire.current_time s /\
               WallOnFire.ts s1 = WallOnFire.ts s /\
               WallOnFire.time_step s1 = WallOnFire.time_step s).
  { revert D. unfold WallOnFire.periodic_global_derefinement.
    destruct (_ && _).
    - destruct (WallOnFire.global_derefinement _ _ _); [|discriminate].
      intros E. injection E as <-. repeat split; reflexivity.
    - intros E. injection E as <-. repeat split; reflexivity. }
  destruct F1 as (C1 & T1 & S1).
  unfold WallOnFire.adaptivity_loop.
  destruct (do_while _ _ fuel _) as [s3|m s3|c s3|s3] eqn:L; try discriminate.
  cbn [after_loop]. intros E. injection E as <-.
  assert (F : WallOnFire.current_time s3
              = WallOnFire.current_time (WallOnFire.begin_adaptivity s1) /\
              WallOnFire.ts s3 = WallOnFire.ts (WallOnFire.begin_adaptivity s1) /\
              ((0 <= WallOnFire.time_step (WallOnFire.begin_adaptivity s1))%Q ->
               (0 <= WallOnFire.time_step s3)%Q)).
  { refine (do_while_preserve _ _
              (fun a b =>
                 WallOnFire.current_time b = WallOnFire.current_time a /\
                 WallOnFire.ts b = WallOnFire.ts a /\
                 ((0 <= WallOnFire.time_step a)%Q ->
                  (0 <= WallOnFire.time_step b)%Q))
              _ _ _ _ fuel _ s3 L).
    - intros a. repeat split; auto.
    - intros a b c (A1 & A2 & A3) (B1 & B2 & B3).
      repeat split; try congruence. auto.
    - intros a b E.
      destruct (wall_on_fire_step_frame _ _ _ _ _ _ E)
        as (A1 & A2 & _ & _ & A5).
      repeat split; assumption.
    - intros a b. unfold WallOnFire.adaptivity_step.
      destruct (project_global _ (WallOnFire.sln_prev_time a)) as [p|];
        [|discriminate].
      destruct (rk_time_step_newton _ _ _ _ _ _) as [[r e]|]; [|discriminate].
      destruct (adaptive && _); [discriminate|].
      destruct (project_global _ r); discriminate. }
  destruct F as (C3 & T3 & S3).
  cbn [WallOnFire.begin_adaptivity WallOnFire.current_time WallOnFire.ts
         WallOnFire.time_step] in C3, T3, S3.
  cbn [WallOnFire.finish_time_step WallOnFire.current_time WallOnFire.ts
         WallOnFire.time_step].
  rewrite S1 in S3. specialize (S3 Pos).
  rewrite C3, C1, T3, T1.
  repeat split; try assumption. lra.
Qed.

(** A first time step from time 0 with adaptive time stepping on: the time
    step starts at 20, the temporal error is below the lower tolerance, the
    time step ends at 22 and the time at 22. *)
Lemma wall_on_fire_time_step_advances_witness :
  exists s',
    WallOnFire.time_step_body (H := Toy.lib Toy.steady) tt 0 true true
      WallOnFire.UNREF_FREQ WallOnFire.UNREF_METHOD 3
      (Runs.wall_state Toy.steady Toy.coarse0 1) = Normal s' /\
    (WallOnFire.time_step s' == 22)%Q /\
    (WallOnFire.current_time s' == 22)%Q /\ WallOnFire.ts s' = 2.
Proof.
  assert (R : exists s',
             WallOnFire.time_step_body (H := Toy.lib Toy.steady) tt 0 true true
               WallOnFire.UNREF_FREQ WallOnFire.UNREF_METHOD 3
               (Runs.wall_state Toy.steady Toy.coarse0 1) = Normal s')
    by (eexists; lazy; reflexivity).
  destruct R as [s' R]. exists s'. split; [exact R|].
  destruct (wall_on_fire_time_step_advances (Toy.lib Toy.steady) tt 0
              true true WallOnFire.UNREF_FREQ WallOnFire.UNREF_METHOD 3%nat
              (Runs.wall_state Toy.steady Toy.coarse0 1) s'
              ltac:(discriminate) R) as (_ & C & _ & T).
  assert (S : (WallOnFire.time_step s' == 22)%Q).
  { lazy in R. injection R as <-. reflexivity. }
  split; [exact S|]. split; [|exact T].
  rewrite C, S. reflexivity.
Defined.

(** ** The spatial loop and the time step of seepage *)



(** ** Derefinement that is not due, or cannot be done *)

(** X16.  The choice of UNREF_METHOD is looked at only when a derefinement
    is due.  In the first time step of wall-on-fire and of seepage
    ([ts = 1]) nothing is derefined and the adaptivity loop starts from the
    space as it is, whatever UNREF_FREQ and UNREF_METHOD are, also values
    that name no method.  In a later time step that is a multiple of
    UNREF_FREQ, a value other than 1, 2 and 3 ends the run with "Wrong
    global derefinement method." before anything is solved: the state is the
    one the time step began with (in seepage with TIME set). *)
Theorem derefinement_method_checked_when_due :
  (forall (H : Hermes) (wf : WeakForm) (basemesh : Mesh)
          (bt_is_embedded adaptive : bool) (unref_freq unref_method : Z)
          (fuel : nat) (s : WallOnFire.State),
      (WallOnFire.ts s <= 1 ->
       WallOnFire.time_step_body wf basemesh bt_is_embedded adaptive
         unref_freq unref_method fuel s
       = after_loop
           (WallOnFire.adaptivity_loop wf bt_is_embedded adaptive fuel s)
           (fun s2 => Normal (WallOnFire.finish_time_step s2))) /\
      (1 < WallOnFire.ts s -> Z.rem (WallOnFire.ts s) unref_freq = 0 ->
       unref_method < 1 \/ 3 < unref_method ->
       WallOnFire.time_step_body wf basemesh bt_is_embedded adaptive
         unref_freq unref_method fuel s
       = Exception "Wrong global derefinement method." s))
  /\
  (forall (H : Hermes) (wf : WeakForm) (basemesh : Mesh) (TAU : Q)
          (construct_refined_space : Space -> Space)
          (project_to_vector : Space -> MeshFunction -> Vector)
          (solve_newton : WeakForm -> Q -> Vector -> Space -> option Vector)
          (calc_err_est : Space -> MeshFunction -> MeshFunction ->
                          Q * ErrorCalculator)
          (adapt_strategy : CandList -> Q -> Q -> Z -> Z -> ErrorCalculator ->
                            Space -> bool * Space)
          (unref_freq unref_method : Z) (fuel : nat) (s : Seepage.State),
      (Seepage.ts s <= 1 ->
       Seepage.time_step_body wf basemesh TAU construct_refined_space
         project_to_vector solve_newton calc_err_est adapt_strategy
         unref_freq unref_method fuel s
       = after_loop
           (Seepage.adaptivity_loop wf construct_refined_space
              project_to_vector solve_newton calc_err_est adapt_strategy
              fuel (Seepage.set_time TAU s))
           (fun s2 => Normal (Seepage.finish_time_step s2))) /\
      (1 < Seepage.ts s -> Z.rem (Seepage.ts s) unref_freq = 0 ->
       unref_method < 1 \/ 3 < unref_method ->
       Seepage.time_step_body wf basemesh TAU construct_refined_space
         project_to_vector solve_newton calc_err_est adapt_strategy
         unref_freq unref_method fuel s
       = Exception "Wrong global derefinement method."
           (Seepage.set_time TAU s))).
Proof.
  split.
  - intros H wf basemesh bt ad freq method fuel s. split.
    + intros L. unfold WallOnFire.time_step_body,
        WallOnFire.periodic_global_derefinement.
      apply Z.ltb_ge in L. rewrite L. reflexivity.
    + intros T R M. unfold WallOnFire.time_step_body,
        WallOnFire.periodic_global_derefinement.
      apply Z.ltb_lt in T. apply Z.eqb_eq in R. rewrite T, R. cbn [andb].
      unfold WallOnFire.global_derefinement.
      destruct (Z.eqb_spec method 1); [lia|].
      destruct (Z.eqb_spec method 2); [lia|].
      destruct (Z.eqb_spec method 3); [lia|]. reflexivity.
  - intros H wf basemesh TAU crs ptv sn cee ast freq method fuel s. split.
    + intros L. unfold Seepage.time_step_body,
        Seepage.periodic_global_derefinement.
      cbn [Seepage.set_time Seepage.ts].
      apply Z.ltb_ge in L. rewrite L. reflexivity.
    + intros T R M. unfold Seepage.time_step_body,
        Seepage.periodic_global_derefinement.
      cbn [Seepage.set_time Seepage.ts Seepage.space].
      apply Z.ltb_lt in T. apply Z.eqb_eq in R. rewrite T, R. cbn [andb].
      unfold Seepage.global_derefinement.
      destruct (Z.eqb_spec method 1); [lia|].
      destruct (Z.eqb_spec method 2); [lia|].
      destruct (Z.eqb_spec method 3); [lia|]. reflexivity.
Qed.

Lemma derefinement_method_checked_when_due_witness :
  Runs.wall_time_step Toy.steady 3 (Runs.wall_state Toy.steady Toy.coarse0 1)
  = after_loop
      (Runs.wall_loop Toy.steady 3 (Runs.wall_state Toy.steady Toy.coarse0 1))
      (fun s2 => Normal (WallOnFire.finish_time_step s2)) /\
  WallOnFire.time_step_body (H := Toy.lib Toy.steady) tt 0 true false
    WallOnFire.UNREF_FREQ 4 3 (Runs.wall_state Toy.steady Runs.refined 2)
  = Exception "Wrong global derefinement method."
      (Runs.wall_state Toy.steady Runs.refined 2).
Proof.
  destruct (proj1 derefinement_method_checked_when_due
              (Toy.lib Toy.steady) tt 0 true false
              WallOnFire.UNREF_FREQ WallOnFire.UNREF_METHOD 3%nat
              (Runs.wall_state Toy.steady Toy.coarse0 1)) as [A _].
  destruct (proj1 derefinement_method_checked_when_due
              (Toy.lib Toy.steady) tt 0 true false
              WallOnFire.UNREF_FREQ 4 3%nat
              (Runs.wall_state Toy.steady Runs.refined 2)) as [_ B].
  split.
  - exact (A ltac:(cbn; lia)).
  - exact (B ltac:(cbn; lia) ltac:(reflexivity) ltac:(right; lia)).
Defined.

(** ** The previous time level of nernst-planck and seepage *)

(** What the spatial loop of seepage leaves alone, and that it ends with
    [done] set. *)
Lemma seepage_spatial_loop_exit_frame
    (H : Hermes) (wf : WeakForm)
    (construct_refined_space : Space -> Space)
    (project_to_vector : Space -> MeshFunction -> Vector)
    (solve_newton : WeakForm -> Q -> Vector -> Space -> option Vector)
    (calc_err_est : Space -> MeshFunction -> MeshFunction ->
                    Q * ErrorCalculator)
    (adapt_strategy : CandList -> Q -> Q -> Z -> Z -> ErrorCalculator ->
                      Space -> bool * Space)
    (fuel : nat) (s s' : Seepage.State) :
  Seepage.adaptivity_loop wf construct_refined_space project_to_vector
    solve_newton calc_err_est adapt_strategy fuel s = Finished s' ->
  Seepage.done s' = true /\
  Seepage.sln_prev_time s' = Seepage.sln_prev_time s /\
  Seepage.TIME s' = Seepage.TIME s /\
  Seepage.ts s' = Seepage.ts s.
Proof.
  unfold Seepage.adaptivity_loop. intros L. split.
  - destruct (do_while_finished _ _ _ _ _ L) as (k & s1 & _ & [[_ A]|B]).
    + apply negb_false_iff in A. exact A.
    + revert B. unfold Seepage.adaptivity_step.
      destruct (solve_newton _ _ _ _) as [vec|]; [|discriminate].
      destruct (project_global _ _) as [sln'|]; [|discriminate].
      destruct (Qltb _ _); [discriminate|].
      destruct (Zgeb _ _); [|discriminate].
      intros X. injection X as <-. reflexivity.
  - refine (do_while_preserve _ _
              (fun a b =>
                 Seepage.sln_prev_time b = Seepage.sln_prev_time a /\
                 Seepage.TIME b = Seepage.TIME a /\
                 Seepage.ts b = Seepage.ts a)
              _ _ _ _ fuel (Seepage.begin_adaptivity s) s' L).
    + intros a. repeat split; reflexivity.
    + intros a b c (A1 & A2 & A3) (B1 & B2 & B3). repeat split; congruence.
    + intros a b. unfold Seepage.adaptivity_step.
      destruct (solve_newton _ _ _ _) as [vec|]; [|discriminate].
      destruct (project_global _ _) as [sln'|]; [|discriminate].
      destruct (Qltb _ _);
        [intros X; injection X as <-; repeat split; reflexivity|].
      destruct (Zgeb _ _); [discriminate|].
      intros X. injection X as <-. repeat split; reflexivity.
    + intros a b. unfold Seepage.adaptivity_step.
      destruct (solve_newton _ _ _ _) as [vec|]; [|discriminate].
      destruct (project_global _ _) as [sln'|]; [|discriminate].
      destruct (Qltb _ _); [discriminate|].
      destruct (Zgeb _ _); [|discriminate].
      intros X. injection X as <-. repeat split; reflexivity.
Qed.



(** ** Failures in the Euler time loop *)

Section WhileLoops.
Context {S : Type} (test : S -> bool) (body : S -> Flow S).

(** An exception that ends a [for] loop was raised by its body. *)
Lemma while_do_thrown (fuel : nat) (s s' : S) (msg : string) :
  while_do test body fuel s = Thrown msg s' ->
  exists s1, body s1 = Exception msg s'.
Proof.
  revert s. induction fuel as [|n IH]; intros s E; [discriminate|].
  cbn [while_do] in E. destruct (test s); [|discriminate].
  destruct (body s) as [a|a|m a|c a|a] eqn:B; try discriminate.
  - exact (IH _ E).
  - injection E as <- <-. exists s. exact B.
Qed.

(** What every pass preserves holds between the start of a [for] loop and
    its end. *)
Lemma while_do_preserve (R : S -> S -> Prop) :
  (forall s, R s s) ->
  (forall s1 s2 s3, R s1 s2 -> R s2 s3 -> R s1 s3) ->
  (forall s s1, body s = Normal s1 -> R s s1) ->
  (forall s s1, body s = LoopBreak s1 -> R s s1) ->
  forall fuel s s', while_do test body fuel s = Finished s' -> R s s'.
Proof.
  intros Rrefl Rtrans Rstep Rbreak fuel.
  induction fuel as [|n IH]; intros s s' E; [discriminate|].
  cbn [while_do] in E. destruct (test s).
  - destruct (body s) as [a|a|m a|c a|a] eqn:B; try discriminate.
    + exact (Rtrans _ _ _ (Rstep _ _ B) (IH _ _ E)).
    + injection E as <-. exact (Rbreak _ _ B).
  - injection E as <-. apply Rrefl.
Qed.
End WhileLoops.

Section EulerFailures.
Context `{Hermes}.
Variables (SHOCK_CAPTURING : bool)
          (SHOCK_CAPTURING_TYPE : EulerTimeLoop.ShockCapturingType).
Variables (P_INIT : Z) (TIME_INTERVAL_LENGTH : Q) (NDEBUG : bool).
Variables (space_rho space_rho_v_x space_rho_v_y space_e : Space).
Variables (space_stabilization : Space) (mesh : Mesh).
Variable get_num_active_elements : Mesh -> Z.
Variable active_elements : Space -> list (Z * EulerKuzmin.AsmList).
Variable assemble_stabilization : list MeshFunction -> EulerKuzmin.array.
Variable solve :
  option (Z -> bool) -> Q -> list MeshFunction -> option Vector.
Variable flux_limited_solutions : Vector -> list Space -> list MeshFunction.
Variable vertex_limited_solutions :
  list Space -> Vector -> Z -> list MeshFunction.
Variable vertex_limited_vector : list Space -> Vector -> Z -> EulerKuzmin.array.
Variable limit_real_vector :
  Space -> EulerKuzmin.array -> Z -> EulerKuzmin.array.
Variable array_to_solution : EulerKuzmin.array -> Z -> Space -> MeshFunction.
Variable CFL_calculate : list MeshFunction -> Mesh -> Q -> Q.

Let feistauer :=
  EulerTimeLoop.feistauer SHOCK_CAPTURING SHOCK_CAPTURING_TYPE NDEBUG
    space_stabilization get_num_active_elements active_elements
    assemble_stabilization.
Let try_block :=
  EulerTimeLoop.try_block SHOCK_CAPTURING SHOCK_CAPTURING_TYPE P_INIT
    space_rho space_rho_v_x space_rho_v_y space_e mesh active_elements solve
    flux_limited_solutions vertex_limited_solutions vertex_limited_vector
    limit_real_vector array_to_solution CFL_calculate.
Let time_step :=
  EulerTimeLoop.time_step SHOCK_CAPTURING SHOCK_CAPTURING_TYPE P_INIT NDEBUG
    space_rho space_rho_v_x space_rho_v_y space_e space_stabilization mesh
    get_num_active_elements active_elements assemble_stabilization solve
    flux_limited_solutions vertex_limited_solutions vertex_limited_vector
    limit_real_vector array_to_solution CFL_calculate.

(** The stabilization block touches the discrete indicator only. *)
Lemma euler_feistauer_frame (s s1 : EulerTimeLoop.State) :
  feistauer s = Normal s1 ->
  EulerTimeLoop.prev_slns s1 = EulerTimeLoop.prev_slns s /\
  EulerTimeLoop.t s1 = EulerTimeLoop.t s /\
  EulerTimeLoop.time_step_n s1 = EulerTimeLoop.time_step_n s /\
  EulerTimeLoop.iteration s1 = EulerTimeLoop.iteration s.
Proof.
  unfold feistauer, EulerTimeLoop.feistauer.
  destruct (_ && _).
  - destruct (_ && _); [discriminate|].
    intros E. injection E as <-. repeat split; reflexivity.
  - intros E. injection E as <-. repeat split; reflexivity.
Qed.

Lemma euler_feistauer_flow (s : EulerTimeLoop.State) :
  (exists s1, feistauer s = Normal s1) \/ feistauer s = Return 134 s.
Proof.
  unfold feistauer, EulerTimeLoop.feistauer.
  destruct (_ && _); [|left; eexists; reflexivity].
  destruct (_ && _); [right; reflexivity|left; eexists; reflexivity].
Qed.

(** The only exception that leaves the [try] block. *)
Lemma euler_try_block_escapes (s s' : EulerTimeLoop.State) (msg : string) :
  try_block s = EulerTimeLoop.Escaped msg s' ->
  SHOCK_CAPTURING = true /\
  SHOCK_CAPTURING_TYPE = EulerTimeLoop.KUZMIN /\
  1 < P_INIT /\ msg = "P_INIT must be <= 1." /\ s' = s.
Proof.
  unfold try_block, EulerTimeLoop.try_block, EulerTimeLoop.cfl.
  destruct (solve _ _ _) as [vec|]; [|discriminate].
  destruct SHOCK_CAPTURING; cbn [negb orb]; [|discriminate].
  destruct (Z.eqb_spec P_INIT 0) as [Z0|Z0]; [discriminate|].
  destruct SHOCK_CAPTURING_TYPE; cbn [EulerTimeLoop.is_type andb];
    try discriminate.
  destruct (Z.ltb_spec 0 P_INIT) as [Pp|Pp]; [|discriminate].
  destruct (Z.eqb_spec P_INIT 1) as [P1|P1]; cbn [negb].
  - destruct (snd _); discriminate.
  - intros E. injection E as <- <-. repeat split; try reflexivity. lia.
Qed.

Lemma euler_time_step_exception (s s' : EulerTimeLoop.State) (msg : string) :
  time_step s = Exception msg s' ->
  SHOCK_CAPTURING = true /\
  SHOCK_CAPTURING_TYPE = EulerTimeLoop.KUZMIN /\
  1 < P_INIT /\ msg = "P_INIT must be <= 1.".
Proof.
  unfold time_step, EulerTimeLoop.time_step. fold feistauer.
  match goal with |- context [feistauer ?x] =>
    destruct (euler_feistauer_flow x) as [[s1 F]|F]; rewrite F end;
    [|discriminate].
  fold try_block.
  destruct (try_block s1) as [a|a|m a] eqn:T; try discriminate.
  intros E. injection E as <- <-.
  destruct (euler_try_block_escapes _ _ _ T) as (A & B & C & D & _).
  repeat split; assumption.
Qed.

(** The stabilization block does not read the step counter. *)
Lemma euler_feistauer_iteration (s s1 : EulerTimeLoop.State) (i : Z) :
  feistauer s = Normal s1 ->
  feistauer {| EulerTimeLoop.prev_slns := EulerTimeLoop.prev_slns s;
               EulerTimeLoop.t := EulerTimeLoop.t s;
               EulerTimeLoop.time_step_n := EulerTimeLoop.time_step_n s;
               EulerTimeLoop.iteration := i;
               EulerTimeLoop.discreteIndicator :=
                 EulerTimeLoop.discreteIndicator s |}
  = Normal {| EulerTimeLoop.prev_slns := EulerTimeLoop.prev_slns s;
              EulerTimeLoop.t := EulerTimeLoop.t s;
              EulerTimeLoop.time_step_n := EulerTimeLoop.time_step_n s;
              EulerTimeLoop.iteration := i;
              EulerTimeLoop.discreteIndicator :=
                EulerTimeLoop.discreteIndicator s1 |}.
Proof.
  unfold feistauer, EulerTimeLoop.feistauer.
  destruct (_ && _).
  - destruct (_ && _); [discriminate|].
    intros E. injection E as <-. reflexivity.
  - intros E. injection E as <-. reflexivity.
Qed.

(** A pass whose solve throws ends like any other pass. *)
Lemma euler_time_step_failed_solve (s s1 : EulerTimeLoop.State) :
  feistauer s = Normal s1 ->
  solve (EulerTimeLoop.discreteIndicator s1) (EulerTimeLoop.time_step_n s)
    (EulerTimeLoop.prev_slns s) = None ->
  time_step s
  = Normal {| EulerTimeLoop.prev_slns := EulerTimeLoop.prev_slns s;
              EulerTimeLoop.t :=
                (EulerTimeLoop.t s + EulerTimeLoop.time_step_n s)%Q;
              EulerTimeLoop.time_step_n := EulerTimeLoop.time_step_n s;
              EulerTimeLoop.iteration := EulerTimeLoop.iteration s + 1;
              EulerTimeLoop.discreteIndicator :=
                EulerTimeLoop.discreteIndicator s1 |}.
Proof.
  intros F N. unfold time_step, EulerTimeLoop.time_step. fold feistauer.
  rewrite (euler_feistauer_iteration s s1 _ F).
  unfold EulerTimeLoop.try_block.
  cbn [EulerTimeLoop.prev_slns EulerTimeLoop.t EulerTimeLoop.time_step_n
         EulerTimeLoop.iteration EulerTimeLoop.discreteIndicator].
  rewrite N. reflexivity.
Qed.
End EulerFailures.

(** X18.  The Euler time loop survives a failing solve.  When the
    stabilization block of a pass has passed its [assert] and the solve of
    the pass throws, the exception is printed and the pass ends like any
    other: the previous solutions and the time step are the ones it had, the
    time has moved on by that time step, the counter by one, and the loop
    goes on with the next pass.  The only exception that can end the loop is
    the one of line 78, which is thrown as a pointer and so passes the
    [catch (std::exception&)] clause: it needs shock capturing of type
    KUZMIN and P_INIT above 1, and its message is "P_INIT must be <= 1.". *)
Theorem euler_time_loop_failures
    (H : Hermes) (SHOCK_CAPTURING : bool)
    (SHOCK_CAPTURING_TYPE : EulerTimeLoop.ShockCapturingType)
    (P_INIT : Z) (TIME_INTERVAL_LENGTH : Q) (NDEBUG : bool)
    (space_rho space_rho_v_x space_rho_v_y space_e : Space)
    (space_stabilization : Space) (mesh : Mesh)
    (get_num_active_elements : Mesh -> Z)
    (active_elements : Space -> list (Z * EulerKuzmin.AsmList))
    (assemble_stabilization : list MeshFunction -> EulerKuzmin.array)
    (solve : option (Z -> bool) -> Q -> list MeshFunction -> option Vector)
    (flux_limited_solutions : Vector -> list Space -> list MeshFunction)
    (vertex_limited_solutions : list Space -> Vector -> Z -> list MeshFunction)
    (vertex_limited_vector : list Space -> Vector -> Z -> EulerKuzmin.array)
    (limit_real_vector : Space -> EulerKuzmin.array -> Z -> EulerKuzmin.array)
    (array_to_solution : EulerKuzmin.array -> Z -> Space -> MeshFunction)
    (CFL_calculate : list MeshFunction -> Mesh -> Q -> Q) :
  let feistauer :=
    EulerTimeLoop.feistauer SHOCK_CAPTURING SHOCK_CAPTURING_TYPE NDEBUG
      space_stabilization get_num_active_elements active_elements
      assemble_stabilization in
  let time_step :=
    EulerTimeLoop.time_step SHOCK_CAPTURING SHOCK_CAPTURING_TYPE P_INIT NDEBUG
      space_rho space_rho_v_x space_rho_v_y space_e space_stabilization mesh
      get_num_active_elements active_elements assemble_stabilization solve
      flux_limited_solutions vertex_limited_solutions vertex_limited_vector
      limit_real_vector array_to_solution CFL_calculate in
  let time_loop :=
    EulerTimeLoop.time_loop SHOCK_CAPTURING SHOCK_CAPTURING_TYPE P_INIT
      TIME_INTERVAL_LENGTH NDEBUG
      space_rho space_rho_v_x space_rho_v_y space_e space_stabilization mesh
      get_num_active_elements active_elements assemble_stabilization solve
      flux_limited_solutions vertex_limited_solutions vertex_limited_vector
      limit_real_vector array_to_solution CFL_calculate in
  (forall s s1,
      feistauer s = Normal s1 ->
      solve (EulerTimeLoop.discreteIndicator s1) (EulerTimeLoop.time_step_n s)
        (EulerTimeLoop.prev_slns s) = None ->
      let s' :=
        {| EulerTimeLoop.prev_slns := EulerTimeLoop.prev_slns s;
           EulerTimeLoop.t :=
             (EulerTimeLoop.t s + EulerTimeLoop.time_step_n s)%Q;
           EulerTimeLoop.time_step_n := EulerTimeLoop.time_step_n s;
           EulerTimeLoop.iteration := EulerTimeLoop.iteration s + 1;
           EulerTimeLoop.discreteIndicator :=
             EulerTimeLoop.discreteIndicator s1 |} in
      time_step s = Normal s' /\
      ((EulerTimeLoop.t s < TIME_INTERVAL_LENGTH)%Q ->
       forall fuel,
         time_loop (Datatypes.S fuel) s = time_loop fuel s')) /\
  (forall fuel s msg s',
      time_loop fuel s = Thrown msg s' ->
      SHOCK_CAPTURING = true /\
      SHOCK_CAPTURING_TYPE = EulerTimeLoop.KUZMIN /\
      1 < P_INIT /\ msg = "P_INIT must be <= 1.").
Proof.
  intros feistauer time_step time_loop. split.
  - intros s s1 F N s'.
    assert (B : time_step s = Normal s').
    { subst time_step s'. apply euler_time_step_failed_solve with (1 := F).
      exact N. }
    split; [exact B|]. intros T fuel.
    unfold time_loop, EulerTimeLoop.time_loop. cbn [while_do].
    apply Qltb_true in T. rewrite T. fold time_step. rewrite B. reflexivity.
  - intros fuel s msg s' E. unfold time_loop, EulerTimeLoop.time_loop in E.
    destruct (while_do_thrown _ _ _ _ _ _ E) as (s1 & B).
    eapply euler_time_step_exception. exact B.
Qed.

(** With Feistauer's stabilization on and a solver that always throws, the
    first pass from time 0 with time step 1/2 ends at time 1/2 with the
    solutions it started with.  With Kuzmin's limiter and P_INIT = 2 the
    loop ends by the exception of line 78. *)
Lemma euler_time_loop_failures_witness :
  (exists s',
     EulerTimeLoop.time_step (H := Toy.lib Toy.steady)
       true EulerTimeLoop.FEISTAUER 1 true
       Toy.coarse0 Toy.coarse0 Toy.coarse0 Toy.coarse0 Toy.coarse0 0
       (fun _ => 0) (fun _ => []) (fun _ _ => 0%Q)
       (fun _ _ _ => None)
       (fun _ sps => map Toy.zero_on sps)
       (fun sps _ _ => map Toy.zero_on sps)
       (fun _ _ _ _ => 0%Q)
       (fun _ a _ => a)
       (fun _ _ sp => Toy.zero_on sp)
       (fun _ _ dt => dt)
       EulerRun.start = Normal s' /\
     EulerTimeLoop.prev_slns s' = EulerTimeLoop.prev_slns EulerRun.start /\
     (EulerTimeLoop.t s' == 1 # 2)%Q /\
     EulerTimeLoop.iteration s' = 1) /\
  (exists msg s',
     EulerRun.time_loop true EulerTimeLoop.KUZMIN 2 5 EulerRun.start
     = Thrown msg s' /\
     msg = "P_INIT must be <= 1.").
Proof.
  split.
  - eexists. split.
    + refine (proj1 (proj1
                (euler_time_loop_failures (Toy.lib Toy.steady)
                   true EulerTimeLoop.FEISTAUER 1 1%Q true
                   Toy.coarse0 Toy.coarse0 Toy.coarse0 Toy.coarse0
                   Toy.coarse0 0
                   (fun _ => 0) (fun _ => []) (fun _ _ => 0%Q)
                   (fun _ _ _ => None)
                   (fun _ sps => map Toy.zero_on sps)
                   (fun sps _ _ => map Toy.zero_on sps)
                   (fun _ _ _ _ => 0%Q)
                   (fun _ a _ => a)
                   (fun _ _ sp => Toy.zero_on sp)
                   (fun _ _ dt => dt))
                EulerRun.start _ eq_refl eq_refl)).
    + split; [reflexivity|split; reflexivity].
  - eexists. eexists. split; [reflexivity|].
    refine (proj2 (proj2 (proj2
              (proj2 (euler_time_loop_failures (Toy.lib Toy.steady)
                        true EulerTimeLoop.KUZMIN 2 1%Q true
                        Toy.coarse0 Toy.coarse0 Toy.coarse0 Toy.coarse0
                        Toy.coarse0 0
                        (fun _ => 0) (fun _ => []) (fun _ _ => 0%Q)
                        (fun _ _ _ => Some [])
                        (fun _ sps => map Toy.zero_on sps)
                        (fun sps _ _ => map Toy.zero_on sps)
                        (fun _ _ _ _ => 0%Q)
                        (fun _ a _ => a)
                        (fun _ _ sp => Toy.zero_on sp)
                        (fun _ _ dt => dt))
                 5%nat EulerRun.start _ _ _)))).
    reflexivity.
Defined.

(** ** The discrete indicator of the Euler time loop *)

Lemma flag_elements_keeps (rhs : EulerKuzmin.array)
    (els : list (Z * EulerKuzmin.AsmList)) (ind : Z -> bool) (id : Z) :
  ind id = true -> EulerTimeLoop.flag_elements rhs els ind id = true.
Proof.
  unfold EulerTimeLoop.flag_elements. revert ind.
  induction els as [|e els IH]; intros ind I; [exact I|].
  cbn [fold_left]. apply IH. destruct (Qgeb _ _); [|exact I].
  destruct (id =? fst e); [reflexivity|exact I].
Qed.

Lemma flag_elements_sets (rhs : EulerKuzmin.array)
    (els : list (Z * EulerKuzmin.AsmList)) (ind : Z -> bool)
    (id : Z) (al : EulerKuzmin.AsmList) :
  In (id, al) els -> Qgeb (rhs (EulerKuzmin.dof al 0)) 1 = true ->
  EulerTimeLoop.flag_elements rhs els ind id = true.
Proof.
  unfold EulerTimeLoop.flag_elements. revert ind.
  induction els as [|e els IH]; intros ind I G; [destruct I|].
  cbn [fold_left]. destruct I as [-> | I].
  - apply (flag_elements_keeps rhs els). cbn [snd fst]. rewrite G.
    rewrite Z.eqb_refl. reflexivity.
  - apply IH; assumption.
Qed.

Section EulerIndicator.
Context `{Hermes}.
Variables (SHOCK_CAPTURING : bool)
          (SHOCK_CAPTURING_TYPE : EulerTimeLoop.ShockCapturingType).
Variables (P_INIT : Z) (TIME_INTERVAL_LENGTH : Q) (NDEBUG : bool).
Variables (space_rho space_rho_v_x space_rho_v_y space_e : Space).
Variables (space_stabilization : Space) (mesh : Mesh).
Variable get_num_active_elements : Mesh -> Z.
Variable active_elements : Space -> list (Z * EulerKuzmin.AsmList).
Variable assemble_stabilization : list MeshFunction -> EulerKuzmin.array.
Variable solve :
  option (Z -> bool) -> Q -> list MeshFunction -> option Vector.
Variable flux_limited_solutions : Vector -> list Space -> list MeshFunction.
Variable vertex_limited_solutions :
  list Space -> Vector -> Z -> list MeshFunction.
Variable vertex_limited_vector : list Space -> Vector -> Z -> EulerKuzmin.array.
Variable limit_real_vector :
  Space -> EulerKuzmin.array -> Z -> EulerKuzmin.array.
Variable array_to_solution : EulerKuzmin.array -> Z -> Space -> MeshFunction.
Variable CFL_calculate : list MeshFunction -> Mesh -> Q -> Q.

Let feistauer :=
  EulerTimeLoop.feistauer SHOCK_CAPTURING SHOCK_CAPTURING_TYPE NDEBUG
    space_stabilization get_num_active_elements active_elements
    assemble_stabilization.
Let try_block :=
  EulerTimeLoop.try_block SHOCK_CAPTURING SHOCK_CAPTURING_TYPE P_INIT
    space_rho space_rho_v_x space_rho_v_y space_e mesh active_elements solve
    flux_limited_solutions vertex_limited_solutions vertex_limited_vector
    limit_real_vector array_to_solution CFL_calculate.
Let time_step :=
  EulerTimeLoop.time_step SHOCK_CAPTURING SHOCK_CAPTURING_TYPE P_INIT NDEBUG
    space_rho space_rho_v_x space_rho_v_y space_e space_stabilization mesh
    get_num_active_elements active_elements assemble_stabilization solve
    flux_limited_solutions vertex_limited_solutions vertex_limited_vector
    limit_real_vector array_to_solution CFL_calculate.

(** The [try] block does not touch the discrete indicator. *)
Lemma euler_try_block_indicator (s s' : EulerTimeLoop.State) :
  try_block s = EulerTimeLoop.Completed s' \/
  try_block s = EulerTimeLoop.Caught s' ->
  EulerTimeLoop.discreteIndicator s' = EulerTimeLoop.discreteIndicator s.
Proof.
  unfold try_block, EulerTimeLoop.try_block, EulerTimeLoop.cfl.
  destruct (solve _ _ _) as [vec|].
  - destruct (_ || _).
    + intros [E|E]; [|discriminate]. injection E as <-. reflexivity.
    + destruct (EulerTimeLoop.is_type SHOCK_CAPTURING_TYPE
                  EulerTimeLoop.KRIVODONOVA);
        (destruct (_ && _);
         [destruct (negb _);
          [intros [E|E]; discriminate
          |destruct (snd _); intros [E|E]; try discriminate;
           injection E as <-; reflexivity]
         |intros [E|E]; [|discriminate]; injection E as <-; reflexivity]).
  - intros [E|E]; [discriminate|]. injection E as <-. reflexivity.
Qed.

(** One pass flags what the stabilization detects and keeps what was
    flagged. *)
Lemma euler_time_step_indicator (s s' : EulerTimeLoop.State) :
  time_step s = Normal s' ->
  (forall id, EulerRun.flagged s id = true -> EulerRun.flagged s' id = true) /\
  (SHOCK_CAPTURING = true ->
   SHOCK_CAPTURING_TYPE = EulerTimeLoop.FEISTAUER ->
   forall id al,
     In (id, al) (active_elements space_stabilization) ->
     (1 <= assemble_stabilization (EulerTimeLoop.prev_slns s)
             (EulerKuzmin.dof al 0))%Q ->
     EulerRun.flagged s' id = true).
Proof.
  unfold time_step, EulerTimeLoop.time_step.
  set (s0 := EulerTimeLoop.mkState _ _ _ _ _).
  fold feistauer.
  destruct (feistauer s0) as [s1|s1|m s1|c s1|s1] eqn:F; try discriminate.
  fold try_block.
  intros E.
  assert (I : EulerTimeLoop.discreteIndicator s'
              = EulerTimeLoop.discreteIndicator s1).
  { destruct (try_block s1) as [a|a|m a] eqn:T; try discriminate;
      injection E as <-;
      cbn [EulerTimeLoop.discreteIndicator];
      apply euler_try_block_indicator; auto. }
  clear E. unfold EulerRun.flagged. rewrite I. clear I.
  revert F. unfold feistauer, EulerTimeLoop.feistauer.
  destruct SHOCK_CAPTURING; cbn [andb].
  - destruct SHOCK_CAPTURING_TYPE; cbn [EulerTimeLoop.is_type].
    + destruct (_ && _); [discriminate|].
      intros E. injection E as <-.
      cbn [EulerTimeLoop.discreteIndicator EulerTimeLoop.prev_slns]. split.
      * intros id. subst s0. cbn [EulerTimeLoop.discreteIndicator].
        destruct (EulerTimeLoop.discreteIndicator s); [|discriminate].
        apply flag_elements_keeps.
      * intros _ _ id al In1 G. subst s0. cbn [EulerTimeLoop.prev_slns].
        apply (flag_elements_sets _ _ _ id al In1).
        unfold Qgeb. apply Qle_bool_iff. exact G.
    + intros E. injection E as <-. split; [auto|discriminate].
    + intros E. injection E as <-. split; [auto|discriminate].
  - intros E. injection E as <-. split; [auto|discriminate].
Qed.
End EulerIndicator.

(** X19.  The discrete indicator of the Feistauer stabilization only ever
    grows.  With that stabilization on, a pass of the Euler time loop flags
    every active element of the stabilization space whose entry of the
    stabilization right-hand side is at least 1; and no pass, with whatever
    setting, clears a flag: an element that is flagged stays flagged until
    the time loop ends. *)
Theorem euler_discrete_indicator_only_grows
    (H : Hermes) (SHOCK_CAPTURING : bool)
    (SHOCK_CAPTURING_TYPE : EulerTimeLoop.ShockCapturingType)
    (P_INIT : Z) (TIME_INTERVAL_LENGTH : Q) (NDEBUG : bool)
    (space_rho space_rho_v_x space_rho_v_y space_e : Space)
    (space_stabilization : Space) (mesh : Mesh)
    (get_num_active_elements : Mesh -> Z)
    (active_elements : Space -> list (Z * EulerKuzmin.AsmList))
    (assemble_stabilization : list MeshFunction -> EulerKuzmin.array)
    (solve : option (Z -> bool) -> Q -> list MeshFunction -> option Vector)
    (flux_limited_solutions : Vector -> list Space -> list MeshFunction)
    (vertex_limited_solutions : list Space -> Vector -> Z -> list MeshFunction)
    (vertex_limited_vector : list Space -> Vector -> Z -> EulerKuzmin.array)
    (limit_real_vector : Space -> EulerKuzmin.array -> Z -> EulerKuzmin.array)
    (array_to_solution : EulerKuzmin.array -> Z -> Space -> MeshFunction)
    (CFL_calculate : list MeshFunction -> Mesh -> Q -> Q) :
  let time_step :=
    EulerTimeLoop.time_step SHOCK_CAPTURING SHOCK_CAPTURING_TYPE P_INIT NDEBUG
      space_rho space_rho_v_x space_rho_v_y space_e space_stabilization mesh
      get_num_active_elements active_elements assemble_stabilization solve
      flux_limited_solutions vertex_limited_solutions vertex_limited_vector
      limit_real_vector array_to_solution CFL_calculate in
  let time_loop :=
    EulerTimeLoop.time_loop SHOCK_CAPTURING SHOCK_CAPTURING_TYPE P_INIT
      TIME_INTERVAL_LENGTH NDEBUG
      space_rho space_rho_v_x space_rho_v_y space_e space_stabilization mesh
      get_num_active_elements active_elements assemble_stabilization solve
      flux_limited_solutions vertex_limited_solutions vertex_limited_vector
      limit_real_vector array_to_solution CFL_calculate in
  (forall s s' id al,
      SHOCK_CAPTURING = true ->
      SHOCK_CAPTURING_TYPE = EulerTimeLoop.FEISTAUER ->
      time_step s = Normal s' ->
      In (id, al) (active_elements space_stabilization) ->
      (1 <= assemble_stabilization (EulerTimeLoop.prev_slns s)
              (EulerKuzmin.dof al 0))%Q ->
      EulerRun.flagged s' id = true) /\
  (forall fuel s s' id,
      time_loop fuel s = Finished s' ->
      EulerRun.flagged s id = true -> EulerRun.flagged s' id = true).
Proof.
  intros time_step time_loop. split.
  - intros s s' id al SC TY E.
    pose proof (euler_time_step_indicator _ _ _ _ _ _ _ _ _ _ _ _ _ _
                  _ _ _ _ _ _ _ _ E) as [_ Fl].
    exact (Fl SC TY id al).
  - intros fuel s s' id L. unfold time_loop, EulerTimeLoop.time_loop in L.
    refine (while_do_preserve _ _
              (fun a b => EulerRun.flagged a id = true ->
                          EulerRun.flagged b id = true)
              _ _ _ _ fuel s s' L).
    + intros a F. exact F.
    + intros a b c F G K. exact (G (F K)).
    + intros a b E.
      pose proof (euler_time_step_indicator _ _ _ _ _ _ _ _ _ _ _ _ _ _
                    _ _ _ _ _ _ _ _ E) as [Kp _].
      exact (Kp id).
    + intros a b. unfold EulerTimeLoop.time_step.
      match goal with
      | |- context [EulerTimeLoop.feistauer ?a1 ?a2 ?a3 ?a4 ?a5 ?a6 ?a7 ?x] =>
          destruct (euler_feistauer_flow a1 a2 a3 a4 a5 a6 a7 x)
            as [[s1 F]|F]; rewrite F
      end; [|discriminate].
      destruct (EulerTimeLoop.try_block _ _ _ _ _ _ _ _ _ _ _ _ _ _ _ _ _);
        discriminate.
Qed.

Lemma euler_discrete_indicator_only_grows_witness :
  exists s',
    EulerRun.time_loop false EulerTimeLoop.FEISTAUER 0 5
      (@EulerTimeLoop.mkState (Toy.lib Toy.steady) [] 0%Q (1 # 2)%Q 0
         (Some (fun j => j =? 7)))
    = Finished s' /\
    EulerRun.flagged s' 7 = true /\
    EulerTimeLoop.iteration s' = 2.
Proof.
  eexists. split; [reflexivity|]. split; [|reflexivity].
  refine (proj2 (euler_discrete_indicator_only_grows (Toy.lib Toy.steady)
                   false EulerTimeLoop.FEISTAUER 0 1%Q true
                   Toy.coarse0 Toy.coarse0 Toy.coarse0 Toy.coarse0
                   Toy.coarse0 0
                   (fun _ => 0) (fun _ => []) (fun _ _ => 0%Q)
                   (fun _ _ _ => Some [])
                   (fun _ sps => map Toy.zero_on sps)
                   (fun sps _ _ => map Toy.zero_on sps)
                   (fun _ _ _ _ => 0%Q)
                   (fun _ a _ => a)
                   (fun _ _ sp => Toy.zero_on sp)
                   (fun _ _ dt => dt))
            5%nat
            (@EulerTimeLoop.mkState (Toy.lib Toy.steady) [] 0%Q (1 # 2)%Q 0
               (Some (fun j => j =? 7)))
            _ 7 _ _); reflexivity.
Defined.

(** ** The failures of layer-interior *)

(** X20.  layer-interior wraps its whole adaptivity loop in one [try]
    block whose handler rethrows under a fixed message.  So every exception
    that ends the loop reads "Newton's iteration failed.", also when the
    solve went well and it was the projection on the coarse space that
    failed; the state is the one in which the failing pass began. *)
Theorem layer_interior_reports_every_failure_as_newton :
  (forall (H : Hermes) (wf : WeakForm) (exact_sln : MeshFunction)
          (fuel : nat) (s s' : LayerInterior.State) (msg : string),
      LayerInterior.adaptivity_loop wf exact_sln fuel s = Thrown msg s' ->
      msg = "Newton's iteration failed.")
  /\
  (forall (H : Hermes) (wf : WeakForm) (exact_sln : MeshFunction)
          (k fuel : nat) (s s' : LayerInterior.State) (vec : Vector),
      let ref_space :=
        create_ref_space (LayerInterior.space s')
          (create_ref_mesh (get_mesh (LayerInterior.space s'))) in
      passes (LayerInterior.adaptivity_step wf exact_sln)
             (fun x => negb (LayerInterior.done x)) k s s' ->
      newton_solve wf [] [] [ref_space] [] = Some vec ->
      project_global (LayerInterior.space s')
        (vector_to_solution vec ref_space) = None ->
      (k < fuel)%nat ->
      LayerInterior.adaptivity_loop wf exact_sln fuel s
      = Thrown "Newton's iteration failed." s').
Proof.
  split.
  - intros H wf exact_sln fuel s s' msg.
    unfold LayerInterior.adaptivity_loop.
    destruct (do_while _ _ fuel s); try discriminate.
    intros E. injection E as <- _. reflexivity.
  - intros H wf exact_sln k fuel s s' vec ref_space P N G L.
    unfold LayerInterior.adaptivity_loop.
    rewrite (do_while_exception _ _ k fuel s s' s' uncaught P); [reflexivity| |exact L].
    unfold LayerInterior.adaptivity_step. fold ref_space.
    rewrite N, G. reflexivity.
Qed.

Lemma layer_interior_reports_every_failure_as_newton_witness :
  exists msg s',
    LayerInterior.adaptivity_loop (H := Toy.lib Toy.fragile) tt
      (Toy.const_on Toy.coarse0 3) 5
      (LayerInterior.initial (H := Toy.lib Toy.fragile)
         Toy.coarse0 (Toy.zero_on Toy.coarse0) []) = Thrown msg s' /\
    msg = "Newton's iteration failed." /\
    Toy.dofs (LayerInterior.space s') = 7.
Proof.
  eexists. eexists. split; [reflexivity|]. split; [|reflexivity].
  refine (proj1 layer_interior_reports_every_failure_as_newton
            (Toy.lib Toy.fragile) tt (Toy.const_on Toy.coarse0 3) 5%nat
            (LayerInterior.initial (H := Toy.lib Toy.fragile)
               Toy.coarse0 (Toy.zero_on Toy.coarse0) []) _ _ _).
  reflexivity.
Defined.

(** ** The step counter *)

(** X21.  In 1d/layer-boundary, 1d/system, the 4-group driver, and inside a
    time step of nernst-planck and of seepage, [as] counts the passes of the
    adaptivity loop: after [k] passes that each asked for another one it
    has grown by [k], so the step number a pass logs is its number.  (The
    drivers differ only in whether the last pass still increments it.)
    wall-on-fire does not count a pass it repeats with a smaller time step:
    there [as] grows by at most [k]. *)
Theorem step_counter_counts_passes :
  (forall (H : Hermes) (wf : WeakForm) (exact_sln : MeshFunction)
          (k : nat) (s s' : LayerBoundary1D.State),
      passes (LayerBoundary1D.adaptivity_step wf exact_sln)
             (fun x => negb (LayerBoundary1D.done x)) k s s' ->
      LayerBoundary1D.as_ s' = LayerBoundary1D.as_ s + Z.of_nat k)
  /\
  (forall (H : Hermes) (wf : WeakForm) (exact_slns : list MeshFunction)
          (k : nat) (s s' : System1D.State),
      passes (System1D.adaptivity_step wf exact_slns)
             (fun x => negb (System1D.done x)) k s s' ->
      System1D.as_ s' = System1D.as_ s + Z.of_nat k)
  /\
  (forall (H : Hermes) (wf : WeakForm)
          (power_iteration : WeakForm -> list Space -> list MeshFunction ->
                             Q -> option (list MeshFunction))
          (h1 l2 : ErrorCalculator) (k : nat) (s s' : Neutronics.State),
      passes (Neutronics.adaptivity_step wf power_iteration h1 l2)
             (fun x => negb (Neutronics.done x)) k s s' ->
      Neutronics.as_ s' = Neutronics.as_ s + Z.of_nat k)
  /\
  (forall (H : Hermes) (wf : WeakForm) (Pid : Type)
          (get_timestep_number : Pid -> Z) (timestep : Pid -> Q)
          (k : nat) (s s' : NernstPlanck.State (Pid := Pid)),
      passes (NernstPlanck.adaptivity_step wf get_timestep_number timestep)
             (fun x => negb (NernstPlanck.done x)) k s s' ->
      NernstPlanck.as_ s' = NernstPlanck.as_ s + Z.of_nat k)
  /\
  (forall (H : Hermes) (wf : WeakForm)
          (construct_refined_space : Space -> Space)
          (project_to_vector : Space -> MeshFunction -> Vector)
          (solve_newton : WeakForm -> Q -> Vector -> Space -> option Vector)
          (calc_err_est : Space -> MeshFunction -> MeshFunction ->
                          Q * ErrorCalculator)
          (adapt_strategy : CandList -> Q -> Q -> Z -> Z -> ErrorCalculator ->
                            Space -> bool * Space)
          (k : nat) (s s' : Seepage.State),
      passes (Seepage.adaptivity_step wf construct_refined_space
                project_to_vector solve_newton calc_err_est adapt_strategy)
             (fun x => negb (Seepage.done x)) k s s' ->
      Seepage.as_ s' = Seepage.as_ s + Z.of_nat k)
  /\
  (forall (H : Hermes) (wf : WeakForm) (bt_is_embedded adaptive : bool)
          (k : nat) (s s' : WallOnFire.State),
      passes (WallOnFire.adaptivity_step wf bt_is_embedded adaptive)
             (fun x => negb (WallOnFire.done x)) k s s' ->
      WallOnFire.as_ s <= WallOnFire.as_ s' <= WallOnFire.as_ s + Z.of_nat k).
Proof.
  split; [|split; [|split; [|split; [|split]]]].
  - intros H wf exact_sln k s s' P.
    induction P as [s|k s s1 s' B A _ IH]; [cbn; lia|].
    rewrite IH, Nat2Z.inj_succ. revert B A.
    unfold LayerBoundary1D.adaptivity_step.
    destruct (newton_solve _ _ _ _ _) as [vec|]; [|discriminate].
    destruct (project_global _ _) as [sln'|]; [|discriminate].
    intros E. injection E as <-.
    cbn [LayerBoundary1D.done LayerBoundary1D.as_].
    destruct (fst _); [discriminate|]. intros _. lia.
  - intros H wf exact_slns k s s' P.
    induction P as [s|k s s1 s' B A _ IH]; [cbn; lia|].
    rewrite IH, Nat2Z.inj_succ. revert B.
    unfold System1D.adaptivity_step.
    destruct (newton_solve _ _ _ _ _) as [vec|]; [|discriminate].
    destruct (project_global_multi _ _) as [slns'|]; [|discriminate].
    intros E. injection E as <-. cbn [System1D.as_]. lia.
  - intros H wf pit h1 l2 k s s' P.
    induction P as [s|k s s1 s' B A _ IH]; [cbn; lia|].
    rewrite IH, Nat2Z.inj_succ. revert B.
    unfold Neutronics.adaptivity_step.
    destruct (pit _ _ _ _); [|discriminate].
    intros E. injection E as <-. cbn [Neutronics.as_]. lia.
  - intros H wf Pid gtn tsz k s s' P.
    induction P as [s|k s s1 s' B A _ IH]; [cbn; lia|].
    rewrite IH, Nat2Z.inj_succ. revert B A.
    unfold NernstPlanck.adaptivity_step.
    destruct (newton_solve _ _ _ _ _) as [vec|]; [|discriminate].
    destruct (project_global_multi _ _) as [slns'|]; [|discriminate].
    intros E. injection E as <-.
    cbn [NernstPlanck.done NernstPlanck.as_].
    destruct (Qltb _ _); [discriminate|]. intros _. lia.
  - intros H wf crs ptv sn cee ast k s s' P.
    induction P as [s|k s s1 s' B A _ IH]; [cbn; lia|].
    rewrite IH, Nat2Z.inj_succ. revert B A.
    unfold Seepage.adaptivity_step.
    destruct (sn _ _ _ _) as [vec|]; [|discriminate].
    destruct (project_global _ _) as [sln'|]; [|discriminate].
    destruct (Qltb _ _); [intros E; injection E as <-; discriminate|].
    destruct (Zgeb _ _); [discriminate|].
    intros E. injection E as <-. cbn [Seepage.as_]. intros _. lia.
  - intros H wf bt_is_embedded adaptive k s s' P.
    induction P as [s|k s s1 s' B A _ IH]; [cbn; lia|].
    rewrite Nat2Z.inj_succ.
    enough (WallOnFire.as_ s <= WallOnFire.as_ s1 <= WallOnFire.as_ s + 1)
      by lia.
    revert B. unfold WallOnFire.adaptivity_step.
    destruct (project_global _ (WallOnFire.sln_prev_time s)) as [p|];
      [|discriminate].
    destruct (rk_time_step_newton _ _ _ _ _ _) as [[r e]|]; [|discriminate].
    destruct (adaptive && _).
    + intros E. injection E as <-. cbn [WallOnFire.as_]. lia.
    + destruct (project_global _ r) as [sln|]; [|discriminate].
      intros E. injection E as <-. cbn [WallOnFire.as_].
      destruct (Qltb _ _); lia.
Qed.

Lemma step_counter_counts_passes_witness :
  exists s',
    passes (LayerBoundary1D.adaptivity_step (H := Toy.lib Toy.lossy)
              tt (Toy.const_on Toy.coarse0 3))
           (fun x => negb (LayerBoundary1D.done x))
           2 (Runs.layer_state Toy.coarse0) s' /\
    LayerBoundary1D.as_ s' = 3.
Proof.
  assert (P : exists s',
             passes (LayerBoundary1D.adaptivity_step (H := Toy.lib Toy.lossy)
                       tt (Toy.const_on Toy.coarse0 3))
                    (fun x => negb (LayerBoundary1D.done x))
                    2 (Runs.layer_state Toy.coarse0) s')
    by (eexists; eapply passes_2; lazy; reflexivity).
  destruct P as [s' P]. exists s'. split; [exact P|].
  exact (proj1 step_counter_counts_passes (Toy.lib Toy.lossy) tt
           (Toy.const_on Toy.coarse0 3) 2%nat
           (Runs.layer_state Toy.coarse0) s' P).
Defined.

(** ** The time grid of seepage *)

(** A time step of seepage that comes to its end was solved at
    [TIME = ts * TAU], has copied the reference solution to the previous
    time level and has moved on to the next step number; the body of the
    time loop has no [break]. *)
Lemma seepage_time_step_body_frame
    (H : Hermes) (wf : WeakForm) (basemesh : Mesh) (TAU : Q)
    (construct_refined_space : Space -> Space)
    (project_to_vector : Space -> MeshFunction -> Vector)
    (solve_newton : WeakForm -> Q -> Vector -> Space -> option Vector)
    (calc_err_est : Space -> MeshFunction -> MeshFunction ->
                    Q * ErrorCalculator)
    (adapt_strategy : CandList -> Q -> Q -> Z -> Z -> ErrorCalculator ->
                      Space -> bool * Space)
    (unref_freq unref_method : Z) (fuel : nat) (s s' : Seepage.State) :
  let body :=
    Seepage.time_step_body wf basemesh TAU construct_refined_space
      project_to_vector solve_newton calc_err_est adapt_strategy
      unref_freq unref_method fuel in
  (body s = Normal s' ->
   Seepage.ts s' = Seepage.ts s + 1 /\
   Seepage.TIME s' = (inject_Z (Seepage.ts s) * TAU)%Q /\
   Seepage.sln_prev_time s' = Seepage.ref_sln s') /\
  body s <> LoopBreak s'.
Proof.
  intros body. subst body. unfold Seepage.time_step_body.
  destruct (Seepage.periodic_global_derefinement _ _ _ _)
    as [s1|s1|m s1|c s1|s1] eqn:D.
  - assert (F1 : Seepage.TIME s1 = (inject_Z (Seepage.ts s) * TAU)%Q /\
                 Seepage.ts s1 = Seepage.ts s).
    { revert D. unfold Seepage.periodic_global_derefinement.
      destruct (_ && _).
      - destruct (Seepage.global_derefinement _ _ _); [|discriminate].
        intros E. injection E as <-. split; reflexivity.
      - intros E. injection E as <-. split; reflexivity. }
    destruct F1 as [T1 N1].
    destruct (Seepage.adaptivity_loop _ _ _ _ _ _ fuel s1)
      as [s3|m s3|c s3|s3] eqn:L; cbn [after_loop];
      try (split; discriminate).
    split; [|discriminate].
    intros E. injection E as <-.
    destruct (seepage_spatial_loop_exit_frame H wf construct_refined_space
                project_to_vector solve_newton calc_err_est adapt_strategy
                fuel s1 s3 L) as (_ & _ & T3 & N3).
    cbn [Seepage.finish_time_step Seepage.ts Seepage.TIME
           Seepage.sln_prev_time Seepage.ref_sln].
    rewrite T3, N3, T1, N1. repeat split; reflexivity.
  - exfalso. revert D. unfold Seepage.periodic_global_derefinement.
    destruct (_ && _); [|discriminate].
    destruct (Seepage.global_derefinement _ _ _); discriminate.
  - split; discriminate.
  - split; discriminate.
  - split; discriminate.
Qed.

(** X22.  The time loop of seepage counts its steps: with [num_time_steps]
    the int that line 227 has computed (below INT_MAX, so that [ts] stays an
    int), a run of the loop that starts at [ts = 1] and comes to its end has
    made exactly [num_time_steps] time steps when that number is at least 1:
    [ts] ends one above it, [TIME] is what line 234 assigns in the step
    [ts = num_time_steps], the product of that step number and TAU (exact
    here, rounded in doubles), and the solution of the previous time level
    is the last reference solution.
    When [num_time_steps] is below 1 the loop makes no step at all and
    leaves everything as it was. *)
Theorem seepage_time_grid
    (H : Hermes) (wf : WeakForm) (basemesh : Mesh) (TAU : Q)
    (construct_refined_space : Space -> Space)
    (project_to_vector : Space -> MeshFunction -> Vector)
    (solve_newton : WeakForm -> Q -> Vector -> Space -> option Vector)
    (calc_err_est : Space -> MeshFunction -> MeshFunction ->
                    Q * ErrorCalculator)
    (adapt_strategy : CandList -> Q -> Q -> Z -> Z -> ErrorCalculator ->
                      Space -> bool * Space)
    (num_time_steps : Z)
    (fuel_time fuel_adapt : nat) (s s' : Seepage.State) :
  Seepage.ts s = 1 ->
  num_time_steps < 2147483647 ->
  Seepage.time_loop wf basemesh TAU construct_refined_space
    project_to_vector solve_newton calc_err_est adapt_strategy
    num_time_steps fuel_time fuel_adapt s = Finished s' ->
  (1 <= num_time_steps ->
   Seepage.ts s' = num_time_steps + 1 /\
   Seepage.TIME s' = (inject_Z num_time_steps * TAU)%Q /\
   Seepage.sln_prev_time s' = Seepage.ref_sln s') /\
  (num_time_steps < 1 -> s' = s).
Proof.
  intros S1 _. set (n := num_time_steps). unfold Seepage.time_loop.
  set (body := Seepage.time_step_body _ _ _ _ _ _ _ _ _ _ _).
  intros L.
  assert (G : forall fuel a b,
             while_do (fun x => Seepage.ts x <=? n) body fuel a
             = Finished b ->
             Seepage.ts a <= n + 1 ->
             Seepage.ts b = n + 1 /\
             (Seepage.ts a <= n ->
              Seepage.TIME b = (inject_Z n * TAU)%Q /\
              Seepage.sln_prev_time b = Seepage.ref_sln b) /\
             (Seepage.ts a = n + 1 -> b = a)).
  { induction fuel as [|fuel IH]; intros a b E Le; [discriminate|].
    cbn [while_do] in E.
    destruct (Z.leb_spec (Seepage.ts a) n) as [T|T].
    - destruct (seepage_time_step_body_frame H wf basemesh TAU
                  construct_refined_space project_to_vector solve_newton
                  calc_err_est adapt_strategy Seepage.UNREF_FREQ
                  Seepage.UNREF_METHOD fuel_adapt a b) as [_ NB].
      fold body in NB.
      destruct (body a) as [a1|a1|m a1|c a1|a1] eqn:B; try discriminate.
      + destruct (seepage_time_step_body_frame H wf basemesh TAU
                    construct_refined_space project_to_vector solve_newton
                    calc_err_est adapt_strategy Seepage.UNREF_FREQ
                    Seepage.UNREF_METHOD fuel_adapt a a1) as [Fr _].
        fold body in Fr. destruct (Fr B) as (N2 & T2 & P2).
        destruct (IH a1 b E ltac:(lia)) as (R1 & R2 & R3).
        split; [exact R1|]. split; [|intros; lia].
        intros _. destruct (Z.eq_dec (Seepage.ts a1) (n + 1)) as [Q|Q].
        * rewrite (R3 Q). split; [|exact P2].
          rewrite T2. replace (Seepage.ts a) with n by lia. reflexivity.
        * apply R2. lia.
      + injection E as <-. exfalso. apply NB. reflexivity.
    - injection E as <-. split; [lia|]. split; [intros; lia|reflexivity]. }
  split.
  - intros N1. destruct (G fuel_time s s' L ltac:(lia)) as (R1 & R2 & _).
    split; [exact R1|]. apply R2. lia.
  - intros N0. destruct fuel_time as [|fuel]; [discriminate|].
    cbn [while_do] in L.
    destruct (Z.leb_spec (Seepage.ts s) n) as [T|T]; [lia|].
    injection L as <-. reflexivity.
Qed.

(** Three time steps on the small library. *)
Lemma seepage_time_grid_witness :
  exists s',
    Seepage.time_loop (H := Toy.lib Toy.steady) tt 0 (3 # 10)
      Toy.construct_refined_space Toy.project_to_vector
      (Toy.solve_newton Toy.steady) Toy.calc_err_est
      (Toy.adapt_strategy Toy.steady) 3 5 3
      (Runs.seepage_state Toy.steady Toy.coarse0 1) = Finished s' /\
    Seepage.ts s' = 4 /\ (Seepage.TIME s' == 9 # 10)%Q.
Proof.
  assert (R : exists s',
             Seepage.time_loop (H := Toy.lib Toy.steady) tt 0 (3 # 10)
               Toy.construct_refined_space Toy.project_to_vector
               (Toy.solve_newton Toy.steady) Toy.calc_err_est
               (Toy.adapt_strategy Toy.steady) 3 5 3
               (Runs.seepage_state Toy.steady Toy.coarse0 1) = Finished s')
    by (eexists; lazy; reflexivity).
  destruct R as [s' R]. exists s'. split; [exact R|].
  destruct (proj1 (seepage_time_grid (Toy.lib Toy.steady) tt 0 (3 # 10)
                     Toy.construct_refined_space Toy.project_to_vector
                     (Toy.solve_newton Toy.steady) Toy.calc_err_est
                     (Toy.adapt_strategy Toy.steady) 3 5%nat 3%nat
                     (Runs.seepage_state Toy.steady Toy.coarse0 1) s'
                     ltac:(reflexivity) ltac:(reflexivity) R)
                  ltac:(discriminate)) as (N & T & _).
  split; [exact N|]. rewrite T. reflexivity.
Defined.

(** ** The time loop of circular-obstacle *)

Section CircularObstacleLoop.
Context `{Hermes} {Newton : Type}.
Variable solve : Newton -> list Space -> list MeshFunction -> Newton * bool.
Variable get_sln_vector : Newton -> Vector.
Variable update_essential_bc_values : list Space -> Q -> list Space.

Let loop :=
  CircularObstacle.time_loop solve get_sln_vector update_essential_bc_values.

(** With more passes in hand than time steps are left, the loop runs
    through them all. *)
Lemma circular_obstacle_loop_runs (k : nat) :
  forall (fuel : nat) (s : CircularObstacle.State (Newton := Newton)),
    Z.of_nat k = CircularObstacle.num_time_steps + 1 - CircularObstacle.ts s ->
    (k < fuel)%nat ->
    exists s',
      loop fuel s = Finished s' /\
      CircularObstacle.ts s' = CircularObstacle.num_time_steps + 1 /\
      (CircularObstacle.current_time s'
       == CircularObstacle.current_time s
          + inject_Z (Z.of_nat k) * CircularObstacle.TAU)%Q /\
      ((CircularObstacle.STARTUP_TIME <= CircularObstacle.current_time s)%Q ->
       CircularObstacle.spaces s' = CircularObstacle.spaces s).
Proof.
  unfold loop, CircularObstacle.time_loop.
  induction k as [|k IH]; intros fuel s K L.
  - destruct fuel as [|fuel]; [lia|]. cbn [while_do].
    destruct (Z.leb_spec (CircularObstacle.ts s) CircularObstacle.num_time_steps)
      as [T|T]; [lia|].
    exists s. split; [reflexivity|]. split; [lia|].
    split; [|reflexivity].
    change (inject_Z (Z.of_nat 0)) with 0%Q. ring.
  - destruct fuel as [|fuel]; [lia|]. cbn [while_do].
    destruct (Z.leb_spec (CircularObstacle.ts s) CircularObstacle.num_time_steps)
      as [T|T]; [|lia].
    unfold CircularObstacle.time_step at 1.
    match goal with |- context [while_do _ _ fuel ?x] => set (s1 := x) end.
    destruct (IH fuel s1) as (s' & E & N & C & Sp).
    + subst s1. cbn [CircularObstacle.ts]. lia.
    + lia.
    + exists s'. split; [exact E|]. split; [exact N|]. split.
      * rewrite C. subst s1. cbn [CircularObstacle.current_time].
        rewrite Nat2Z.inj_succ. unfold Z.succ. rewrite inject_Z_plus.
        change (inject_Z 1) with 1%Q. ring.
      * intros St. rewrite Sp.
        -- subst s1. cbn [CircularObstacle.spaces].
           unfold Qleb.
           destruct (Qle_bool _ CircularObstacle.STARTUP_TIME) eqn:B;
             [|reflexivity].
           apply Qle_bool_iff in B. exfalso.
           unfold CircularObstacle.TAU in B. lra.
        -- subst s1. cbn [CircularObstacle.current_time].
           unfold CircularObstacle.TAU. lra.
Qed.
End CircularObstacleLoop.

(** X23.  The time loop of circular-obstacle cannot be ended by its
    solver: an exception of [newton.solve()] is printed and the loop goes
    on.  Started at [ts = 1] and time 0 it makes all of its 300000 time
    steps and ends at time [300000 * TAU], which is T_FINAL, whatever the
    solver does; from a time at or past STARTUP_TIME on it no longer
    updates the essential boundary values of the spaces. *)
Theorem circular_obstacle_loop_runs_to_the_end
    (H : Hermes) (Newton : Type)
    (solve : Newton -> list Space -> list MeshFunction -> Newton * bool)
    (get_sln_vector : Newton -> Vector)
    (update_essential_bc_values : list Space -> Q -> list Space) :
  CircularObstacle.num_time_steps = 300000 /\
  (forall (fuel : nat) (spaces0 : list Space) (prev_time0 : list MeshFunction)
          (newton0 : Newton),
      300000 < Z.of_nat fuel ->
      exists s',
        CircularObstacle.time_loop solve get_sln_vector
          update_essential_bc_values fuel
          (CircularObstacle.initial spaces0 prev_time0 newton0) = Finished s' /\
        CircularObstacle.ts s' = 300001 /\
        (CircularObstacle.current_time s' == CircularObstacle.T_FINAL)%Q) /\
  (forall (fuel : nat) (s : CircularObstacle.State (Newton := Newton)),
      CircularObstacle.ts s <= 300001 ->
      300001 - CircularObstacle.ts s < Z.of_nat fuel ->
      (CircularObstacle.STARTUP_TIME <= CircularObstacle.current_time s)%Q ->
      exists s',
        CircularObstacle.time_loop solve get_sln_vector
          update_essential_bc_values fuel s = Finished s' /\
        CircularObstacle.spaces s' = CircularObstacle.spaces s).
Proof.
  assert (N : CircularObstacle.num_time_steps = 300000) by reflexivity.
  split; [exact N|]. split.
  - intros fuel spaces0 prev_time0 newton0 L.
    destruct (circular_obstacle_loop_runs solve get_sln_vector
                update_essential_bc_values (Z.to_nat 300000) fuel
                (CircularObstacle.initial spaces0 prev_time0 newton0))
      as (s' & E & T & C & _).
    + rewrite N. cbn [CircularObstacle.initial CircularObstacle.ts]. lia.
    + lia.
    + exists s'. split; [exact E|]. split; [rewrite T, N; reflexivity|].
      rewrite C. cbn [CircularObstacle.initial CircularObstacle.current_time].
      rewrite Z2Nat.id by lia. reflexivity.
  - intros fuel s K L St.
    destruct (circular_obstacle_loop_runs solve get_sln_vector
                update_essential_bc_values
                (Z.to_nat (300001 - CircularObstacle.ts s)) fuel s)
      as (s' & E & _ & _ & Sp).
    + rewrite N. lia.
    + lia.
    + exists s'. split; [exact E|exact (Sp St)].
Qed.

Lemma circular_obstacle_loop_runs_to_the_end_witness :
  exists s',
    CircularObstacle.time_loop (H := Toy.lib Toy.steady) (Newton := unit)
      (fun n _ _ => (n, false)) (fun _ => []) (fun sps _ => sps)
      (Z.to_nat 300005)
      (CircularObstacle.initial (H := Toy.lib Toy.steady) [] [] tt)
    = Finished s' /\
    CircularObstacle.ts s' = 300001.
Proof.
  destruct (proj1 (proj2 (circular_obstacle_loop_runs_to_the_end
                            (Toy.lib Toy.steady) unit
                            (fun n _ _ => (n, false)) (fun _ => [])
                            (fun sps _ => sps)))
              (Z.to_nat 300005) [] [] tt ltac:(lia)) as (s' & E & T & _).
  exists s'. split; [exact E|exact T].
Defined.

(** ** The advection-diffusion form without advection *)

Lemma for_loop_nonneg (n : Z) (body : nat -> R -> R) :
  (forall i r, (0 <= r)%R -> (0 <= body i r)%R) ->
  (0 <= for_loop n body 0)%R.
Proof.
  intros St. unfold for_loop.
  assert (G : forall l r, (0 <= r)%R ->
                          (0 <= fold_left (fun acc i => body i acc) l r)%R).
  { induction l as [|i l IH]; intros r Pr; [exact Pr|].
    cbn [fold_left]. apply IH. apply St. exact Pr. }
  apply G. apply Rle_refl.
Qed.

(** X24.  Without advection ([b1 = b2 = 0]) the volume matrix form of the
    advection-diffusion example is symmetric in its two functions, for every
    setting of the stabilization and shock-capturing switches (the
    shock-capturing term is then zero).  For nonnegative quadrature weights,
    a positive diffusion coefficient and an element diameter other than zero
    it is positive semidefinite: its value on a function paired with itself
    is not negative. *)
Theorem advection_diffusion_form_without_advection
    (epsilon : R) (stabilization_on shock_capturing_on second : bool)
    (n : Z) (wt : nat -> R) (u v : Quadrature.Func) (h_e : R) :
  AdvectionDiffusion.matrix_form 0 0 epsilon stabilization_on
    shock_capturing_on second n wt u v h_e
  = AdvectionDiffusion.matrix_form 0 0 epsilon stabilization_on
      shock_capturing_on second n wt v u h_e
  /\
  ((forall i, (0 <= wt i)%R) -> (0 < epsilon)%R -> h_e <> 0%R ->
   (0 <= AdvectionDiffusion.matrix_form 0 0 epsilon stabilization_on
           shock_capturing_on second n wt u u h_e)%R).
Proof.
  assert (S0 : forall a b : R, sqrt ((0 * a + 0 * b) ^ 2) = 0%R).
  { intros a b. replace ((0 * a + 0 * b) ^ 2)%R with 0%R by ring.
    apply sqrt_0. }
  unfold AdvectionDiffusion.matrix_form. split.
  - apply for_loop_ext. intros i r. cbn zeta. rewrite !S0.
    destruct shock_capturing_on, (second && stabilization_on);
      unfold Rdiv; ring.
  - intros W E Hn. apply for_loop_nonneg. intros i r Pr. cbn zeta.
    rewrite !S0. pose proof (W i) as Wi.
    assert (T1 : (0 <= wt i * (epsilon * (Quadrature.dx u i * Quadrature.dx u i
                                          + Quadrature.dy u i * Quadrature.dy u i)
                               - (0 * Quadrature.val u i * Quadrature.dx u i
                                  + 0 * Quadrature.val u i * Quadrature.dy u i)))%R).
    { apply Rmult_le_pos; [exact Wi|].
      pose proof (Rle_0_sqr (Quadrature.dx u i)) as A.
      pose proof (Rle_0_sqr (Quadrature.dy u i)) as B.
      unfold Rsqr in A, B. Lra.nra. }
    assert (T2 : forall d : R,
               (wt i * (9 / 10) * (1 / 2) * h_e * 0
                * (Quadrature.dx u i * Quadrature.dx u i
                   + Quadrature.dy u i * Quadrature.dy u i) / d = 0)%R).
    { intros d. unfold Rdiv. ring. }
    assert (T3 : forall tau x : R,
               (0 <= tau)%R -> (0 <= wt i * tau * x * x)%R).
    { intros tau x Pt. pose proof (Rle_0_sqr x) as A. unfold Rsqr in A.
      replace (wt i * tau * x * x)%R with (wt i * tau * (x * x))%R by ring.
      apply Rmult_le_pos; [apply Rmult_le_pos; assumption|exact A]. }
    assert (Tau : forall y : R, (0 <= 1 / sqrt y)%R).
    { intros y. unfold Rdiv. rewrite Rmult_1_l.
      destruct (Req_dec (sqrt y) 0) as [Z0|Z0].
      - rewrite Z0, Rinv_0. apply Rle_refl.
      - left. apply Rinv_0_lt_compat. pose proof (sqrt_pos y). Lra.lra. }
    destruct shock_capturing_on, (second && stabilization_on);
      rewrite ?T2;
      try match goal with
          | |- context [(wt i * (1 / sqrt ?y) * ?x * ?x)%R] =>
              pose proof (T3 (1 / sqrt y)%R x (Tau y))
          end;
      Lra.lra.
Qed.

Lemma advection_diffusion_form_without_advection_witness :
  (0 <= AdvectionDiffusion.matrix_form 0 0 1 true true true 2 (fun _ => 1%R)
          (Quadrature.mkFunc (fun _ => 1%R) INR (fun _ => 2%R) (fun _ => 0%R))
          (Quadrature.mkFunc (fun _ => 1%R) INR (fun _ => 2%R) (fun _ => 0%R))
          1)%R.
Proof.
  apply (proj2 (advection_diffusion_form_without_advection 1 true true true 2
                  (fun _ => 1%R)
                  (Quadrature.mkFunc (fun _ => 1%R) INR (fun _ => 2%R)
                     (fun _ => 0%R))
                  (Quadrature.mkFunc (fun _ => 1%R) INR (fun _ => 2%R)
                     (fun _ => 0%R))
                  1)).
  - intros i. Lra.lra.
  - Lra.lra.
  - Lra.lra.
Defined.

(** ** The exact solution of moving-front and the conditions it meets *)

(** X25.  The exact solution of moving-front meets the conditions of the
    problem it belongs to: it vanishes at both ends [x0] and [x1] of the
    interval at every time, and at time 0 it and its gradient are those of
    [ZeroInitialCondition].  The scaling constant [c] must not be zero. *)
Theorem moving_front_exact_solution_meets_conditions
    (x0 x1 s c M_PI t x y : R) :
  c <> 0%R ->
  MovingFront.CustomExactSolution_value x0 x1 s c M_PI t x0 y = 0%R /\
  MovingFront.CustomExactSolution_value x0 x1 s c M_PI t x1 y = 0%R /\
  MovingFront.CustomExactSolution_value x0 x1 s c M_PI 0 x y
  = MovingFront.ZeroInitialCondition_value x y /\
  MovingFront.CustomExactSolution_derivatives x0 x1 s c M_PI 0 x y
  = MovingFront.ZeroInitialCondition_derivatives x y.
Proof.
  intros C.
  unfold MovingFront.CustomExactSolution_value,
    MovingFront.CustomExactSolution_derivatives,
    MovingFront.ZeroInitialCondition_value,
    MovingFront.ZeroInitialCondition_derivatives.
  rewrite atan_0. repeat split.
  - field. exact C.
  - field. exact C.
  - field. exact C.
  - f_equal. field.
    split; [exact C|].
    apply Rgt_not_eq. pose proof (pow2_ge_0 (s * x)). Lra.lra.
Qed.

Lemma moving_front_exact_solution_meets_conditions_witness :
  MovingFront.CustomExactSolution_value 0 10 2 1 PI 3 0 0 = 0%R.
Proof.
  exact (proj1 (moving_front_exact_solution_meets_conditions
                  0 10 2 1 PI 3 5 0 ltac:(Lra.lra))).
Defined.

(** ** The initial condition of seepage *)

(** X26.  seepage adapts a mesh to its initial condition before the time
    loop.  When that loop ends, [sln_prev_time] is the projection of the
    exact initial condition (set on the mesh of the refined space) on the
    space the last pass began with; the last pass either found the
    projection error below ERR_STOP and left the space alone, or refined the
    space, after which it holds NDOF_STOP unknowns or more or [adapt]
    reported done.  If every refinement adds at least one unknown, the loop
    started on [ndof] unknowns stops within [NDOF_STOP - ndof] passes. *)
Theorem seepage_initial_condition_loop
    (H : Hermes) (construct_refined_space : Space -> Space)
    (set_exact : Mesh -> MeshFunction)
    (calc_err_est : Space -> MeshFunction -> MeshFunction ->
                    Q * ErrorCalculator)
    (adapt_strategy : CandList -> Q -> Q -> Z -> Z -> Q -> ErrorCalculator ->
                      Space -> bool * Space) :
  let loop :=
    SeepageInit.adaptivity_loop construct_refined_space set_exact
      calc_err_est adapt_strategy in
  (forall (fuel : nat) (s s' : SeepageInit.State),
      loop fuel s = Finished s' ->
      SeepageInit.done s' = true /\
      exists s1 : SeepageInit.State,
        project_global (SeepageInit.init_space s1)
          (set_exact
             (get_mesh (construct_refined_space (SeepageInit.init_space s1))))
        = Some (SeepageInit.sln_prev_time s') /\
        ((SeepageInit.err_est_rel s' < Seepage.ERR_STOP)%Q /\
         SeepageInit.init_space s' = SeepageInit.init_space s1
         \/
         (Seepage.ERR_STOP <= SeepageInit.err_est_rel s')%Q /\
         exists ec,
           SeepageInit.init_space s'
           = snd (adapt_strategy Seepage.CAND_LIST Seepage.CONV_EXP
                    Seepage.THRESHOLD Seepage.STRATEGY
                    Seepage.MESH_REGULARITY 0%Q ec
                    (SeepageInit.init_space s1)) /\
           (Seepage.NDOF_STOP <= get_num_dofs (SeepageInit.init_space s')
            \/
            fst (adapt_strategy Seepage.CAND_LIST Seepage.CONV_EXP
                   Seepage.THRESHOLD Seepage.STRATEGY
                   Seepage.MESH_REGULARITY 0%Q ec
                   (SeepageInit.init_space s1)) = true)))
  /\
  ((forall cl ce th st mr tb ec sp,
       get_num_dofs sp
       < get_num_dofs (snd (adapt_strategy cl ce th st mr tb ec sp))) ->
   forall (n : nat) (s : SeepageInit.State),
     Seepage.NDOF_STOP - 1 - get_num_dofs (SeepageInit.init_space s)
       <= Z.of_nat n ->
     stopped (loop (Datatypes.S n) s) = true).
Proof.
  intros loop. subst loop. unfold SeepageInit.adaptivity_loop. split.
  - intros fuel s s' E.
    destruct (do_while_finished _ _ _ _ _ E) as (k & s1 & _ & L).
    revert L. unfold SeepageInit.adaptivity_step.
    destruct (project_global _ _) as [p|] eqn:Pj;
      [|intros [[X _]|X]; discriminate X].
    intros [[X D]|X]; [|discriminate X]. injection X as <-.
    cbn [SeepageInit.done SeepageInit.sln_prev_time SeepageInit.err_est_rel
           SeepageInit.init_space] in *.
    apply negb_false_iff in D. split; [exact D|].
    exists s1. split; [exact Pj|].
    destruct (Qltb _ Seepage.ERR_STOP) eqn:Er.
    + left. split; [apply Qltb_true; exact Er|reflexivity].
    + right. split; [apply Qltb_false; exact Er|].
      destruct (Zgeb _ Seepage.NDOF_STOP) eqn:G.
      * eexists. split; [reflexivity|]. left. apply Zgeb_true. exact G.
      * eexists. split; [reflexivity|]. right. exact D.
  - intros adds n s L.
    apply (do_while_stops_by_measure _ _
             (fun x => get_num_dofs (SeepageInit.init_space x))
             (Seepage.NDOF_STOP - 1)); [| |exact L].
    + intros a b. unfold SeepageInit.adaptivity_step.
      destruct (project_global _ _); discriminate.
    + intros a b. unfold SeepageInit.adaptivity_step.
      destruct (project_global _ _) as [p|]; [|discriminate].
      intros E. injection E as <-.
      cbn [SeepageInit.done SeepageInit.init_space].
      destruct (Qltb _ _); [discriminate|].
      destruct (Zgeb _ _) eqn:G; [discriminate|].
      apply Zgeb_false in G. intros _.
      match goal with
      | |- _ /\ _ <= get_num_dofs
                       (snd (adapt_strategy ?cl ?ce ?th ?st ?mr ?tb ?ec ?sp)) =>
          pose proof (adds cl ce th st mr tb ec sp)
      end.
      lia.
Qed.

Lemma seepage_initial_condition_loop_witness :
  stopped
    (SeepageInit.adaptivity_loop (H := Toy.lib MoreRuns.growing)
       Toy.construct_refined_space (fun m => Toy.const_on Toy.coarse0 1)
       Toy.calc_err_est (fun _ _ _ _ _ _ _ s => MoreRuns.grow s)
       (Z.to_nat 59997)
       (SeepageInit.initial (H := Toy.lib MoreRuns.growing) Toy.coarse0
          (Toy.zero_on Toy.coarse0) (Toy.zero_on Toy.coarse0))) = true.
Proof.
  replace (Z.to_nat 59997) with (Datatypes.S (Z.to_nat 59996)) by lia.
  refine (proj2 (seepage_initial_condition_loop (Toy.lib MoreRuns.growing)
                   Toy.construct_refined_space
                   (fun m => Toy.const_on Toy.coarse0 1)
                   Toy.calc_err_est (fun _ _ _ _ _ _ _ s => MoreRuns.grow s))
            _ (Z.to_nat 59996) _ _).
  - intros cl ce th st mr tb ec sp. exact (toy_grow_adds sp).
  - cbn [SeepageInit.initial SeepageInit.init_space].
    change (@get_num_dofs (Toy.lib MoreRuns.growing) Toy.coarse0) with 3.
    change Seepage.NDOF_STOP with 60000. lia.
Defined.
